(** * Hyrise: radix/range clustering for the sort-merge join, and the
      column-statistics selectivity estimator

    A shallow embedding of

    - [src/lib/operators/join_sort_merge_utils/radix_cluster_sort.hpp]
      (class template [RadixClusterSort<T>]) and
    - [src/lib/optimizer/column_statistics.cpp]
      (class template [ColumnStatistics<ColumnType>])

    followed by the properties established about them.

    Conventions.
    - [size_t] is a 64-bit unsigned integer: a [Z] with the wrap-around
      written out ([size_add], [size_sub], [size_mul]).
    - Signed column values ([int32_t], [int64_t]) are [Z]; arithmetic on them
      that would leave the type is undefined behaviour in C++ and is an
      explicit error result here ([int_add], [int_sub]).
    - [float] is IEEE-754 binary32.  The code is written over an interface
      ([Float32]) whose reference instance [binary32] is the Standard
      Library's executable specification of IEEE arithmetic at precision 24.
      What the proofs need of its rounding is collected in [Float32Laws]
      and proved of [binary32] from that specification ([binary32_laws]).
    - Exceptions and undefined behaviour are values of [error]; fallible code
      returns a [result]. *)

From Stdlib Require Import ZArith QArith Floats.SpecFloat.
From stdpp Require Import base tactics option list strings sorting.
From Stdlib Require Import Lia Lqa.

Local Open Scope Z_scope.

(* ===================================================================== *)
(** * Errors and results *)
(* ===================================================================== *)

(** What a call can end in when it does not return normally. *)
Inductive error : Type :=
  | UndefinedBehaviour (what : string)
      (** out-of-range [operator[]], null dereference, signed overflow,
          dereferencing [end()] *)
  | LogicError (msg : string)
      (** [std::logic_error] thrown by [Fail] and by a failed [DebugAssert]
          (debug builds only) *)
  | ConfigurationError (msg : string)
      (** raised by the column materializer for an unknown column name *)
  | ExternalError (msg : string)
      (** an error raised by an operator outside this code *)
  | AllocationFailure (what : string)
      (** [std::length_error] or [std::bad_alloc] thrown when a container is
          created *).

Inductive result (A : Type) : Type :=
  | Ok (a : A)
  | Err (e : error).
Arguments Ok {A} a.
Arguments Err {A} e.

#[global] Instance result_ret : MRet result := fun A a => Ok a.
#[global] Instance result_bind : MBind result := fun A B f r =>
  match r with
  | Ok a => f a
  | Err e => Err e
  end.

(** [DebugAssert(expr, msg)]: checked in debug builds, compiled away in
    release builds. *)
Definition DebugAssert (debug : bool) (expr : bool) (msg : string) : result unit :=
  if debug then (if expr then Ok tt else Err (LogicError msg)) else Ok tt.

(** A left fold whose step may fail; the first failure ends the loop. *)
Fixpoint foldM {A B : Type} (f : A -> B -> result A) (a : A) (l : list B) : result A :=
  match l with
  | [] => Ok a
  | b :: l' => a' ← f a b; foldM f a' l'
  end.

(* ===================================================================== *)
(** * Machine integers *)
(* ===================================================================== *)

Definition SIZE_MAX : Z := 2 ^ 64 - 1.
Definition size_wrap (z : Z) : Z := z mod 2 ^ 64.
Definition size_add (a b : Z) : Z := size_wrap (a + b).
Definition size_sub (a b : Z) : Z := size_wrap (a - b).
Definition size_mul (a b : Z) : Z := size_wrap (a * b).

(** [static_cast<uint32_t>] of an integer. *)
Definition to_uint32 (z : Z) : Z := z mod 2 ^ 32.

(** The signed integer column types the templates are instantiated with. *)
Inductive int_type : Type := Int32 | Int64.

Definition int_bits (t : int_type) : Z :=
  match t with Int32 => 32 | Int64 => 64 end.
Definition int_min (t : int_type) : Z := - 2 ^ (int_bits t - 1).
Definition int_max (t : int_type) : Z := 2 ^ (int_bits t - 1) - 1.
Definition in_range (t : int_type) (z : Z) : bool :=
  (int_min t <=? z) && (z <=? int_max t).

(** Signed arithmetic: a result outside the type is undefined behaviour. *)
Definition int_checked (t : int_type) (z : Z) : result Z :=
  if in_range t z then Ok z
  else Err (UndefinedBehaviour "signed integer overflow").
Definition int_add (t : int_type) (a b : Z) : result Z := int_checked t (a + b).
Definition int_sub (t : int_type) (a b : Z) : result Z := int_checked t (a - b).

(** ** Memory

    [std::vector<X>(n)] throws [std::length_error] when [n] exceeds
    [max_size()] and [std::bad_alloc] when the memory is not to be had.
    Which requests are served is a matter of the machine: [allocates n]
    tells whether the vectors of [n] elements the clustering creates
    (clusters, mutexes, histograms, split values) can be created. *)
Class Allocator : Type := {
  allocates : Z -> bool
}.

Definition allocate `{Allocator} (n : Z) : result unit :=
  if allocates n then Ok tt
  else Err (AllocationFailure "cannot create a vector of the requested size").

(** Conversion of an unsigned value to the signed type (modular). *)
Definition int_of_size_t (t : int_type) (z : Z) : Z :=
  let m := z mod 2 ^ int_bits t in
  if m <=? int_max t then m else m - 2 ^ int_bits t.

(* ===================================================================== *)
(** * Single-precision floating point *)
(* ===================================================================== *)

(** The operations of [float] the two classes use. *)
Class Float32 : Type := {
  f32 : Type;
  of_Z : Z -> f32;              (** conversion of an integer, to nearest *)
  fsub : f32 -> f32 -> f32;
  fmul : f32 -> f32 -> f32;
  fdiv : f32 -> f32 -> f32;
  fltb : f32 -> f32 -> bool;    (** [<] *)
  fleb : f32 -> f32 -> bool;    (** [<=] *)
  fvalid : f32 -> bool;         (** a value of the format *)
  is_finite : f32 -> bool;
  ftrunc : f32 -> option Z      (** integer part; [None] for NaN, infinities *)
}.

(** The literals [0.f] and [1.f]. *)
Definition fzero `{Float32} : f32 := of_Z 0.
Definition fone `{Float32} : f32 := of_Z 1.

(** [std::min] on floats: [(b < a) ? b : a]. *)
Definition fmin `{Float32} (a b : f32) : f32 := if fltb b a then b else a.

(** [static_cast<size_t>] of a float: the integer part, undefined when it is
    not representable. *)
Definition float_to_size_t `{Float32} (x : f32) : result Z :=
  match ftrunc x with
  | Some z =>
      if (0 <=? z) && (z <=? SIZE_MAX) then Ok z
      else Err (UndefinedBehaviour "float to size_t conversion out of range")
  | None => Err (UndefinedBehaviour "float to size_t conversion out of range")
  end.

(** ** IEEE-754 binary32 *)

Definition b32_trunc (x : spec_float) : option Z :=
  match x with
  | S754_zero _ => Some 0
  | S754_finite s m e =>
      let a := if 0 <=? e then Z.pos m * 2 ^ e else Z.pos m / 2 ^ (- e) in
      Some (if s then - a else a)
  | _ => None
  end.

Definition b32_is_finite (x : spec_float) : bool :=
  match x with
  | S754_zero _ | S754_finite _ _ _ => true
  | _ => false
  end.

Definition binary32 : Float32 := {|
  f32 := spec_float;
  of_Z := fun z => binary_normalize 24 128 z 0 false;
  fsub := SFsub 24 128;
  fmul := SFmul 24 128;
  fdiv := SFdiv 24 128;
  fltb := SFltb;
  fleb := SFleb;
  fvalid := valid_binary 24 128;
  is_finite := b32_is_finite;
  ftrunc := b32_trunc
|}.

(** ** What the operations of [binary32] compute

    The notions the rounding of the Standard Library's specification is
    described with: the place of a quotient between two integers, rounding
    to nearest even, and the value of a float as an integer multiple of the
    smallest positive one. *)

(** [mrs] is the integer part of [A / B] with, of the rest [A mod B],
    whether it is at least a half and whether it is neither nothing nor a
    half. *)
Definition located (A B : Z) (mrs : shr_record) : Prop :=
  shr_m mrs = A / B
  /\ shr_r mrs = (B <=? 2 * (A mod B))
  /\ shr_s mrs = negb ((A mod B =? 0) || (2 * (A mod B) =? B)).

(** [A / B] rounded to the nearest integer, to the even one on a tie. *)
Definition rne (A B : Z) : Z :=
  let m := A / B in
  let r := A mod B in
  if 2 * r <? B then m
  else if B <? 2 * r then m + 1
  else if Z.even m then m else m + 1.

(** The float of mantissa [m] and exponent [e]. *)
Definition b32_make (s : bool) (m e : Z) : spec_float :=
  match m with
  | 0 => S754_zero s
  | Z.pos p => if e <=? 104 then S754_finite s p e else S754_infinity s
  | Z.neg _ => S754_nan
  end.

(** A float of the format as a multiple of [2 ^ -149], the infinities
    beyond every finite value. *)
Definition Bval (x : spec_float) : Z :=
  match x with
  | S754_zero _ => 0
  | S754_finite s m e => (if s then -1 else 1) * (Z.pos m * 2 ^ (e + 149))
  | S754_infinity s => if s then - 2 ^ 300 else 2 ^ 300
  | S754_nan => 0
  end.

Definition is_nan (x : spec_float) : bool :=
  match x with S754_nan => true | _ => false end.

(** The float [binary_round_aux] ends in, from the rounded mantissa and the
    exponent. *)
Definition rounded (s : bool) (m E : Z) : spec_float :=
  if m <? 2 ^ 24 then b32_make s m E else b32_make s (2 ^ 23) (E + 1).

(** What [binary_round_aux] is given: the integer part [mx] and the place
    [lx] of [A / B], at an exponent [ex] not above the one the format gives
    to a number of that size. *)
Definition round_input (A B mx ex : Z) (lx : location) : Prop :=
  0 <= A /\ 0 < B /\ located A B (shr_record_of_loc mx lx)
  /\ ex <= fexp 24 128 (Zdigits2 mx + ex).

(** ** Exact arithmetic

    Rationals with no rounding: the reference the order laws below are read
    against. *)

Definition exact : Float32 := {|
  f32 := Q;
  of_Z := inject_Z;
  fsub := Qminus;
  fmul := Qmult;
  fdiv := Qdiv;
  fltb := fun x y => negb (Qle_bool y x);
  fleb := Qle_bool;
  fvalid := fun _ => true;
  is_finite := fun _ => true;
  ftrunc := fun x => Some (Z.quot (Qnum x) (Z.pos (Qden x)))
|}.

(** ** Order laws of rounding

    What the proofs below use of the arithmetic: the operations stay in the
    format, conversion and division round monotonically on the non-negative
    values, and rounding does not cross a representable value.  The laws
    are stated for values of the format ([fvalid]) and finite divisors:
    round-to-nearest is monotone, [z / z] is 1, and [d - 1] lies between 0
    and [d] for [d >= 1].  Both [exact] and [binary32] obey them
    ([exact_laws], [binary32_laws]). *)
Class Float32Laws (F : Float32) : Prop := {
  of_Z_valid : forall a, fvalid (of_Z a) = true;
  of_Z_finite : forall a, Z.abs a <= 2 ^ 64 -> is_finite (of_Z a) = true;
  of_Z_mono : forall a b, 0 <= a <= b -> fleb (of_Z a) (of_Z b) = true;
  of_Z_pos : forall a, 0 < a -> fltb fzero (of_Z a) = true;
  fsub_valid : forall x y : f32,
    fvalid x = true -> fvalid y = true -> fvalid (fsub x y) = true;
  fdiv_valid : forall x y : f32,
    fvalid x = true -> fvalid y = true -> fvalid (fdiv x y) = true;
  flt_le_trans : forall x y z : f32,
    fltb x y = true -> fleb y z = true -> fltb x z = true;
  fle_trans : forall x y z : f32,
    fleb x y = true -> fleb y z = true -> fleb x z = true;
  fdiv_mono : forall x y z : f32,
    fvalid x = true -> fvalid y = true -> fvalid z = true ->
    is_finite z = true -> fltb fzero z = true ->
    fleb fzero x = true -> fleb x y = true ->
    fleb (fdiv x z) (fdiv y z) = true;
  fdiv_zero : forall z : f32,
    is_finite z = true -> fltb fzero z = true -> fleb fzero (fdiv fzero z) = true;
  fdiv_self : forall z : f32,
    is_finite z = true -> fltb fzero z = true -> fleb (fdiv z z) fone = true;
  fsub_one : forall d : f32,
    fvalid d = true -> is_finite d = true -> fleb fone d = true ->
    fleb fzero (fsub d fone) = true /\ fleb (fsub d fone) d = true
}.

(* ===================================================================== *)
(** * [RadixClusterSort<T>], for a signed integer [T] *)
(* ===================================================================== *)

Module radix_cluster_sort.

(** ** Data model ([column_materializer.hpp] and [storage/table.hpp] are
    not part of the sources at hand) *)

(** [T = int32_t] or [T = int64_t], wherever no other type is named. *)
Abbreviation T := Z (only parsing).

Record RowID : Type := { chunk_id : nat; chunk_offset : nat }.

(** [MaterializedValue<V>] *)
Record Materialized (V : Type) : Type := { value : V; row_id : RowID }.
Arguments Build_Materialized {V} _ _.
Arguments value {V} _.
Arguments row_id {V} _.

Abbreviation MaterializedValue := (Materialized T) (only parsing).
Abbreviation MaterializedColumn := (list MaterializedValue) (only parsing).
Abbreviation MaterializedColumnList := (list (list MaterializedValue)) (only parsing).

(** [std::map<T, size_t>]: the entries in ascending key order. *)
Abbreviation histogram := (list (Z * Z)) (only parsing).

(** Modelled from the spec: [Table], which is missing from the sources.  A
    table is a sequence of chunks, a chunk a sequence of rows, and a row
    gives a value for every column index. *)
Record Table : Type := {
  column_names : list string;
  chunks : list (list (nat -> T))
}.

Definition row_count (t : Table) : Z :=
  foldr (fun c n => Z.of_nat (length c) + n) 0 (chunks t).

Fixpoint column_id_by_name (name : string) (names : list string) : option nat :=
  match names with
  | [] => None
  | n :: names' =>
      if String.eqb name n then Some 0%nat
      else S <$> column_id_by_name name names'
  end.

Definition is_some {A} (o : option A) : bool :=
  match o with Some _ => true | None => false end.

Section RadixClusterSort.
Context {F : Float32} {Mem : Allocator}.

(** Which of the two integer types [T] is. *)
Variable ty : int_type.
(** Whether [DebugAssert] is compiled in. *)
Variable debug : bool.

(** [std::sort] of a cluster by [left.value < right.value]; also the order
    the materializer sorts a chunk in. *)
Fixpoint insert_by_value (x : MaterializedValue) (l : MaterializedColumn)
  : MaterializedColumn :=
  match l with
  | [] => [x]
  | y :: l' => if value x <? value y then x :: l else y :: insert_by_value x l'
  end.

Definition sort_by_value (l : MaterializedColumn) : MaterializedColumn :=
  foldr insert_by_value [] l.

(** Modelled from the spec: [ColumnMaterializer<T>::materialize], which is
    missing from the sources.  One output chunk per source chunk, one record
    [(value, row-id)] per source row, in row order, or ordered by value when
    [sort] is set; an unknown column name is a [ConfigurationError]; a null
    table is dereferenced. *)
Definition materialize (sort : bool) (table : option Table) (column : string)
  : result MaterializedColumnList :=
  match table with
  | None => Err (UndefinedBehaviour "null table dereferenced")
  | Some t =>
      match column_id_by_name column (column_names t) with
      | None => Err (ConfigurationError "unknown column name")
      | Some c =>
          Ok (imap (fun i chunk =>
                let records :=
                  imap (fun o row =>
                          {| value := row c;
                             row_id := {| chunk_id := i; chunk_offset := o |} |})
                       chunk in
                if sort then sort_by_value records else records)
               (chunks t))
      end
  end.

(** ** The object *)

Record RadixClusterSort : Type := {
  _input_table_left : option Table;
  _input_table_right : option Table;
  _left_column_name : string;
  _right_column_name : string;
  _equi_case : bool;
  _cluster_count : Z
}.

(** The constructor, with its four assertions. *)
Definition make (left right : option Table) (column_names : string * string)
    (equi_case : bool) (cluster_count : Z) : result RadixClusterSort :=
  _ ← DebugAssert debug (0 <? cluster_count) "cluster_count must be > 0";
  _ ← DebugAssert debug (Z.land cluster_count (size_sub cluster_count 1) =? 0)
        "cluster_count must be a power of two, i.e. 1, 2, 4, 8...";
  _ ← DebugAssert debug (is_some left) "left input operator is null";
  _ ← DebugAssert debug (is_some right) "right input operator is null";
  Ok {| _input_table_left := left; _input_table_right := right;
        _left_column_name := column_names.1;
        _right_column_name := column_names.2;
        _equi_case := equi_case; _cluster_count := cluster_count |}.

(** ** [get_radix], arithmetic types *)
Definition get_radix (value : T) (radix_bitmask : Z) : Z :=
  Z.land (to_uint32 value) radix_bitmask.

(** ** [_materialized_table_size] *)
Definition _materialized_table_size (table : MaterializedColumnList) : Z :=
  foldl (fun total_size chunk => total_size + Z.of_nat (length chunk)) 0 table.

(** ** [_concatenate_chunks] *)
Definition _concatenate_chunks (input_chunks : MaterializedColumnList)
  : MaterializedColumnList :=
  [ foldl (fun output_chunk chunk => output_chunk ++ chunk) [] input_chunks ].

(** ** [_cluster]

    One job per input chunk; a job takes the entries of its chunk in order
    and, for each, appends it to cluster [clusterer(entry.value)] under that
    cluster's mutex.  The jobs run in parallel: the state below holds what
    each job has left to do and the output clusters, one scheduling step lets
    one job move its next entry, and a [schedule] (the job picked at each
    step) fixes the interleaving.  [wait_for_tasks] lets every job run to
    its end.  The function is the same for every value type [V]. *)
Section Cluster.
Context {V : Type}.

Record cluster_state : Type := {
  pending : list (list (Materialized V));   (** per job: entries not yet moved *)
  output_table : list (list (Materialized V))
}.

(** [push_back(entry)] on cluster [cluster_id] of the output table *)
Definition push_entry (clusterer : V -> result Z)
    (output : list (list (Materialized V))) (entry : Materialized V)
  : result (list (list (Materialized V))) :=
  cluster_id ← clusterer (value entry);
  match output !! Z.to_nat cluster_id with
  | Some cluster => Ok (<[Z.to_nat cluster_id := cluster ++ [entry]]> output)
  | None => Err (UndefinedBehaviour "cluster id out of range")
  end.

(** Job [job] moves its next entry, if it has one left. *)
Definition job_step (clusterer : V -> result Z) (st : cluster_state) (job : nat)
  : result cluster_state :=
  match pending st !! job with
  | Some (entry :: rest) =>
      output ← push_entry clusterer (output_table st) entry;
      Ok {| pending := <[job := rest]> (pending st); output_table := output |}
  | _ => Ok st
  end.

(** Every job runs to completion. *)
Definition wait_for_tasks (clusterer : V -> result Z) (st : cluster_state)
  : result (list (list (Materialized V))) :=
  foldM (foldM (push_entry clusterer)) (output_table st) (pending st).

Definition _cluster (cluster_count : Z) (schedule : list nat)
    (input_chunks : list (list (Materialized V))) (clusterer : V -> result Z)
  : result (list (list (Materialized V))) :=
  (* output_table(_cluster_count), cluster_mutexes(_cluster_count) *)
  _ ← allocate cluster_count;
  let output_table := replicate (Z.to_nat cluster_count) [] in
  st ← foldM (job_step clusterer)
        {| pending := input_chunks; output_table := output_table |} schedule;
  wait_for_tasks clusterer st.
End Cluster.
Arguments cluster_state : clear implicits.

(** ** [_radix_cluster] *)
Definition radix_clusterer (cluster_count : Z) (value : T) : Z :=
  let radix_bitmask := size_sub cluster_count 1 in
  (* the mask is passed as a [uint32_t] *)
  get_radix value (to_uint32 radix_bitmask).

Definition _radix_cluster (cluster_count : Z) (schedule : list nat)
    (input_chunks : MaterializedColumnList) : result MaterializedColumnList :=
  _cluster cluster_count schedule input_chunks
           (fun value => Ok (radix_clusterer cluster_count value)).

(** ** [get_radix] and [_radix_cluster], [T = std::string]

    A [std::string] as [get_radix] sees it: its characters, and the bytes
    that follow the terminating zero in the buffer [c_str()] points into
    (the rest of the capacity; what they hold is left over from earlier
    uses of the memory).  Bytes are numbers below 256.  The value of the
    string, which [operator==] and [operator<] compare, is [characters]
    alone. *)
Record cpp_string : Type := {
  characters : list Z;
  behind_terminator : list Z
}.

Definition c_str (s : cpp_string) : list Z :=
  characters s ++ 0 :: behind_terminator s.

(** [*reinterpret_cast<const uint32_t*>(value.c_str()) & radix_bitmask]:
    four bytes are read, whatever the length of the string, the first one
    lowest (little-endian); a buffer of fewer than four bytes is read past
    its end. *)
Definition get_radix_string (value : cpp_string) (radix_bitmask : Z) : result Z :=
  match c_str value with
  | b0 :: b1 :: b2 :: b3 :: _ =>
      Ok (Z.land (b0 + 2 ^ 8 * b1 + 2 ^ 16 * b2 + 2 ^ 24 * b3) radix_bitmask)
  | _ => Err (UndefinedBehaviour "read past the end of the string buffer")
  end.

Definition _radix_cluster_string (cluster_count : Z) (schedule : list nat)
    (input_chunks : list (list (Materialized cpp_string)))
  : result (list (list (Materialized cpp_string))) :=
  let radix_bitmask := size_sub cluster_count 1 in
  _cluster cluster_count schedule input_chunks
           (fun value => get_radix_string value (to_uint32 radix_bitmask)).

(** ** [get_radix], [T = float]: [static_cast<uint32_t>(value)] truncates,
    and is undefined when the truncated value is no [uint32_t]. *)
Definition get_radix_float (value : f32) (radix_bitmask : Z) : result Z :=
  match ftrunc value with
  | Some z =>
      if (0 <=? z) && (z <? 2 ^ 32) then Ok (Z.land z radix_bitmask)
      else Err (UndefinedBehaviour "float to uint32_t conversion out of range")
  | None => Err (UndefinedBehaviour "float to uint32_t conversion out of range")
  end.

(** ** [_pick_sample_values] *)

(** [++h[v]] *)
Fixpoint hist_incr (v : T) (h : histogram) : histogram :=
  match h with
  | [] => [(v, 1)]
  | (key, count) :: h' =>
      if v <? key then (v, 1) :: h
      else if v =? key then (key, size_add count 1) :: h'
      else (key, count) :: hist_incr v h'
  end.

(** [pos = size * (cluster_id + 1) / static_cast<float>(_cluster_count)]:
    the product is a [size_t], converted to [float] for the division. *)
Definition sample_position (cluster_count chunk_size cluster_id : Z) : f32 :=
  fdiv (of_Z (size_mul chunk_size (size_add cluster_id 1))) (of_Z cluster_count).

(** [index = static_cast<size_t>(pos)] *)
Definition sample_index (cluster_count chunk_size cluster_id : Z) : result Z :=
  float_to_size_t (sample_position cluster_count chunk_size cluster_id).

(** The body of the inner loop. *)
Definition pick_sample (cluster_count : Z) (chunk_values : MaterializedColumn)
    (sample_values : list histogram) (cluster_id : Z) : result (list histogram) :=
  index ← sample_index cluster_count (Z.of_nat (length chunk_values)) cluster_id;
  match chunk_values !! Z.to_nat index with
  | None => Err (UndefinedBehaviour "sample index out of range")
  | Some entry =>
      match sample_values !! Z.to_nat cluster_id with
      | None => Err (UndefinedBehaviour "cluster id out of range")
      | Some h =>
          Ok (<[Z.to_nat cluster_id := hist_incr (value entry) h]> sample_values)
      end
  end.

Definition _pick_sample_values (cluster_count : Z)
    (sample_values : list histogram) (table : MaterializedColumnList)
  : result (list histogram) :=
  foldM (fun sample_values chunk_values =>
           foldM (pick_sample cluster_count chunk_values) sample_values
                 (seqZ 0 (size_sub cluster_count 1)))
        sample_values table.

(** ** [_range_cluster] *)

(** [std::max_element] with the comparison [a.second < b.second]: the first
    of the entries no other entry is greater than; [end()] on an empty
    range. *)
Fixpoint max_element_from (largest : T * Z) (l : histogram) : T * Z :=
  match l with
  | [] => largest
  | x :: l' =>
      if largest.2 <? x.2 then max_element_from x l' else max_element_from largest l'
  end.

Definition max_element (h : histogram) : option (T * Z) :=
  match h with
  | [] => None
  | x :: l => Some (max_element_from x l)
  end.

(** The loop that fills [split_values]; the [size_t] count [->second] is
    what is assigned, converted to [T]. *)
Definition pick_split_value (sample_values : list histogram)
    (split_values : list T) (cluster_id : Z) : result (list T) :=
  match sample_values !! Z.to_nat cluster_id with
  | None => Err (UndefinedBehaviour "cluster id out of range")
  | Some h =>
      match max_element h with
      | None => Err (UndefinedBehaviour "end() dereferenced")
      | Some largest =>
          Ok (<[Z.to_nat cluster_id := int_of_size_t ty largest.2]> split_values)
      end
  end.

Definition pick_split_values (cluster_count : Z) (sample_values : list histogram)
  : result (list T) :=
  foldM (pick_split_value sample_values)
        (replicate (Z.to_nat (size_sub cluster_count 1)) 0)
        (seqZ 0 (size_sub cluster_count 1)).

(** The [clusterer] lambda: the loop over [cluster_id], as a scan of the
    ids still to visit. *)
Fixpoint range_scan (split_values : list T) (value : T) (last : Z)
    (cluster_ids : list Z) : result Z :=
  match cluster_ids with
  | [] => Ok last
  | cluster_id :: rest =>
      match split_values !! Z.to_nat cluster_id with
      | None => Err (UndefinedBehaviour "split value index out of range")
      | Some s =>
          if value <=? s then Ok cluster_id
          else range_scan split_values value last rest
      end
  end.

Definition range_clusterer (cluster_count : Z) (split_values : list T) (value : T)
  : result Z :=
  range_scan split_values value (size_sub cluster_count 1)
             (seqZ 0 (size_sub cluster_count 1)).

(** The split values the two inputs lead to. *)
Definition range_split_values (cluster_count : Z)
    (input_left input_right : MaterializedColumnList) : result (list T) :=
  (* sample_values(_cluster_count - 1) *)
  _ ← allocate (size_sub cluster_count 1);
  let sample_values := replicate (Z.to_nat (size_sub cluster_count 1)) [] in
  sample_values ← _pick_sample_values cluster_count sample_values input_left;
  sample_values ← _pick_sample_values cluster_count sample_values input_right;
  (* split_values(_cluster_count - 1) *)
  _ ← allocate (size_sub cluster_count 1);
  pick_split_values cluster_count sample_values.

Definition _range_cluster (cluster_count : Z) (schedule_left schedule_right : list nat)
    (input_left input_right : MaterializedColumnList)
  : result (MaterializedColumnList * MaterializedColumnList) :=
  split_values ← range_split_values cluster_count input_left input_right;
  let clusterer := range_clusterer cluster_count split_values in
  output_left ← _cluster cluster_count schedule_left input_left clusterer;
  output_right ← _cluster cluster_count schedule_right input_right clusterer;
  Ok (output_left, output_right).

(** ** [_sort_clusters] *)
Definition _sort_clusters (clusters : MaterializedColumnList) : MaterializedColumnList :=
  sort_by_value <$> clusters.

(** ** [execute] *)

(** [_input_table->row_count()] *)
Definition table_row_count (table : option Table) : result Z :=
  match table with
  | None => Err (UndefinedBehaviour "null table dereferenced")
  | Some t => Ok (row_count t)
  end.

Definition execute (self : RadixClusterSort) (schedule_left schedule_right : list nat)
  : result (MaterializedColumnList * MaterializedColumnList) :=
  let sort := negb (_equi_case self) in
  chunks_left ← materialize sort (_input_table_left self) (_left_column_name self);
  chunks_right ← materialize sort (_input_table_right self) (_right_column_name self);
  outputs ←
    (if _cluster_count self =? 1 then
       Ok (_concatenate_chunks chunks_left, _concatenate_chunks chunks_right)
     else if _equi_case self then
       output_left ← _radix_cluster (_cluster_count self) schedule_left chunks_left;
       output_right ← _radix_cluster (_cluster_count self) schedule_right chunks_right;
       Ok (output_left, output_right)
     else
       _range_cluster (_cluster_count self) schedule_left schedule_right
                      chunks_left chunks_right);
  let _output_left := _sort_clusters outputs.1 in
  let _output_right := _sort_clusters outputs.2 in
  rows_left ← (if debug then table_row_count (_input_table_left self) else Ok 0);
  _ ← DebugAssert debug (_materialized_table_size _output_left =? rows_left)
        "left output has wrong size";
  rows_right ← (if debug then table_row_count (_input_table_right self) else Ok 0);
  _ ← DebugAssert debug (_materialized_table_size _output_right =? rows_right)
        "right output has wrong size";
  Ok (_output_left, _output_right).

End RadixClusterSort.

(** ** Notions the properties are stated with *)

(** The number of records of a materialized column list. *)
Definition total_size (l : MaterializedColumnList) : Z :=
  foldr (fun c n => Z.of_nat (length c) + n) 0 l.

(** Every record of every cluster is where [clusterer] sends its value. *)
Definition placed (clusterer : T -> result Z) (out : MaterializedColumnList) : Prop :=
  forall (c : nat) cluster r,
    out !! c = Some cluster -> r ∈ cluster -> clusterer (value r) = Ok (Z.of_nat c).

(** A histogram as [std::map] keeps it: keys strictly ascending. *)
Definition key_sorted (h : histogram) : Prop :=
  StronglySorted (fun a b : Z * Z => a.1 < b.1) h.

(** The sampled value with the highest count, the smaller value winning
    among equal counts: what the comments of [_range_cluster] ask a split
    value to be.  Written without reference to the order of the entries. *)
Definition more_common (a b : Z * Z) : bool :=
  (b.2 <? a.2) || ((a.2 =? b.2) && (a.1 <? b.1)).

Definition most_common_sample (h : histogram) : option (Z * Z) :=
  foldr (fun x best =>
           match best with
           | None => Some x
           | Some b => if more_common x b then Some x else Some b
           end) None h.

Definition most_common_value (h : histogram) : option T :=
  fst <$> most_common_sample h.

(** [x] has the highest count of [h], and the smallest value among the
    entries with that count. *)
Definition is_most_common (h : histogram) (x : Z * Z) : Prop :=
  x ∈ h /\ forall y, y ∈ h -> y.2 <= x.2 /\ (y.2 = x.2 -> x.1 <= y.1).

(** A chunk the sampling can read: not empty, and of a size a [size_t]
    holds. *)
Definition samplable (chunk : list MaterializedValue) : Prop :=
  1 <= Z.of_nat (length chunk) <= SIZE_MAX.

End radix_cluster_sort.

(* ===================================================================== *)
(** * [ColumnStatistics<ColumnType>], for a signed integer [ColumnType] *)
(* ===================================================================== *)

Module column_statistics.

(** [ScanType] ([types.hpp] is not part of the sources at hand): the seven
    operators the switches name, and [OpLike] for the ones they leave to
    [default]. *)
Inductive ScanType : Type :=
  | OpEquals | OpNotEquals
  | OpLessThan | OpLessThanEquals
  | OpGreaterThan | OpGreaterThanEquals
  | OpBetween | OpLike.

Definition is_OpLessThan (s : ScanType) : bool :=
  match s with OpLessThan => true | _ => false end.
Definition is_OpGreaterThan (s : ScanType) : bool :=
  match s with OpGreaterThan => true | _ => false end.

Definition int_type_eqb (a b : int_type) : bool :=
  match a, b with
  | Int32, Int32 | Int64, Int64 => true
  | _, _ => false
  end.

(** The operators the lazy statistics are delegated to.  None of them is
    part of the sources at hand, so they are taken as given: the table
    type, [Table::column_name], [TableWrapper::execute] on what [lock()]
    gave, and the output of the [Aggregate] operator (its row count when
    grouping by one column; the minimum and maximum of one column). *)
(** [ColumnType = int32_t] or [ColumnType = int64_t]. *)
Abbreviation ColumnType := Z (only parsing).

Class Operators : Type := {
  Table : Type;
  column_name : Table -> nat -> string;
  table_wrapper_execute : option Table -> result unit;
  aggregate_row_count : Table -> string -> result Z;
  aggregate_min_max : Table -> string -> result (Z * Z)
}.

(** Modelled from the spec: [TableWrapper::execute], which is missing from
    the sources.  The spec's taxonomy of errors has "ConfigurationError:
    invalid cluster_count, null input, unknown column name": an operator
    whose input is null fails with a [ConfigurationError]; one that has its
    table executes. *)
Definition table_wrapper_per_spec {Table : Type} (table : option Table) : result unit :=
  match table with
  | None => Err (ConfigurationError "null input")
  | Some _ => Ok tt
  end.

Section ColumnStatistics.
Context {F : Float32} {O : Operators}.

(** Which of the two integer types [ColumnType] is
    ([std::is_integral<ColumnType>::value] holds). *)
Variable ty : int_type.
(** Whether [DebugAssert] is compiled in. *)
Variable debug : bool.

Record ColumnStatistics : Type := {
  _column_id : nat;
  _table : option Table;          (** what [_table.lock()] gives: [None]
                                      when the table is gone *)
  _distinct_count : option f32;
  _min : option ColumnType;
  _max : option ColumnType
}.

(** The two constructors. *)
Definition of_table (column_id : nat) (table : option Table) : ColumnStatistics :=
  {| _column_id := column_id; _table := table;
     _distinct_count := None; _min := None; _max := None |}.

Definition of_values (column_id : nat) (distinct_count : f32)
    (min max : ColumnType) : ColumnStatistics :=
  {| _column_id := column_id; _table := None;
     _distinct_count := Some distinct_count; _min := Some min; _max := Some max |}.

(** Methods read and fill the caches of the object: a state monad over
    [result]. *)
Definition M (S A : Type) : Type := S -> result (A * S).

Definition ret {S A} (a : A) : M S A := fun s => Ok (a, s).
Definition bind {S A B} (m : M S A) (f : A -> M S B) : M S B :=
  fun s => match m s with
           | Ok (a, s') => f a s'
           | Err e => Err e
           end.
Definition lift {S A} (r : result A) : M S A :=
  fun s => match r with Ok a => Ok (a, s) | Err e => Err e end.
Definition gets {S A} (f : S -> A) : M S A := fun s => Ok (f s, s).

Notation "'do' x <- m ; k" := (bind m (fun x => k))
  (at level 10, x name, m at level 100, k at level 200, only parsing).

(** [a || b], with [b] evaluated only when [a] is false. *)
Definition orM {S} (a b : M S bool) : M S bool :=
  do x <- a; if x then ret true else b.

(** ** [update_distinct_count], [update_min_max] *)

Definition update_distinct_count : M ColumnStatistics unit := fun self =>
  let table := _table self in
  _ ← table_wrapper_execute table;
  match table with
  | None => Err (UndefinedBehaviour "null table dereferenced")
  | Some t =>
      rows ← aggregate_row_count t (column_name t (_column_id self));
      Ok (tt, {| _column_id := _column_id self; _table := _table self;
                 _distinct_count := Some (of_Z rows);
                 _min := _min self; _max := _max self |})
  end.

Definition update_min_max : M ColumnStatistics unit := fun self =>
  let table := _table self in
  _ ← table_wrapper_execute table;
  match table with
  | None => Err (UndefinedBehaviour "null table dereferenced")
  | Some t =>
      mm ← aggregate_min_max t (column_name t (_column_id self));
      Ok (tt, {| _column_id := _column_id self; _table := _table self;
                 _distinct_count := _distinct_count self;
                 _min := Some mm.1; _max := Some mm.2 |})
  end.

(** Reading an [optional]: [*o]. *)
Definition deref {S A} (o : option A) : M S A :=
  match o with
  | Some a => ret a
  | None => lift (Err (UndefinedBehaviour "empty optional dereferenced"))
  end.

(** ** [distinct_count], [min], [max] *)

Definition distinct_count : M ColumnStatistics f32 :=
  do cached <- gets _distinct_count;
  do _ <- (if cached is Some _ then ret tt else update_distinct_count);
  do now <- gets _distinct_count;
  deref now.

Definition min : M ColumnStatistics ColumnType :=
  do cached <- gets _min;
  do _ <- (if cached is Some _ then ret tt else update_min_max);
  do now <- gets _min;
  deref now.

Definition max : M ColumnStatistics ColumnType :=
  do cached <- gets _max;
  do _ <- (if cached is Some _ then ret tt else update_min_max);
  do now <- gets _max;
  deref now.

(** ** Containers *)

Record ColumnStatisticsContainer : Type := {
  selectivity : f32;
  column_statistics : option ColumnStatistics   (** [None] is [nullptr] *)
}.

Record TwoColumnStatisticsContainer : Type := {
  selectivity2 : f32;
  column_statistics2 : option ColumnStatistics;
  second_column_statistics : option ColumnStatistics
}.

Definition container (s : f32) (c : option ColumnStatistics)
  : ColumnStatisticsContainer :=
  {| selectivity := s; column_statistics := c |}.

(** [max() - min() + 1], converted to [float]. *)
Definition range_width : M ColumnStatistics f32 :=
  do hi <- max;
  do lo <- min;
  do w <- lift (int_sub ty hi lo);
  do w1 <- lift (int_add ty w 1);
  ret (of_Z w1).

(** ** [predicate_selectivity(scan_type, value, value2)]: constants

    [casted_value] and [casted_value2] are the results of
    [type_cast<ColumnType>] ([type_cast.hpp] is not part of the sources at
    hand). *)

(** [case ScanType::OpLessThanEquals], which [OpLessThan] falls through to
    for a floating-point [ColumnType] only. *)
Definition less_than_equals_case (scan_type : ScanType) (casted_value : ColumnType)
  : M ColumnStatistics ColumnStatisticsContainer :=
  do below <- orM (do lo <- min; ret (casted_value <? lo))
                  (if is_OpLessThan scan_type
                   then do lo <- min; ret (casted_value <=? lo)
                   else ret false);
  if below then ret (container fzero None)
  else
    do hi <- max;
    if casted_value >=? hi then ret (container fone None)
    else
      do lo <- min;
      do n <- lift (int_sub ty casted_value lo);
      do n1 <- lift (int_add ty n 1);
      do w <- range_width;
      let selectivity := fdiv (of_Z n1) w in
      do id <- gets _column_id;
      do d <- distinct_count;
      do lo <- min;
      ret (container selectivity
             (Some (of_values id (fmul selectivity d) lo casted_value))).

Definition greater_than_equals_case (scan_type : ScanType) (casted_value : ColumnType)
  : M ColumnStatistics ColumnStatisticsContainer :=
  do above <- orM (do hi <- max; ret (casted_value >? hi))
                  (if is_OpGreaterThan scan_type
                   then do hi <- max; ret (casted_value >=? hi)
                   else ret false);
  if above then ret (container fzero None)
  else
    do lo <- min;
    if casted_value <=? lo then ret (container fone None)
    else
      do hi <- max;
      do n <- lift (int_sub ty hi casted_value);
      do n1 <- lift (int_add ty n 1);
      do w <- range_width;
      let selectivity := fdiv (of_Z n1) w in
      do id <- gets _column_id;
      do d <- distinct_count;
      do hi <- max;
      ret (container selectivity
             (Some (of_values id (fmul selectivity d) casted_value hi))).

Definition predicate_selectivity (scan_type : ScanType) (casted_value : ColumnType)
    (casted_value2 : option ColumnType)
  : M ColumnStatistics ColumnStatisticsContainer :=
  match scan_type with
  | OpEquals =>
      do outside <- orM (do lo <- min; ret (casted_value <? lo))
                        (do hi <- max; ret (casted_value >? hi));
      if outside then ret (container fzero None)
      else
        do id <- gets _column_id;
        let column_statistics := of_values id (of_Z 1) casted_value casted_value in
        do d <- distinct_count;
        ret (container (fdiv fone d) (Some column_statistics))
  | OpNotEquals =>
      do outside <- orM (do lo <- min; ret (casted_value <? lo))
                        (do hi <- max; ret (casted_value >? hi));
      if outside then ret (container fone None)
      else
        do id <- gets _column_id;
        do d <- distinct_count;
        do lo <- min;
        do hi <- max;
        let column_statistics := of_values id (fsub d (of_Z 1)) lo hi in
        do d <- distinct_count;
        do d' <- distinct_count;
        ret (container (fdiv (fsub d (of_Z 1)) d') (Some column_statistics))
  | OpLessThan =>
      (* std::is_integral<ColumnType>::value *)
      do lo <- min;
      if casted_value <=? lo then ret (container fzero None)
      else
        do lo <- min;
        do n <- lift (int_sub ty casted_value lo);
        do w <- range_width;
        let selectivity := fdiv (of_Z n) w in
        do id <- gets _column_id;
        do d <- distinct_count;
        do lo <- min;
        do v1 <- lift (int_sub ty casted_value 1);
        ret (container selectivity
               (Some (of_values id (fmul selectivity d) lo v1)))
  | OpLessThanEquals => less_than_equals_case scan_type casted_value
  | OpGreaterThan =>
      (* std::is_integral<ColumnType>::value *)
      do hi <- max;
      if casted_value >=? hi then ret (container fzero None)
      else
        do hi <- max;
        do n <- lift (int_sub ty hi casted_value);
        do w <- range_width;
        let selectivity := fdiv (of_Z n) w in
        do id <- gets _column_id;
        do d <- distinct_count;
        do v1 <- lift (int_add ty casted_value 1);
        do hi <- max;
        ret (container selectivity
               (Some (of_values id (fmul selectivity d) v1 hi)))
  | OpGreaterThanEquals => greater_than_equals_case scan_type casted_value
  | OpBetween =>
      match casted_value2 with
      | None =>
          lift (Err (LogicError
                       "operator BETWEEN should get two parameters, second is missing!"))
      | Some casted_value2 =>
          do empty <- orM (ret (casted_value >? casted_value2))
                       (orM (do hi <- max; ret (casted_value >? hi))
                            (do lo <- min; ret (casted_value2 <? lo)));
          if empty then ret (container fzero None)
          else
            do lo <- min;
            let casted_value := Z.max casted_value lo in
            do hi <- max;
            let casted_value2 := Z.min casted_value2 hi in
            do n <- lift (int_sub ty casted_value2 casted_value);
            do n1 <- lift (int_add ty n 1);
            do w <- range_width;
            let selectivity := fdiv (of_Z n1) w in
            do id <- gets _column_id;
            do d <- distinct_count;
            ret (container selectivity
                   (Some (of_values id (fmul selectivity d)
                                    casted_value casted_value2)))
      end
  | OpLike => ret (container fone None)
  end.

(** ** [predicate_selectivity(scan_type, abstract_value_column_statistics,
    value2)]: two columns *)

(** What a [shared_ptr<AbstractColumnStatistics>] points to: statistics of
    an integer column, or of a column of one of the other types
    ([float], [double], [std::string]), whose contents play no role
    here. *)
Inductive AbstractColumnStatistics : Type :=
  | IntegerColumnStatistics (t : int_type) (s : ColumnStatistics)
  | OtherColumnStatistics.

(** [std::dynamic_pointer_cast<ColumnStatistics<ColumnType>>]: null unless
    the object is a [ColumnStatistics<ColumnType>]. *)
Definition dynamic_pointer_cast (a : AbstractColumnStatistics)
  : option ColumnStatistics :=
  match a with
  | IntegerColumnStatistics t s => if int_type_eqb t ty then Some s else None
  | OtherColumnStatistics => None
  end.

(** The state is the receiver and the argument object. *)
Definition on_this {A} (m : M ColumnStatistics A)
  : M (ColumnStatistics * ColumnStatistics) A :=
  fun s => match m s.1 with
           | Ok (a, s') => Ok (a, (s', s.2))
           | Err e => Err e
           end.
Definition on_value {A} (m : M ColumnStatistics A)
  : M (ColumnStatistics * ColumnStatistics) A :=
  fun s => match m s.2 with
           | Ok (a, s') => Ok (a, (s.1, s'))
           | Err e => Err e
           end.

Definition two_column_body (scan_type : ScanType)
  : M (ColumnStatistics * ColumnStatistics) TwoColumnStatisticsContainer :=
  do lo <- on_this min;
  do vlo <- on_value min;
  let common_min := Z.max lo vlo in
  do hi <- on_this max;
  do vhi <- on_value max;
  let common_max := Z.min hi vhi in
  match scan_type with
  | OpEquals =>
      if common_min >? common_max then
        ret {| selectivity2 := fzero; column_statistics2 := None;
               second_column_statistics := None |}
      else
        do n <- lift (int_sub ty common_max common_min);
        do n1 <- lift (int_add ty n 1);
        do w <- on_this range_width;
        let overlapping_ratio_this := fdiv (of_Z n1) w in
        do vw <- on_value range_width;
        let overlapping_ratio_value := fdiv (of_Z n1) vw in
        do d <- on_this distinct_count;
        let overlapping_distinct_count_this := fmul overlapping_ratio_this d in
        do vd <- on_value distinct_count;
        let overlapping_distinct_count_value := fmul overlapping_ratio_value vd in
        let overlapping_distinct_count :=
          fmin overlapping_distinct_count_this overlapping_distinct_count_value in
        do vd <- on_value distinct_count;
        do d <- on_this distinct_count;
        let probability_hit_value := fdiv vd d in
        do id <- on_this (gets _column_id);
        do vid <- on_value (gets _column_id);
        ret {| selectivity2 := fmul overlapping_distinct_count probability_hit_value;
               column_statistics2 :=
                 Some (of_values id overlapping_distinct_count common_min common_max);
               second_column_statistics :=
                 Some (of_values vid overlapping_distinct_count common_min common_max) |}
  | _ =>
      ret {| selectivity2 := fone; column_statistics2 := None;
             second_column_statistics := None |}
  end.

(** The result carries the receiver as the call leaves it. *)
Definition predicate_selectivity_columns (scan_type : ScanType)
    (abstract_value_column_statistics : AbstractColumnStatistics)
  : M ColumnStatistics TwoColumnStatisticsContainer := fun self =>
  let value_column_statistics :=
    dynamic_pointer_cast abstract_value_column_statistics in
  _ ← DebugAssert debug (negb (radix_cluster_sort.is_some value_column_statistics))
        "Cannot compare columns of different type";
  match value_column_statistics with
  | None => Err (UndefinedBehaviour "null column statistics dereferenced")
  | Some value =>
      match two_column_body scan_type (self, value) with
      | Ok (c, s) => Ok (c, s.1)
      | Err e => Err e
      end
  end.

(** ** [predicate_selectivity(scan_type, ValuePlaceholder, value2)]:
    prepared statements *)
Definition predicate_selectivity_placeholder (scan_type : ScanType)
  : M ColumnStatistics ColumnStatisticsContainer :=
  match scan_type with
  | OpEquals =>
      do id <- gets _column_id;
      do lo <- min;
      do hi <- max;
      let column_statistics := of_values id (of_Z 1) lo hi in
      do d <- distinct_count;
      ret (container (fdiv fone d) (Some column_statistics))
  | OpNotEquals =>
      do id <- gets _column_id;
      do d <- distinct_count;
      do lo <- min;
      do hi <- max;
      let column_statistics := of_values id (fsub d (of_Z 1)) lo hi in
      do d <- distinct_count;
      do d' <- distinct_count;
      ret (container (fdiv (fsub d fone) d') (Some column_statistics))
  | _ => ret (container fone None)
  end.

(** ** Notions the properties are stated with *)

(** What a lazy statistic ends in when its cache is empty and the table
    is gone. *)
Definition without_table {A} : result A :=
  match table_wrapper_execute None with
  | Ok _ => Err (UndefinedBehaviour "null table dereferenced")
  | Err e => Err e
  end.

(** [0 <= x <= 1] *)
Definition unit_interval (x : f32) : Prop :=
  fleb fzero x = true /\ fleb x fone = true.

(** The product the two-column equality estimate returns for cached
    statistics [(d, lo, hi)] of the receiver and [(vd, vlo, vhi)] of the
    argument. *)
Definition two_column_equals_estimate (d vd : f32) (lo hi vlo vhi : Z) : f32 :=
  let common_min := Z.max lo vlo in
  let common_max := Z.min hi vhi in
  let n := common_max - common_min + 1 in
  let overlapping_distinct_count :=
    fmin (fmul (fdiv (of_Z n) (of_Z (hi - lo + 1))) d)
         (fmul (fdiv (of_Z n) (of_Z (vhi - vlo + 1))) vd) in
  fmul overlapping_distinct_count (fdiv vd d).

(** ** Notions the cache properties are stated with *)

(** [min] and [max] are cached together. *)
Definition min_max_paired (s : ColumnStatistics) : Prop :=
  is_Some (_min s) <-> is_Some (_max s).

(** [s'] is [s] with more of its statistics cached. *)
Definition caches_extend (s s' : ColumnStatistics) : Prop :=
  _column_id s' = _column_id s /\ _table s' = _table s
  /\ (forall x, _distinct_count s = Some x -> _distinct_count s' = Some x)
  /\ (forall x, _min s = Some x -> _min s' = Some x)
  /\ (forall x, _max s = Some x -> _max s' = Some x).

(** A method that only fills caches. *)
Definition fills_caches {A} (m : M ColumnStatistics A) : Prop :=
  forall s a s', min_max_paired s -> m s = Ok (a, s') ->
                 min_max_paired s' /\ caches_extend s s'.

(** ** Statistics an object has: cached, or to be had from its table *)

Definition holds_distinct_count (self : ColumnStatistics) (d : f32) : Prop :=
  match _distinct_count self with
  | Some cached => cached = d
  | None =>
      exists t rows,
        _table self = Some t
        /\ table_wrapper_execute (Some t) = Ok tt
        /\ aggregate_row_count t (column_name t (_column_id self)) = Ok rows
        /\ d = of_Z rows
  end.

Definition holds_min_max (self : ColumnStatistics) (lo hi : Z) : Prop :=
  match _min self, _max self with
  | Some cached_min, Some cached_max => cached_min = lo /\ cached_max = hi
  | None, None =>
      exists t,
        _table self = Some t
        /\ table_wrapper_execute (Some t) = Ok tt
        /\ aggregate_min_max t (column_name t (_column_id self)) = Ok (lo, hi)
  | _, _ => False
  end.

(** [self] is a column with [distinct_count = d], [min = lo], [max = hi]. *)
Definition has_statistics (self : ColumnStatistics) (d : f32) (lo hi : Z) : Prop :=
  holds_distinct_count self d /\ holds_min_max self lo hi.

(** [m], run on a column with the statistics [(d, lo, hi)], does what it
    does on the object [of_values id d lo hi]: the same result or the same
    error; the object comes back with more of its statistics cached. *)
Definition as_on_cached {A} (id : nat) (d : f32) (lo hi : Z)
    (m : M ColumnStatistics A) : Prop :=
  forall s, _column_id s = id -> has_statistics s d lo hi ->
    match m (of_values id d lo hi) with
    | Ok (a, cached) =>
        cached = of_values id d lo hi
        /\ exists s', m s = Ok (a, s') /\ _column_id s' = id
                      /\ has_statistics s' d lo hi /\ caches_extend s s'
    | Err e => m s = Err e
    end.

(** The same for a method of the receiver that also reads an argument
    object, a column with the statistics [(vd, vlo, vhi)]. *)
Definition as_on_cached_pair {A} (id : nat) (d : f32) (lo hi : Z)
    (vid : nat) (vd : f32) (vlo vhi : Z)
    (m : M (ColumnStatistics * ColumnStatistics) A) : Prop :=
  forall s v,
    _column_id s = id -> has_statistics s d lo hi ->
    _column_id v = vid -> has_statistics v vd vlo vhi ->
    match m (of_values id d lo hi, of_values vid vd vlo vhi) with
    | Ok (a, cached) =>
        cached = (of_values id d lo hi, of_values vid vd vlo vhi)
        /\ exists s' v',
             m (s, v) = Ok (a, (s', v'))
             /\ _column_id s' = id /\ has_statistics s' d lo hi /\ caches_extend s s'
             /\ _column_id v' = vid /\ has_statistics v' vd vlo vhi
    | Err e => m (s, v) = Err e
    end.

End ColumnStatistics.
End column_statistics.

(* ===================================================================== *)
(** * Concrete inputs *)
(* ===================================================================== *)

Module inputs.
Import radix_cluster_sort column_statistics.

Definition record (v : Z) (offset : nat) : MaterializedValue :=
  {| value := v; row_id := {| chunk_id := 0; chunk_offset := offset |} |}.

(** One sorted chunk holding 10, 20, 30, 40. *)
Definition chunk_10_40 : list MaterializedValue :=
  [record 10 0; record 20 1; record 30 2; record 40 3].

(** A table with the single column ["a"]. *)
Definition single_column (chunks : list (list Z)) : radix_cluster_sort.Table :=
  {| column_names := ["a"]; chunks := map (map (fun v (_ : nat) => v)) chunks |}.

Definition join (equi_case : bool) (cluster_count : Z)
    (left right : list (list Z)) : RadixClusterSort :=
  {| _input_table_left := Some (single_column left);
     _input_table_right := Some (single_column right);
     _left_column_name := "a"; _right_column_name := "a";
     _equi_case := equi_case; _cluster_count := cluster_count |}.

(** A machine that has room for vectors of up to [2 ^ 32] elements. *)
Definition roomy : Allocator := {|
  allocates := fun n => (0 <=? n) && (n <=? 2 ^ 32)
|}.

(** Operators that are never reached by statistics built from values. *)
Definition no_operators : Operators := {|
  Table := unit;
  column_name := fun _ _ => "";
  table_wrapper_execute := fun _ => Ok tt;
  aggregate_row_count := fun _ _ => Ok 0;
  aggregate_min_max := fun _ _ => Ok (0, 0)
|}.

(** Operators on a table whose one column has 5 distinct values, the
    smallest 10 and the largest 20; [TableWrapper] as the spec has it. *)
Definition table_10_20 : Operators := {|
  Table := unit;
  column_name := fun _ _ => "a";
  table_wrapper_execute := table_wrapper_per_spec;
  aggregate_row_count := fun _ _ => Ok 5;
  aggregate_min_max := fun _ _ => Ok (10, 20)
|}.

(** Operators on a table whose one column has 5 distinct values, the
    smallest 0 and the largest [INT32_MAX]. *)
Definition table_full_range : Operators := {|
  Table := unit;
  column_name := fun _ _ => "a";
  table_wrapper_execute := table_wrapper_per_spec;
  aggregate_row_count := fun _ _ => Ok 5;
  aggregate_min_max := fun _ _ => Ok (0, 2147483647)
|}.
End inputs.

(* ===================================================================== *)
(** * Properties of the loops *)
(* ===================================================================== *)

Section FoldM.
Context {A B : Type}.
Implicit Types (f : A -> B -> result A) (l : list B).

Lemma foldM_app f a l1 l2 :
  foldM f a (l1 ++ l2) = a' ← foldM f a l1; foldM f a' l2.
Proof.
  revert a. induction l1 as [|b l1 IH]; intros a; simpl; [done|].
  destruct (f a b) as [a'|e]; simpl; [apply IH|done].
Qed.

(** An invariant of the step is an invariant of the loop. *)
Lemma foldM_invariant (P : A -> Prop) f l a a' :
  (forall x b y, P x -> f x b = Ok y -> P y) ->
  P a -> foldM f a l = Ok a' -> P a'.
Proof.
  intros Hstep. revert a. induction l as [|b l IH]; intros a Ha; simpl.
  - intros [= <-]. done.
  - destruct (f a b) as [y|e] eqn:Hf; simpl; [|done].
    apply IH. by eapply Hstep.
Qed.

(** A loop whose steps all succeed succeeds. *)
Lemma foldM_total (P : A -> Prop) f l a :
  (forall x b, P x -> exists y, f x b = Ok y /\ P y) ->
  P a -> exists a', foldM f a l = Ok a' /\ P a'.
Proof.
  intros Hstep. revert a. induction l as [|b l IH]; intros a Ha; simpl.
  - eauto.
  - destruct (Hstep a b Ha) as (y & -> & Hy). simpl. by apply IH.
Qed.

(** A step that fails whatever the state makes the loop fail. *)
Lemma foldM_fails f l1 b l2 a :
  (forall x, exists e, f x b = Err e) ->
  exists e, foldM f a (l1 ++ b :: l2) = Err e.
Proof.
  intros Hb. rewrite foldM_app.
  destruct (foldM f a l1) as [a'|e]; simpl; [|eauto].
  destruct (Hb a') as [e ->]. simpl. eauto.
Qed.
End FoldM.

(* ===================================================================== *)
(** * Clustering keeps every record *)
(* ===================================================================== *)

Section ClusterSizes.
Import radix_cluster_sort.
Context {Mem : Allocator}.

Lemma total_size_cons c l : total_size (c :: l) = Z.of_nat (length c) + total_size l.
Proof. reflexivity. Qed.

Lemma materialized_table_size_total l : _materialized_table_size l = total_size l.
Proof.
  unfold _materialized_table_size.
  enough (forall n, foldl (fun t (c : list MaterializedValue) => t + Z.of_nat (length c)) n l
                    = n + total_size l) as H by (rewrite H; lia).
  induction l as [|c l IH]; intros n; simpl; [lia|]. rewrite IH. lia.
Qed.

Lemma total_size_insert (l : list (list MaterializedValue)) i c c' :
  l !! i = Some c ->
  total_size (<[i := c']> l) = total_size l - Z.of_nat (length c) + Z.of_nat (length c').
Proof.
  revert i. induction l as [|x l IH]; intros [|i] Hi; try done.
  - simpl in Hi. injection Hi as <-. change (<[0%nat:=c']> (x :: l)) with (c' :: l).
    rewrite !total_size_cons. lia.
  - change (<[S i:=c']> (x :: l)) with (x :: <[i:=c']> l).
    rewrite !total_size_cons, (IH i Hi). lia.
Qed.

Lemma total_size_replicate n : total_size (replicate n []) = 0.
Proof. induction n; simpl; lia. Qed.

Variable clusterer : Z -> result Z.

Lemma push_entry_size out e out' :
  push_entry clusterer out e = Ok out' ->
  total_size out' = total_size out + 1 /\ length out' = length out.
Proof.
  unfold push_entry. destruct (clusterer (value e)) as [cid|]; simpl; [|done].
  destruct (out !! Z.to_nat cid) as [c|] eqn:Hc; [|done].
  intros [= <-]. rewrite (total_size_insert _ _ _ _ Hc), length_insert, length_app.
  simpl. lia.
Qed.

Lemma push_entries_size entries out out' :
  foldM (push_entry clusterer) out entries = Ok out' ->
  total_size out' = total_size out + Z.of_nat (length entries)
  /\ length out' = length out.
Proof.
  revert out. induction entries as [|e entries IH]; intros out; simpl.
  - intros [= <-]. lia.
  - destruct (push_entry clusterer out e) as [o|] eqn:Hp; simpl; [|done].
    intros H. apply IH in H. apply push_entry_size in Hp. lia.
Qed.

Lemma wait_for_tasks_size st out :
  wait_for_tasks clusterer st = Ok out ->
  total_size out = total_size (output_table st) + total_size (pending st)
  /\ length out = length (output_table st).
Proof.
  unfold wait_for_tasks. generalize (output_table st) as o.
  induction (pending st) as [|job jobs IH]; intros o; simpl.
  - intros [= <-]. lia.
  - destruct (foldM (push_entry clusterer) o job) as [o'|] eqn:Hj; simpl; [|done].
    intros H. apply IH in H. apply push_entries_size in Hj. lia.
Qed.

(** One scheduling step moves one record from a job to a cluster. *)
Lemma job_step_size st job st' :
  job_step clusterer st job = Ok st' ->
  total_size (output_table st') + total_size (pending st')
  = total_size (output_table st) + total_size (pending st)
  /\ length (output_table st') = length (output_table st).
Proof.
  unfold job_step. destruct (pending st !! job) as [[|e rest]|] eqn:Hj;
    try (intros [= <-]; done).
  destruct (push_entry clusterer (output_table st) e) as [o|] eqn:Hp; simpl; [|done].
  intros [= <-]. simpl. apply push_entry_size in Hp.
  rewrite (total_size_insert _ _ _ _ Hj). simpl. lia.
Qed.

(** Whatever the schedule, [_cluster] hands out [cluster_count] clusters
    that hold as many records as the input. *)
Lemma cluster_size k schedule input out :
  _cluster k schedule input clusterer = Ok out ->
  total_size out = total_size input /\ length out = Z.to_nat k.
Proof.
  unfold _cluster, allocate. destruct (allocates k); simpl; [|done].
  destruct (foldM _ _ schedule) as [st|] eqn:Hrun; simpl; [|done].
  intros Hw. apply wait_for_tasks_size in Hw.
  eapply (foldM_invariant
            (fun st => total_size (output_table st) + total_size (pending st)
                       = total_size input
                       /\ length (output_table st) = Z.to_nat k)) in Hrun.
  - lia.
  - intros x b y [H1 H2] Hs. apply job_step_size in Hs. lia.
  - simpl. rewrite total_size_replicate, length_replicate. lia.
Qed.
End ClusterSizes.

Section ExecuteSizes.
Import radix_cluster_sort.
Context {F : Float32} {Mem : Allocator}.

Lemma insert_by_value_length x l : length (insert_by_value x l) = S (length l).
Proof.
  induction l as [|y l IH]; simpl; [done|].
  destruct (value x <? value y); simpl; congruence.
Qed.

Lemma sort_by_value_length l : length (sort_by_value l) = length l.
Proof.
  induction l as [|x l IH]; simpl; [done|].
  unfold sort_by_value in *. simpl. rewrite insert_by_value_length. congruence.
Qed.

Lemma sort_clusters_size l : total_size (_sort_clusters l) = total_size l.
Proof.
  unfold _sort_clusters. induction l as [|c l IH]; [done|].
  rewrite fmap_cons, !total_size_cons, sort_by_value_length, IH. done.
Qed.

Lemma concatenate_chunks_size l : total_size (_concatenate_chunks l) = total_size l.
Proof.
  unfold _concatenate_chunks.
  enough (forall acc : list MaterializedValue,
             Z.of_nat (length (foldl (fun o c => o ++ c) acc l))
             = Z.of_nat (length acc) + total_size l) as H.
  { rewrite total_size_cons, H. simpl. lia. }
  induction l as [|c l IH]; intros acc; simpl; [lia|].
  rewrite IH, length_app. lia.
Qed.

Lemma total_size_imap {A} (f : nat -> list A -> list MaterializedValue) (l : list (list A)) :
  (forall i c, length (f i c) = length c) ->
  total_size (imap f l) = foldr (fun c n => Z.of_nat (length c) + n) 0 l.
Proof.
  revert f. induction l as [|c l IH]; intros f Hf; [done|].
  rewrite imap_cons, total_size_cons, Hf, IH; [done|].
  intros i c'. apply Hf.
Qed.

(** The materializer emits one record per row. *)
Lemma materialize_size sort table column chunks :
  materialize sort table column = Ok chunks ->
  table_row_count table = Ok (total_size chunks).
Proof.
  unfold materialize, table_row_count. destruct table as [t|]; [|done].
  destruct (column_id_by_name column (column_names t)) as [c|]; [|done].
  intros [= <-]. f_equal. unfold row_count. symmetry. apply total_size_imap.
  intros i ch. destruct sort; rewrite ?sort_by_value_length, length_imap; done.
Qed.

Lemma materialize_returns sort t column c :
  column_id_by_name column (column_names t) = Some c ->
  exists chunks, materialize sort (Some t) column = Ok chunks.
Proof. intros H. unfold materialize. rewrite H. eauto. Qed.

Lemma range_cluster_size ty k sl sr (il ir ol or : list (list MaterializedValue)) :
  _range_cluster ty k sl sr il ir = Ok (ol, or) ->
  total_size ol = total_size il /\ total_size or = total_size ir.
Proof.
  unfold _range_cluster.
  destruct (range_split_values ty k il ir) as [sp|]; simpl; [|done].
  destruct (_cluster k sl il _) as [l|] eqn:Hl; simpl; [|done].
  destruct (_cluster k sr ir _) as [r|] eqn:Hr; simpl; [|done].
  intros [= <- <-]. apply cluster_size in Hl, Hr. lia.
Qed.

(** The three paths of [execute], before the clusters are sorted. *)
Lemma clustered_size ty (k : Z) (equi : bool) sl sr
    (cl cr ol or : list (list MaterializedValue)) :
  (if k =? 1 then Ok (_concatenate_chunks cl, _concatenate_chunks cr)
   else if equi then
     output_left ← _radix_cluster k sl cl;
     output_right ← _radix_cluster k sr cr;
     Ok (output_left, output_right)
   else _range_cluster ty k sl sr cl cr) = Ok (ol, or) ->
  total_size ol = total_size cl /\ total_size or = total_size cr.
Proof.
  destruct (k =? 1).
  - intros [= <- <-]. by rewrite !concatenate_chunks_size.
  - destruct equi.
    + unfold _radix_cluster.
      destruct (_cluster _ sl cl _) as [l|] eqn:H1; simpl; [|done].
      destruct (_cluster _ sr cr _) as [r|] eqn:H2; simpl; [|done].
      intros [= <- <-]. apply cluster_size in H1, H2. lia.
    + apply range_cluster_size.
Qed.

(** What [execute] hands out has as many records as its inputs have
    rows. *)
Lemma execute_sizes ty debug self sl sr out_left out_right :
  execute ty debug self sl sr = Ok (out_left, out_right) ->
  table_row_count (_input_table_left self) = Ok (_materialized_table_size out_left)
  /\ table_row_count (_input_table_right self) = Ok (_materialized_table_size out_right).
Proof.
  unfold execute.
  destruct (materialize _ (_input_table_left self) _) as [cl|] eqn:Hl; simpl; [|done].
  destruct (materialize _ (_input_table_right self) _) as [cr|] eqn:Hr; simpl; [|done].
  apply materialize_size in Hl, Hr. rewrite Hl, Hr.
  match goal with |- context [mbind _ ?m] => destruct m as [[ol or]|] eqn:Hout end;
    simpl; [|done].
  apply clustered_size in Hout as [Hol Hor].
  intros H.
  assert (out_left = _sort_clusters ol /\ out_right = _sort_clusters or) as [-> ->].
  { destruct debug; simpl in H;
      repeat match type of H with
             | context [if ?b then _ else _] => destruct b; simpl in H
             end; try done; by injection H as <- <-. }
  rewrite !materialized_table_size_total, !sort_clusters_size, Hol, Hor. done.
Qed.

(** The two size assertions never fire: a debug build returns what the
    release build returns. *)
Lemma execute_assertions_hold ty self sl sr :
  execute ty true self sl sr = execute ty false self sl sr.
Proof.
  unfold execute.
  destruct (materialize _ (_input_table_left self) _) as [cl|] eqn:Hl; simpl; [|done].
  destruct (materialize _ (_input_table_right self) _) as [cr|] eqn:Hr; simpl; [|done].
  apply materialize_size in Hl, Hr. rewrite Hl, Hr.
  match goal with |- context [mbind _ ?m] => destruct m as [[ol or]|] eqn:Hout end;
    simpl; [|done].
  apply clustered_size in Hout as [Hol Hor].
  rewrite !materialized_table_size_total, !sort_clusters_size, Hol, Hor.
  rewrite !Z.eqb_refl. done.
Qed.
End ExecuteSizes.

(* ===================================================================== *)
(** * Radix clustering *)
(* ===================================================================== *)

Section Bits.
Import radix_cluster_sort.

Lemma land_le_r a b : 0 <= b -> Z.land a b <= b.
Proof.
  intros Hb.
  assert (Z.ldiff (Z.land a b) b = 0) as Hd.
  { apply Z.bits_inj'. intros n Hn.
    rewrite Z.ldiff_spec, Z.land_spec, Z.bits_0.
    by destruct (Z.testbit a n), (Z.testbit b n). }
  pose proof (Z.sub_nocarry_ldiff b (Z.land a b) Hd) as Hsub.
  assert (0 <= Z.ldiff b (Z.land a b)) by (apply Z.ldiff_nonneg; lia).
  lia.
Qed.

Lemma land_mod_pow2_r a m n :
  0 <= n -> 0 <= a < 2 ^ n -> Z.land a (m mod 2 ^ n) = Z.land a m.
Proof.
  intros Hn Ha. rewrite <- (Z.land_ones m n Hn).
  rewrite (Z.land_comm m), Z.land_assoc, Z.land_ones by done.
  rewrite (Z.mod_small a) by done. done.
Qed.

(** The radix clusterer is the value, as 32-bit unsigned, under the mask
    [cluster_count - 1]: passing the mask as a [uint32_t] loses nothing. *)
Lemma radix_clusterer_mask k v :
  0 < k <= SIZE_MAX ->
  radix_clusterer k v = Z.land (to_uint32 v) (k - 1).
Proof.
  intros Hk. unfold radix_clusterer, get_radix, size_sub, size_wrap, SIZE_MAX in *.
  rewrite (Z.mod_small (k - 1)) by lia.
  unfold to_uint32. apply land_mod_pow2_r; [lia|].
  apply Z.mod_pos_bound. lia.
Qed.

Lemma radix_clusterer_bound k v :
  0 < k <= SIZE_MAX -> 0 <= radix_clusterer k v < k.
Proof.
  intros Hk. rewrite radix_clusterer_mask by done. split.
  - apply Z.land_nonneg. right. lia.
  - pose proof (land_le_r (to_uint32 v) (k - 1)). lia.
Qed.
End Bits.

Section Placement.
Import radix_cluster_sort.
Context {Mem : Allocator}.
Variable clusterer : Z -> result Z.
Hypothesis clusterer_nonneg : forall v c, clusterer v = Ok c -> 0 <= c.

Lemma push_entry_placed out e out' :
  placed clusterer out -> push_entry clusterer out e = Ok out' ->
  placed clusterer out'.
Proof.
  unfold push_entry. intros Hpl.
  destruct (clusterer (value e)) as [cid|] eqn:Hcid; simpl; [|done].
  destruct (out !! Z.to_nat cid) as [cl|] eqn:Hcl; [|done].
  intros [= <-] c cluster r Hc Hr.
  destruct (decide (c = Z.to_nat cid)) as [->|Hne].
  - rewrite list_lookup_insert_eq in Hc by (by eapply lookup_lt_Some).
    injection Hc as <-. apply elem_of_app in Hr as [Hr|Hr].
    + by eapply Hpl.
    + apply list_elem_of_singleton in Hr as ->. rewrite Hcid.
      apply clusterer_nonneg in Hcid. f_equal. lia.
  - rewrite list_lookup_insert_ne in Hc by done. by eapply Hpl.
Qed.

Lemma push_entries_placed entries out out' :
  placed clusterer out -> foldM (push_entry clusterer) out entries = Ok out' ->
  placed clusterer out'.
Proof.
  intros Hpl. apply (foldM_invariant (placed clusterer)); [|done].
  intros x b y Hx. by apply push_entry_placed.
Qed.

(** Whatever the schedule, every record ends in the cluster the clusterer
    names. *)
Lemma cluster_placed k schedule input out :
  _cluster k schedule input clusterer = Ok out -> placed clusterer out.
Proof.
  unfold _cluster, allocate. destruct (allocates k); simpl; [|done].
  destruct (foldM _ _ schedule) as [st|] eqn:Hrun; simpl; [|done].
  eapply (foldM_invariant (fun st => placed clusterer (output_table st))) in Hrun.
  - unfold wait_for_tasks. apply (foldM_invariant (placed clusterer)); [|done].
    intros x b y Hx. by apply push_entries_placed.
  - intros x job y Hx. unfold job_step.
    destruct (pending x !! job) as [[|e rest]|]; try (intros [= <-]; done).
    destruct (push_entry clusterer (output_table x) e) as [o|] eqn:Hp; simpl; [|done].
    intros [= <-]. simpl. by eapply push_entry_placed.
  - simpl. intros c cluster r Hc. apply lookup_replicate in Hc as [-> _].
    intros Hr. by apply elem_of_nil in Hr.
Qed.

(** A clusterer that always answers with a cluster id below [k] makes
    [_cluster] return, whatever the schedule, when the [k] clusters can be
    allocated. *)
Variable k : Z.
Hypothesis clusterer_total : forall v, exists c, clusterer v = Ok c /\ 0 <= c < k.
Hypothesis room : allocates k = true.

Lemma push_entry_total out e :
  length out = Z.to_nat k ->
  exists out', push_entry clusterer out e = Ok out' /\ length out' = Z.to_nat k.
Proof.
  intros Hlen. unfold push_entry.
  destruct (clusterer_total (value e)) as (c & -> & Hc). simpl.
  destruct (lookup_lt_is_Some_2 out (Z.to_nat c)) as [cl ->]; [lia|].
  eexists. split; [done|]. by rewrite length_insert.
Qed.

Lemma cluster_total schedule input :
  exists out, _cluster k schedule input clusterer = Ok out.
Proof.
  unfold _cluster, allocate. rewrite room. simpl.
  destruct (foldM_total (fun st => length (output_table st) = Z.to_nat k)
              (job_step clusterer) schedule
              {| pending := input; output_table := replicate (Z.to_nat k) [] |})
    as (st & -> & Hst).
  - intros x job Hx. unfold job_step.
    destruct (pending x !! job) as [[|e rest]|]; eauto.
    destruct (push_entry_total (output_table x) e Hx) as (o & -> & Ho). simpl. eauto.
  - simpl. apply length_replicate.
  - simpl. unfold wait_for_tasks.
    destruct (foldM_total (fun o => length o = Z.to_nat k)
                (foldM (push_entry clusterer)) (pending st) (output_table st))
      as (o & -> & _); [|done|eauto].
    intros x job Hx. apply foldM_total; [|done].
    intros y e Hy. by apply push_entry_total.
Qed.
End Placement.

Section RadixTheorems.
Import radix_cluster_sort inputs.
Context {Mem : Allocator}.

Lemma radix_cluster_returns k schedule input :
  0 < k <= SIZE_MAX -> allocates k = true ->
  exists out, _radix_cluster k schedule input = Ok out.
Proof.
  intros Hk Hroom. apply cluster_total; [|done]. intros v. eexists. split; [done|].
  by apply radix_clusterer_bound.
Qed.
End RadixTheorems.

(* ===================================================================== *)
(** * Range clustering: the cluster decision *)
(* ===================================================================== *)

Section RangeClusterer.
Import radix_cluster_sort.

Lemma range_scan_first (split_values : list Z) v last (n : nat) : forall m,
  0 <= m ->
  m + Z.of_nat n <= Z.of_nat (length split_values) ->
  exists c,
    range_scan split_values v last (seqZ m (Z.of_nat n)) = Ok c
    /\ ((m <= c < m + Z.of_nat n
         /\ (exists s, split_values !! Z.to_nat c = Some s /\ v <= s)
         /\ (forall j s, m <= j < c -> split_values !! Z.to_nat j = Some s -> s < v))
        \/ (c = last
            /\ forall j s, m <= j < m + Z.of_nat n ->
                           split_values !! Z.to_nat j = Some s -> s < v)).
Proof.
  induction n as [|n IH]; intros m Hm Hlen.
  - rewrite seqZ_nil by lia. simpl. eexists. split; [done|]. right. split; [done|]. lia.
  - rewrite seqZ_cons by lia. simpl.
    destruct (lookup_lt_is_Some_2 split_values (Z.to_nat m)) as [s Hs]; [lia|].
    rewrite Hs. destruct (Z.leb_spec v s) as [Hle|Hgt].
    + exists m. split; [done|]. left. split; [lia|]. split; [eauto|]. lia.
    + replace (Z.pred (Z.of_nat (S n))) with (Z.of_nat n) by lia.
      destruct (IH (Z.succ m)) as (c & Hc & Hspec); [lia|lia|].
      exists c. split; [done|].
      assert (forall j s', j = m -> split_values !! Z.to_nat j = Some s' -> s' < v) as Hm'.
      { intros j s' -> Hj. rewrite Hs in Hj. injection Hj as <-. done. }
      destruct Hspec as [(Hr & Hfound & Hbefore)|[-> Hall]].
      * left. split; [lia|]. split; [done|]. intros j s' Hj Hl.
        destruct (decide (j = m)) as [->|]; [by eapply Hm'|].
        eapply Hbefore; [|done]. lia.
      * right. split; [done|]. intros j s' Hj Hl.
        destruct (decide (j = m)) as [->|]; [by eapply Hm'|].
        eapply Hall; [|done]. lia.
Qed.

(** C6.  Range mode, for every value [v] and every vector of
    [cluster_count - 1] split values: the clusterer returns the first index
    [c], from low to high, with [v <= split_values[c]], and
    [cluster_count - 1] when there is none. *)
Theorem range_clusterer_first_split k (split_values : list Z) v :
  0 < k <= SIZE_MAX ->
  Z.of_nat (length split_values) = k - 1 ->
  exists c,
    range_clusterer k split_values v = Ok c
    /\ ((0 <= c < k - 1
         /\ (exists s, split_values !! Z.to_nat c = Some s /\ v <= s)
         /\ (forall j s, 0 <= j < c -> split_values !! Z.to_nat j = Some s -> s < v))
        \/ (c = k - 1
            /\ forall j s, 0 <= j < k - 1 ->
                           split_values !! Z.to_nat j = Some s -> s < v)).
Proof.
  intros Hk Hlen. unfold range_clusterer, size_sub, size_wrap, SIZE_MAX in *.
  rewrite (Z.mod_small (k - 1)) by lia.
  rewrite <- Hlen.
  destruct (range_scan_first split_values v (Z.of_nat (length split_values))
              (length split_values) 0) as (c & Hc & Hspec); [lia|lia|].
  exists c. split; [done|]. simpl in Hspec. done.
Qed.

Lemma range_clusterer_first_split_witness :
  0 < 4 <= SIZE_MAX
  /\ Z.of_nat (length [3; 5; 7]) = 4 - 1
  /\ exists c,
       range_clusterer 4 [3; 5; 7] 4 = Ok c
       /\ ((0 <= c < 4 - 1
            /\ (exists s, [3; 5; 7] !! Z.to_nat c = Some s /\ 4 <= s)
            /\ (forall j s, 0 <= j < c -> [3; 5; 7] !! Z.to_nat j = Some s -> s < 4))
           \/ (c = 4 - 1
               /\ forall j s, 0 <= j < 4 - 1 ->
                              [3; 5; 7] !! Z.to_nat j = Some s -> s < 4)).
Proof.
  split; [unfold SIZE_MAX; lia|]. split; [reflexivity|].
  apply (range_clusterer_first_split 4 [3; 5; 7] 4); [unfold SIZE_MAX; lia|reflexivity].
Defined.

(** The clusterer never names a cluster that does not exist. *)
Lemma range_clusterer_bound k (split_values : list Z) v :
  0 < k <= SIZE_MAX ->
  Z.of_nat (length split_values) = k - 1 ->
  exists c, range_clusterer k split_values v = Ok c /\ 0 <= c < k.
Proof.
  intros Hk Hlen.
  destruct (range_scan_first split_values v (k - 1) (length split_values) 0)
    as (c & Hc & Hspec); [lia|lia|].
  exists c. unfold range_clusterer, size_sub, size_wrap, SIZE_MAX in *.
  rewrite (Z.mod_small (k - 1)) by lia. rewrite <- Hlen at 2. split; [done|].
  destruct Hspec as [(? & _)|[-> _]]; lia.
Qed.
End RangeClusterer.

(* ===================================================================== *)
(** * [execute]: row counts *)
(* ===================================================================== *)

Section ExecuteTheorems.
Import radix_cluster_sort inputs.
Context {F : Float32} {Mem : Allocator}.

(** The concatenating path always delivers, the radix path when the
    clusters can be allocated. *)
Lemma execute_returns ty debug self sl sr tl tr cl cr :
  _input_table_left self = Some tl ->
  _input_table_right self = Some tr ->
  column_id_by_name (_left_column_name self) (column_names tl) = Some cl ->
  column_id_by_name (_right_column_name self) (column_names tr) = Some cr ->
  0 < _cluster_count self <= SIZE_MAX ->
  _cluster_count self = 1
  \/ (_equi_case self = true /\ allocates (_cluster_count self) = true) ->
  exists out, execute ty debug self sl sr = Ok out.
Proof.
  intros Hl Hr Hcl Hcr Hk Hpath.
  enough (exists out, execute ty false self sl sr = Ok out) as [out Hout].
  { exists out. destruct debug; [|done]. by rewrite execute_assertions_hold. }
  unfold execute. rewrite Hl, Hr.
  destruct (materialize_returns (negb (_equi_case self)) tl _ cl Hcl) as [chl ->].
  destruct (materialize_returns (negb (_equi_case self)) tr _ cr Hcr) as [chr ->].
  simpl. destruct (Z.eqb_spec (_cluster_count self) 1) as [E|E]; simpl; [eauto|].
  destruct Hpath as [?|[-> Hroom]]; [done|].
  destruct (radix_cluster_returns (_cluster_count self) sl chl Hk Hroom) as [l ->].
  destruct (radix_cluster_returns (_cluster_count self) sr chr Hk Hroom) as [r ->].
  simpl. eauto.
Qed.

(** C4.  For every pair of input tables, every cluster count and each of
    the three paths of [execute] (concatenation, radix, range), in debug and
    in release builds and under every interleaving of the clustering jobs:
    the clusters [execute] returns for a side hold, in total, as many
    records as the table of that side has rows. *)
Theorem execute_preserves_row_count ty debug left right names equi_case cluster_count
    schedule_left schedule_right out_left out_right :
  execute ty debug
    {| _input_table_left := Some left; _input_table_right := Some right;
       _left_column_name := names.1; _right_column_name := names.2;
       _equi_case := equi_case; _cluster_count := cluster_count |}
    schedule_left schedule_right = Ok (out_left, out_right) ->
  _materialized_table_size out_left = row_count left
  /\ _materialized_table_size out_right = row_count right.
Proof.
  intros H. apply execute_sizes in H as [Hl Hr]. simpl in Hl, Hr.
  injection Hl as Hl. injection Hr as Hr. done.
Qed.
End ExecuteTheorems.

Section ExecuteWitness.
Import radix_cluster_sort inputs.
#[local] Existing Instance roomy.

(** Scenario S2 (range path, four clusters), in single precision. *)
Lemma execute_preserves_row_count_witness :
  exists out_left out_right,
    execute (F := binary32) Int32 true
      (join false 4 [[1; 2; 3; 4; 5; 6; 7; 8]] [[2; 4; 6; 8]]) [0%nat] []
    = Ok (out_left, out_right)
    /\ _materialized_table_size out_left
       = row_count (single_column [[1; 2; 3; 4; 5; 6; 7; 8]])
    /\ _materialized_table_size out_right = row_count (single_column [[2; 4; 6; 8]]).
Proof.
  do 2 eexists. split; [vm_compute; reflexivity|].
  apply (execute_preserves_row_count (F := binary32) Int32 true
           (single_column [[1; 2; 3; 4; 5; 6; 7; 8]]) (single_column [[2; 4; 6; 8]])
           ("a", "a") false 4 [0%nat] []).
  vm_compute. reflexivity.
Defined.
End ExecuteWitness.

(* ===================================================================== *)
(** * Range clustering: sampling and split values *)
(* ===================================================================== *)

Section Histograms.
Import radix_cluster_sort.

Lemma is_most_common_unique h x y :
  is_most_common h x -> is_most_common h y -> x = y.
Proof.
  intros [Hx Hxm] [Hy Hym].
  destruct (Hxm y Hy) as [A1 A2], (Hym x Hx) as [B1 B2].
  destruct x, y; simpl in *. f_equal; lia.
Qed.

Lemma hist_incr_keys v h x :
  x ∈ hist_incr v h -> x.1 = v \/ exists y, y ∈ h /\ y.1 = x.1.
Proof.
  induction h as [|[k c] h IH]; simpl.
  - intros Hx. apply list_elem_of_singleton in Hx as ->. by left.
  - destruct (v <? k).
    + intros Hx. apply elem_of_cons in Hx as [->|Hx]; [by left|]. right. eauto.
    + destruct (Z.eqb_spec v k) as [->|].
      * intros Hx. apply elem_of_cons in Hx as [->|Hx]; [by left|].
        right. exists x. split; [by right|done].
      * intros Hx. apply elem_of_cons in Hx as [->|Hx].
        -- right. exists (k, c). split; [by left|done].
        -- destruct (IH Hx) as [?|(y & Hy & E)]; [by left|].
           right. exists y. split; [by right|done].
Qed.

(** Counting a sample keeps the map in key order. *)
Lemma hist_incr_sorted v h : key_sorted h -> key_sorted (hist_incr v h).
Proof.
  unfold key_sorted. induction h as [|[k c] h IH]; intros Hs; simpl.
  - by repeat constructor.
  - apply StronglySorted_inv in Hs as [Hs Hall].
    destruct (Z.ltb_spec v k) as [Hlt|Hge].
    + constructor; [by constructor|]. constructor; [done|].
      eapply Forall_impl; [done|]. simpl. intros; lia.
    + destruct (Z.eqb_spec v k) as [->|Hne].
      * by constructor.
      * constructor; [by apply IH|]. apply Forall_forall. intros x Hx.
        destruct (hist_incr_keys _ _ _ Hx) as [E|(y & Hy & E)]; simpl.
        -- lia.
        -- rewrite Forall_forall in Hall. specialize (Hall y Hy). simpl in Hall. lia.
Qed.

Lemma max_element_from_spec l : forall largest,
  key_sorted (largest :: l) ->
  is_most_common (largest :: l) (max_element_from largest l).
Proof.
  unfold key_sorted. induction l as [|x l IH]; intros largest Hs; simpl.
  - split; [by left|]. intros y Hy. apply list_elem_of_singleton in Hy as ->. lia.
  - apply StronglySorted_inv in Hs as [Hs Hall].
    apply Forall_cons in Hall as [Hlx Hall].
    destruct (Z.ltb_spec largest.2 x.2) as [Hlt|Hge].
    + destruct (IH x Hs) as [Hin Hmax]. split; [by right|].
      intros y Hy. apply elem_of_cons in Hy as [->|Hy]; [|by apply Hmax].
      destruct (Hmax x) as [? _]; [by left|]. lia.
    + assert (StronglySorted (fun a b : Z * Z => a.1 < b.1) (largest :: l)) as Hs'.
      { apply StronglySorted_inv in Hs as [Hs _]. by constructor. }
      destruct (IH largest Hs') as [Hin Hmax]. split.
      * apply elem_of_cons in Hin as [->|Hin]; [by left|]. right. by right.
      * intros y Hy.
        destruct (Hmax largest) as [Hl1 Hl2]; [by left|].
        apply elem_of_cons in Hy as [->|Hy]; [by apply Hmax; left|].
        apply elem_of_cons in Hy as [->|Hy]; [|by apply Hmax; right].
        split; [lia|]. intros E.
        assert (largest.2 = (max_element_from largest l).2) as E' by lia.
        specialize (Hl2 E'). lia.
Qed.

Lemma most_common_sample_spec h x :
  most_common_sample h = Some x -> is_most_common h x.
Proof.
  revert x. induction h as [|a h IH]; intros x; simpl; [done|].
  destruct (most_common_sample h) as [b|] eqn:Hb.
  - destruct (IH b eq_refl) as [Hin Hmax].
    unfold more_common. intros Hx.
    destruct (Z.ltb_spec b.2 a.2) as [H1|H1]; simpl in Hx.
    + injection Hx as <-. split; [by left|]. intros y Hy.
      apply elem_of_cons in Hy as [->|Hy]; [lia|].
      destruct (Hmax y Hy). lia.
    + destruct (Z.eqb_spec a.2 b.2) as [H2|H2]; simpl in Hx.
      * destruct (Z.ltb_spec a.1 b.1) as [H3|H3]; injection Hx as <-.
        -- split; [by left|]. intros y Hy.
           apply elem_of_cons in Hy as [->|Hy]; [lia|].
           destruct (Hmax y Hy). lia.
        -- split; [by right|]. intros y Hy.
           apply elem_of_cons in Hy as [->|Hy]; [lia|]. by apply Hmax.
      * injection Hx as <-. split; [by right|]. intros y Hy.
        apply elem_of_cons in Hy as [->|Hy]; [lia|]. by apply Hmax.
  - intros [= <-].
    assert (h = []) as ->.
    { destruct h as [|b h]; [done|]. simpl in Hb.
      destruct (most_common_sample h) as [b0|]; [destruct (more_common b b0)|]; done. }
    split; [by left|]. intros y Hy. apply list_elem_of_singleton in Hy as ->. lia.
Qed.

(** On a histogram in key order, [std::max_element] under the comparison
    of the counts finds the most common sample, the smaller value winning a
    tie. *)
Lemma max_element_most_common h :
  key_sorted h -> max_element h = most_common_sample h.
Proof.
  intros Hs. destruct h as [|a h]; [done|].
  destruct (most_common_sample (a :: h)) as [x|] eqn:Hx.
  - simpl. f_equal. eapply is_most_common_unique.
    + by apply max_element_from_spec.
    + by apply most_common_sample_spec.
  - simpl in Hx.
    destruct (most_common_sample h) as [b0|]; [destruct (more_common a b0)|]; done.
Qed.

Context {F : Float32}.

Lemma pick_sample_sorted k chunk sample_values cluster_id sample_values' :
  Forall key_sorted sample_values ->
  pick_sample k chunk sample_values cluster_id = Ok sample_values' ->
  Forall key_sorted sample_values'.
Proof.
  intros Hs. unfold pick_sample.
  destruct (sample_index k _ cluster_id) as [i|]; simpl; [|done].
  destruct (chunk !! Z.to_nat i) as [entry|]; [|done].
  destruct (sample_values !! Z.to_nat cluster_id) as [h|] eqn:Hh; [|done].
  intros [= <-]. apply Forall_insert; [done|]. apply hist_incr_sorted.
  rewrite Forall_forall in Hs. apply Hs. by eapply list_elem_of_lookup_2.
Qed.

Lemma pick_sample_values_sorted k sample_values table sample_values' :
  Forall key_sorted sample_values ->
  _pick_sample_values k sample_values table = Ok sample_values' ->
  Forall key_sorted sample_values'.
Proof.
  intros Hs. apply (foldM_invariant (Forall key_sorted)); [|done].
  intros x chunk y Hx. apply (foldM_invariant (Forall key_sorted)); [|done].
  intros x' c y' Hx'. by apply pick_sample_sorted.
Qed.

(** What the loop over the cluster ids stores is the count of the most
    common sample. *)
Lemma pick_split_value_count ty sample_values split_values cluster_id split_values' :
  Forall key_sorted sample_values ->
  pick_split_value ty sample_values split_values cluster_id = Ok split_values' ->
  exists h v count,
    sample_values !! Z.to_nat cluster_id = Some h
    /\ most_common_sample h = Some (v, count)
    /\ split_values' = <[Z.to_nat cluster_id := int_of_size_t ty count]> split_values.
Proof.
  intros Hs. unfold pick_split_value.
  destruct (sample_values !! Z.to_nat cluster_id) as [h|] eqn:Hh; [|done].
  assert (key_sorted h) as Hsorted.
  { rewrite Forall_forall in Hs. apply Hs. by eapply list_elem_of_lookup_2. }
  rewrite (max_element_most_common h Hsorted).
  destruct (most_common_sample h) as [[v count]|] eqn:Hm; [|done].
  intros [= <-]. exists h, v, count. repeat split; done.
Qed.
End Histograms.

Section SplitValues.
Import radix_cluster_sort inputs.
#[local] Existing Instance binary32.
#[local] Existing Instance roomy.

(** C1.  Both inputs one chunk holding 10, 20, 30, 40, two clusters: the
    one histogram counts the sample 30 twice, so the most common sampled
    value is 30; the split value [_range_cluster] computes is 2, the
    count. *)
Theorem range_split_value_is_count :
  (sample_values ← _pick_sample_values 2 [[]] [chunk_10_40];
   _pick_sample_values 2 sample_values [chunk_10_40]) = Ok [[(30, 2)]]
  /\ max_element [(30, 2)] = Some (30, 2)
  /\ most_common_value [(30, 2)] = Some 30
  /\ range_split_values Int32 2 [chunk_10_40] [chunk_10_40] = Ok [2].
Proof. repeat split; vm_compute; reflexivity. Qed.

(** Scenario S2: the samples 3 and 4 tie with one count each; the smaller
    value, 3, is the one [max_element] finds, and the split value stored is
    the count 1. *)
Example range_split_values_S2 :
  range_split_values Int32 4
    [[record 1 0; record 2 1; record 3 2; record 4 3;
      record 5 4; record 6 5; record 7 6; record 8 7]]
    [[record 2 0; record 4 1; record 6 2; record 8 3]] = Ok [1; 1; 1]
  /\ max_element [(3, 1); (4, 1)] = Some (3, 1).
Proof. split; vm_compute; reflexivity. Qed.
End SplitValues.

Section SampleIndex.
Import radix_cluster_sort inputs.

(** In single precision 33554431 is not representable: the product
    [1 * 33554431] is rounded to [2 ^ 25] before the division. *)
Lemma sample_index_rounds_up :
  sample_index (F := binary32) 33554432 1 33554430 = Ok 1.
Proof. vm_compute. reflexivity. Qed.

Lemma pick_sample_out_of_range entry sample_values :
  pick_sample (F := binary32) 33554432 [entry] sample_values 33554430
  = Err (UndefinedBehaviour "sample index out of range").
Proof.
  unfold pick_sample. change (Z.of_nat (length [entry])) with 1.
  rewrite sample_index_rounds_up. reflexivity.
Qed.

Lemma pick_sample_values_fails entry sample_values :
  exists e,
    _pick_sample_values (F := binary32) 33554432 sample_values [[entry]] = Err e.
Proof.
  unfold _pick_sample_values.
  change (size_sub 33554432 1) with (33554430 + 1).
  rewrite seqZ_app by lia.
  change (seqZ (0 + 33554430) 1) with [33554430].
  change (foldM ?f ?a [?x]) with (a' ← f a x; Ok a').
  destruct (foldM_fails (pick_sample (F := binary32) 33554432 [entry])
              (seqZ 0 33554430) 33554430 [] sample_values) as [e He].
  - intros x. eexists. apply pick_sample_out_of_range.
  - rewrite He. simpl. eauto.
Qed.

(** C10.  A chunk of one record and [2 ^ 25] clusters: for the last
    cluster id, [2 ^ 25 - 2], the sampled index is 1, which is not below the
    chunk size 1; the read is out of range and [_pick_sample_values] does
    not return. *)
Theorem sample_index_out_of_bounds :
  sample_index (F := binary32) 33554432 1 33554430 = Ok 1
  /\ (forall entry sample_values,
        pick_sample (F := binary32) 33554432 [entry] sample_values 33554430
        = Err (UndefinedBehaviour "sample index out of range"))
  /\ (forall entry sample_values,
        exists e,
          _pick_sample_values (F := binary32) 33554432 sample_values [[entry]]
          = Err e).
Proof.
  split; [apply sample_index_rounds_up|].
  split; [apply pick_sample_out_of_range|apply pick_sample_values_fails].
Qed.

(** With a division that does not round, the index is in range, as the
    arithmetic of the loop intends. *)
Lemma exact_trunc_div a k :
  0 <= a -> 0 < k ->
  ftrunc (Float32 := exact) (fdiv (of_Z a) (of_Z k)) = Some (a / k).
Proof.
  intros Ha Hk. destruct k as [|p|p]; try lia. simpl.
  rewrite Z.mul_1_r, Pos.mul_1_l. f_equal. apply Z.quot_div_nonneg; lia.
Qed.

Lemma sample_index_exact_in_range k n cluster_id :
  1 <= n <= SIZE_MAX -> 2 <= k <= SIZE_MAX -> 0 <= cluster_id <= k - 2 ->
  exists index,
    sample_index (F := exact) k n cluster_id = Ok index /\ 0 <= index < n.
Proof.
  unfold SIZE_MAX. intros Hn Hk Hc.
  unfold sample_index, sample_position, float_to_size_t, size_mul, size_add, size_wrap.
  rewrite (Z.mod_small (cluster_id + 1)) by lia.
  assert (0 <= (n * (cluster_id + 1)) mod 2 ^ 64 <= n * (cluster_id + 1)) as Hm.
  { apply Z.mod_bound_pos_le; lia. }
  rewrite exact_trunc_div by lia.
  assert (0 <= (n * (cluster_id + 1)) mod 2 ^ 64 / k < n) as Hi.
  { split; [apply Z.div_pos; lia|]. apply Z.div_lt_upper_bound; nia. }
  unfold SIZE_MAX.
  destruct (Z.leb_spec 0 ((n * (cluster_id + 1)) mod 2 ^ 64 / k)); [|lia].
  destruct (Z.leb_spec ((n * (cluster_id + 1)) mod 2 ^ 64 / k) (2 ^ 64 - 1)); [|lia].
  simpl. eauto.
Qed.
End SampleIndex.

(* ===================================================================== *)
(** * Single precision obeys the order laws

    The rounding of the Standard Library's specification, read as
    arithmetic on integers: [binary_round_aux] rounds a quotient [A / B] at
    the exponent the format gives it, to nearest even
    ([binary_round_aux_rounded]); that rounding is monotone
    ([binary_round_aux_mono]); conversion, division and subtraction are
    instances of it. *)
(* ===================================================================== *)

Section Digits.
Lemma digits2_pos_bounds p :
  2 ^ (Z.pos (digits2_pos p) - 1) <= Z.pos p < 2 ^ Z.pos (digits2_pos p).
Proof.
  induction p as [p IH|p IH|]; simpl digits2_pos.
  - rewrite Pos2Z.inj_succ.
    replace (Z.succ (Z.pos (digits2_pos p)) - 1) with (Z.succ (Z.pos (digits2_pos p) - 1)) by lia.
    rewrite !Z.pow_succ_r by lia. lia.
  - rewrite Pos2Z.inj_succ.
    replace (Z.succ (Z.pos (digits2_pos p)) - 1) with (Z.succ (Z.pos (digits2_pos p) - 1)) by lia.
    rewrite !Z.pow_succ_r by lia. lia.
  - simpl. lia.
Qed.

Lemma Zdigits2_bounds m :
  0 < m -> 2 ^ (Zdigits2 m - 1) <= m < 2 ^ Zdigits2 m.
Proof. destruct m as [|p|p]; try lia. intros _. apply digits2_pos_bounds. Qed.

Lemma Zdigits2_nonneg m : 0 <= Zdigits2 m.
Proof. destruct m; simpl; lia. Qed.

Lemma Zdigits2_pos m : 0 < m -> 0 < Zdigits2 m.
Proof. destruct m; simpl; lia. Qed.

(** The number of digits is determined by the bounds. *)
Lemma Zdigits2_unique m d :
  0 < m -> 2 ^ (d - 1) <= m < 2 ^ d -> Zdigits2 m = d.
Proof.
  intros Hm [H1 H2]. pose proof (Zdigits2_bounds m Hm) as [H3 H4].
  assert (0 < d).
  { destruct (Z_lt_le_dec 0 d); [done|]. 
    assert (2 ^ d <= 2 ^ 0) by (apply Z.pow_le_mono_r; lia). simpl in *. lia. }
  pose proof (Zdigits2_pos m Hm).
  destruct (Z.lt_trichotomy (Zdigits2 m) d) as [Hlt|[->|Hgt]]; [|done|].
  - assert (2 ^ Zdigits2 m <= 2 ^ (d - 1)) by (apply Z.pow_le_mono_r; lia). lia.
  - assert (2 ^ d <= 2 ^ (Zdigits2 m - 1)) by (apply Z.pow_le_mono_r; lia). lia.
Qed.

Lemma Zdigits2_mono a b : 0 <= a <= b -> Zdigits2 a <= Zdigits2 b.
Proof.
  intros [Ha Hab]. destruct (Z.eq_dec a 0) as [->|]; [apply Zdigits2_nonneg|].
  pose proof (Zdigits2_bounds a ltac:(lia)) as [H1 H2].
  pose proof (Zdigits2_bounds b ltac:(lia)) as [H3 H4].
  destruct (Z_le_gt_dec (Zdigits2 a) (Zdigits2 b)); [done|].
  assert (2 ^ Zdigits2 b <= 2 ^ (Zdigits2 a - 1)) by (apply Z.pow_le_mono_r; lia). lia.
Qed.
End Digits.

Section Shr.

Lemma shr_1_spec m r s :
  0 <= m ->
  shr_1 {| shr_m := m; shr_r := r; shr_s := s |}
  = {| shr_m := m / 2; shr_r := Z.odd m; shr_s := r || s |}.
Proof.
  intros Hm. destruct m as [|[p|p|]|p]; try lia; simpl shr_1; f_equal.
  - rewrite Pos2Z.inj_xI. rewrite (Z.mul_comm 2), Z.div_add_l by lia. 
    replace (1 / 2) with 0 by reflexivity. lia.
  - rewrite Pos2Z.inj_xO. by rewrite (Z.mul_comm 2), Z.div_mul by lia.
Qed.

Lemma shr_1_located A B mrs :
  0 <= A -> 0 < B -> located A B mrs -> located A (2 * B) (shr_1 mrs).
Proof.
  intros HA HB (Hm & Hr & Hs).
  assert (A / (2 * B) = (A / B) / 2) as Hdiv.
  { rewrite (Z.mul_comm 2 B), Z.div_div by lia. done. }
  assert (A mod (2 * B) = A mod B + B * ((A / B) mod 2)) as Hmod.
  { rewrite (Z.mul_comm 2 B). apply Z.rem_mul_r; lia. }
  pose proof (Z.mod_pos_bound A B HB) as HR.
  pose proof (Z.div_pos A B HA HB) as Hq.
  destruct mrs as [m r s]. cbn [shr_m shr_r shr_s] in Hm, Hr, Hs. subst m.
  rewrite shr_1_spec by done. unfold located. cbn [shr_m shr_r shr_s].
  rewrite Hdiv, Hmod. split; [done|].
  rewrite Zmod_odd. subst r s.
  destruct (Z.odd (A / B)); rewrite ?Z.mul_1_r, ?Z.mul_0_r, ?Z.add_0_r.
  - split.
    + symmetry. apply Z.leb_le. lia.
    + destruct (Z.leb_spec B (2 * (A mod B))), (Z.eqb_spec (A mod B) 0),
        (Z.eqb_spec (2 * (A mod B)) B), (Z.eqb_spec (A mod B + B) 0),
        (Z.eqb_spec (2 * (A mod B + B)) (2 * B)); simpl; try done; lia.
  - split.
    + symmetry. apply Z.leb_gt. lia.
    + destruct (Z.leb_spec B (2 * (A mod B))), (Z.eqb_spec (A mod B) 0),
        (Z.eqb_spec (2 * (A mod B)) B),
        (Z.eqb_spec (2 * (A mod B)) (2 * B)); simpl; try done; lia.
Qed.

Lemma pow2_xO p : 2 ^ Z.pos p~0 = 2 ^ Z.pos p * 2 ^ Z.pos p.
Proof. rewrite <- Z.pow_add_r by lia. f_equal. lia. Qed.

Lemma pow2_xI p : 2 ^ Z.pos p~1 = 2 * (2 ^ Z.pos p * 2 ^ Z.pos p).
Proof.
  rewrite <- Z.pow_add_r by lia. rewrite <- Z.pow_succ_r by lia. f_equal. lia.
Qed.

Lemma pow2_pos n : 0 <= n -> 0 < 2 ^ n.
Proof. intros. apply Z.pow_pos_nonneg; lia. Qed.

Lemma iter_pos_located p : forall A B mrs,
  0 <= A -> 0 < B -> located A B mrs ->
  located A (B * 2 ^ Z.pos p) (SpecFloat.iter_pos shr_1 p mrs).
Proof.
  induction p as [p IH|p IH|]; intros A B mrs HA HB Hl; simpl iter_pos.
  - pose proof (pow2_pos (Z.pos p) ltac:(lia)).
    apply shr_1_located in Hl; [|done..].
    apply IH in Hl; [|lia..]. apply IH in Hl; [|done|nia].
    rewrite pow2_xI.
    replace (B * (2 * (2 ^ Z.pos p * 2 ^ Z.pos p)))
      with (2 * B * 2 ^ Z.pos p * 2 ^ Z.pos p) by lia. done.
  - pose proof (pow2_pos (Z.pos p) ltac:(lia)).
    apply IH in Hl; [|lia..]. apply IH in Hl; [|done|nia].
    rewrite pow2_xO.
    replace (B * (2 ^ Z.pos p * 2 ^ Z.pos p))
      with (B * 2 ^ Z.pos p * 2 ^ Z.pos p) by lia. done.
  - apply shr_1_located in Hl; [|done..].
    replace (B * 2 ^ 1) with (2 * B) by (rewrite Z.pow_1_r; lia). done.
Qed.

(** Shifting by [n] places divides by [2 ^ n]. *)
Lemma shr_located A B mrs e n :
  0 <= A -> 0 < B -> located A B mrs ->
  located A (B * 2 ^ Z.max n 0) (fst (shr mrs e n))
  /\ snd (shr mrs e n) = e + Z.max n 0.
Proof.
  intros HA HB Hl. destruct n as [|p|p]; simpl shr; simpl fst; simpl snd.
  - rewrite Z.mul_1_r. split; [done|lia].
  - rewrite Z.max_l by lia. split; [by apply iter_pos_located|done].
  - rewrite Z.max_r by lia. rewrite Z.mul_1_r. split; [done|lia].
Qed.
End Shr.

Section Round.
Lemma fexp32_eq e : fexp 24 128 e = Z.max (e - 24) (-149).
Proof. reflexivity. Qed.


Lemma rne_located A B mrs :
  0 < B -> located A B mrs ->
  round_nearest_even (shr_m mrs) (loc_of_shr_record mrs) = rne A B.
Proof.
  intros HB (Hm & Hr & Hs). destruct mrs as [m r s].
  cbn [shr_m shr_r shr_s] in *. subst m. unfold rne.
  pose proof (Z.mod_pos_bound A B HB) as HR.
  destruct (Z.ltb_spec (2 * (A mod B)) B), (Z.ltb_spec B (2 * (A mod B)));
    destruct (Z.leb_spec B (2 * (A mod B))), (Z.eqb_spec (A mod B) 0),
      (Z.eqb_spec (2 * (A mod B)) B); simpl in Hr, Hs; subst r s; simpl;
    try done; lia.
Qed.

Lemma rne_bounds A B : 0 < B -> A / B <= rne A B <= A / B + 1.
Proof.
  intros HB. unfold rne.
  destruct (2 * (A mod B) <? B), (B <? 2 * (A mod B)), (Z.even (A / B)); lia.
Qed.


Lemma shr_record_of_loc_m m l : shr_m (shr_record_of_loc m l) = m.
Proof. by destruct l as [|[]]. Qed.

Lemma shr_fexp_noop m e l :
  fexp 24 128 (Zdigits2 m + e) <= e ->
  shr_fexp 24 128 m e l = (shr_record_of_loc m l, e).
Proof.
  intros H. unfold shr_fexp, shr.
  destruct (fexp 24 128 (Zdigits2 m + e) - e) eqn:E; try done. lia.
Qed.

(** What [binary_round_aux] computes from the integer part [mx] and the
    place [lx] of [A / B], at an exponent not above the one the format gives
    a number of that size. *)
Lemma binary_round_aux_spec s A B mx ex lx :
  0 <= A -> 0 < B ->
  located A B (shr_record_of_loc mx lx) ->
  ex <= fexp 24 128 (Zdigits2 mx + ex) ->
  let E := fexp 24 128 (Zdigits2 mx + ex) in
  let m1 := rne A (B * 2 ^ (E - ex)) in
  binary_round_aux 24 128 s mx ex lx
  = (if m1 <? 2 ^ 24 then b32_make s m1 E else b32_make s (2 ^ 23) (E + 1))
  /\ 0 <= m1 <= 2 ^ 24
  /\ (-149 < E -> 2 ^ 23 <= m1).
Proof.
  intros HA HB Hl Hex E m1.
  assert (mx = A / B) as Hmx.
  { destruct Hl as [Hm _]. by rewrite shr_record_of_loc_m in Hm. }
  assert (0 <= mx) as Hmx0 by (subst mx; apply Z.div_pos; lia).
  pose proof (pow2_pos (E - ex) ltac:(lia)) as Hpow.
  assert (-149 <= E) as HE by (unfold E; rewrite fexp32_eq; lia).
  assert (Zdigits2 mx + ex - 24 <= E) as HE' by (unfold E; rewrite fexp32_eq; lia).
  (* the first shift *)
  unfold binary_round_aux.
  destruct (shr_located A B (shr_record_of_loc mx lx) ex (E - ex) HA HB Hl) as [Hl1 He1].
  rewrite Z.max_l in Hl1, He1 by lia.
  unfold shr_fexp at 1. fold E.
  destruct (shr (shr_record_of_loc mx lx) ex (E - ex)) as [mrs' e'] eqn:Hshr.
  cbn [fst snd] in Hl1, He1.
  replace e' with E by lia.
  rewrite (rne_located A (B * 2 ^ (E - ex)) mrs') by (done || nia). fold m1.
  (* the size of the rounded mantissa *)
  assert (A / (B * 2 ^ (E - ex)) = mx / 2 ^ (E - ex)) as Hm'.
  { rewrite Hmx, Z.div_div by lia. done. }
  pose proof (rne_bounds A (B * 2 ^ (E - ex)) ltac:(nia)) as Hb. fold m1 in Hb.
  rewrite Hm' in Hb.
  assert (mx / 2 ^ (E - ex) < 2 ^ 24) as Hlt.
  { destruct (Z.eq_dec mx 0) as [->|Hne]; [by rewrite Z.div_0_l by lia|].
    pose proof (Zdigits2_bounds mx ltac:(lia)) as [_ Hd].
    apply Z.div_lt_upper_bound; [lia|].
    rewrite <- Z.pow_add_r by lia.
    eapply Z.lt_le_trans; [done|]. apply Z.pow_le_mono_r; lia. }
  assert (0 <= mx / 2 ^ (E - ex)) by (apply Z.div_pos; lia).
  assert (-149 < E -> 2 ^ 23 <= mx / 2 ^ (E - ex)) as Hge.
  { intros HEn. assert (E = Zdigits2 mx + ex - 24) as HEeq.
    { unfold E in *. rewrite fexp32_eq in *. lia. }
    assert (0 < mx) as Hpos.
    { destruct (Z.eq_dec mx 0) as [->|]; [|lia]. simpl in HEeq. lia. }
    pose proof (Zdigits2_bounds mx Hpos) as [Hd _].
    apply Z.div_le_lower_bound; [lia|].
    rewrite <- Z.pow_add_r by lia.
    eapply Z.le_trans; [|done]. apply Z.pow_le_mono_r; lia. }
  split; [|split; [lia|lia]].
  (* the second shift *)
  destruct (Z.ltb_spec m1 (2 ^ 24)) as [Hsmall|Hbig].
  - rewrite shr_fexp_noop.
    + rewrite shr_record_of_loc_m. unfold b32_make.
      destruct m1 as [|p|p]; try done.
    + rewrite fexp32_eq.
      destruct (Z.eq_dec m1 0) as [->|Hne]; [simpl; lia|].
      assert (Zdigits2 m1 <= 24).
      { pose proof (Zdigits2_bounds m1 ltac:(lia)) as [Hd _].
        destruct (Z_le_gt_dec (Zdigits2 m1) 24); [done|].
        assert (2 ^ 24 <= 2 ^ (Zdigits2 m1 - 1)) by (apply Z.pow_le_mono_r; lia). lia. }
      lia.
  - assert (m1 = 2 ^ 24) as -> by lia.
    unfold shr_fexp. change (Zdigits2 (2 ^ 24)) with 25.
    replace (fexp 24 128 (25 + E) - E) with 1 by (rewrite fexp32_eq; lia).
    reflexivity.
Qed.
End Round.

Section RneMono.
Lemma rne_mono A1 D1 A2 D2 :
  0 < D1 -> 0 < D2 -> A1 * D2 <= A2 * D1 -> rne A1 D1 <= rne A2 D2.
Proof.
  intros H1 H2 Hle.
  pose proof (Z.div_mod A1 D1 ltac:(lia)) as E1.
  pose proof (Z.div_mod A2 D2 ltac:(lia)) as E2.
  pose proof (Z.mod_pos_bound A1 D1 H1) as R1.
  pose proof (Z.mod_pos_bound A2 D2 H2) as R2.
  pose proof (rne_bounds A1 D1 H1) as B1.
  pose proof (rne_bounds A2 D2 H2) as B2.
  remember (A1 / D1) as q1. remember (A2 / D2) as q2.
  remember (A1 mod D1) as r1. remember (A2 mod D2) as r2.
  assert (q1 <= q2) as Hq.
  { destruct (Z_le_gt_dec q1 q2); [done|].
    assert (D1 * (q2 + 1) <= A1) by nia.
    assert (A2 < D2 * (q2 + 1)) by nia.
    assert (D1 * (q2 + 1) * D2 <= A1 * D2) by nia.
    assert (A2 * D1 < D2 * (q2 + 1) * D1) by nia.
    lia. }
  destruct (Z.eq_dec q1 q2) as [Heq|Hne]; [|lia].
  subst q2.
  assert (r1 * D2 <= r2 * D1) as Hr by nia.
  unfold rne. rewrite <- Heqq1, <- Heqr1, <- Heq, <- Heqr2.
  destruct (Z.ltb_spec (2 * r1) D1) as [Ha|Ha].
  - destruct (2 * r2 <? D2), (D2 <? 2 * r2), (Z.even q1); lia.
  - destruct (Z.ltb_spec D1 (2 * r1)) as [Hb|Hb].
    + assert (D2 < 2 * r2) by nia.
      destruct (Z.ltb_spec (2 * r2) D2); [lia|].
      destruct (Z.ltb_spec D2 (2 * r2)); lia.
    + assert (2 * r1 = D1) as Hh by lia.
      assert (D2 <= 2 * r2) by nia.
      destruct (Z.ltb_spec (2 * r2) D2); [lia|].
      destruct (Z.ltb_spec D2 (2 * r2)); destruct (Z.even q1); lia.
Qed.
End RneMono.

Section Values.


Lemma valid_finite_inv s m e :
  valid_binary 24 128 (S754_finite s m e) = true ->
  -149 <= e <= 104 /\ Z.pos (digits2_pos m) <= 24
  /\ (e = -149 \/ Z.pos (digits2_pos m) = 24).
Proof.
  unfold valid_binary, bounded, canonical_mantissa.
  rewrite andb_true_iff, Z.eqb_eq, Z.leb_le, fexp32_eq. simpl (128 - 24). lia.
Qed.

Lemma valid_finite_intro s m e :
  -149 <= e <= 104 -> Z.pos (digits2_pos m) <= 24 ->
  (e = -149 \/ Z.pos (digits2_pos m) = 24) ->
  valid_binary 24 128 (S754_finite s m e) = true.
Proof.
  intros. unfold valid_binary, bounded, canonical_mantissa.
  rewrite andb_true_iff, Z.eqb_eq, Z.leb_le, fexp32_eq. simpl (128 - 24). lia.
Qed.

(** On mantissas of the format the order by exponent, then mantissa, is the
    order of the values. *)
Lemma valid_order m1 e1 m2 e2 :
  valid_binary 24 128 (S754_finite false m1 e1) = true ->
  valid_binary 24 128 (S754_finite false m2 e2) = true ->
  e1 < e2 -> Z.pos m1 * 2 ^ (e1 + 149) < Z.pos m2 * 2 ^ (e2 + 149).
Proof.
  intros V1 V2 Hlt.
  apply valid_finite_inv in V1 as (He1 & Hd1 & _).
  apply valid_finite_inv in V2 as (He2 & Hd2 & Hn2).
  assert (Z.pos (digits2_pos m2) = 24) as Hd by lia.
  pose proof (digits2_pos_bounds m1) as [_ Hu].
  pose proof (digits2_pos_bounds m2) as [Hl _]. rewrite Hd in Hl.
  assert (Z.pos m1 < 2 ^ 24).
  { eapply Z.lt_le_trans; [done|]. apply Z.pow_le_mono_r; lia. }
  assert (2 ^ (e2 + 149) = 2 ^ (e2 - e1) * 2 ^ (e1 + 149)) as E.
  { rewrite <- Z.pow_add_r by lia. f_equal. lia. }
  assert (2 <= 2 ^ (e2 - e1)).
  { change 2 with (2 ^ 1) at 1. apply Z.pow_le_mono_r; lia. }
  pose proof (pow2_pos (e1 + 149) ltac:(lia)).
  rewrite E. simpl (24 - 1) in Hl. 
  assert (Z.pos m1 * 2 ^ (e1 + 149) < 2 ^ 24 * 2 ^ (e1 + 149)) by nia.
  assert (2 ^ 24 * 2 ^ (e1 + 149) <= Z.pos m2 * (2 ^ (e2 - e1) * 2 ^ (e1 + 149))); [|lia].
  replace (2 ^ 24) with (2 ^ 23 * 2) by reflexivity. nia.
Qed.

Lemma valid_finite_val_bound s m e :
  valid_binary 24 128 (S754_finite s m e) = true ->
  0 < Z.pos m * 2 ^ (e + 149) < 2 ^ 300.
Proof.
  intros V. apply valid_finite_inv in V as (He & Hd & _).
  pose proof (digits2_pos_bounds m) as [_ Hu].
  assert (Z.pos m < 2 ^ 24).
  { eapply Z.lt_le_trans; [done|]. apply Z.pow_le_mono_r; lia. }
  pose proof (pow2_pos (e + 149) ltac:(lia)).
  assert (2 ^ (e + 149) <= 2 ^ 253) by (apply Z.pow_le_mono_r; lia).
  split; [lia|].
  replace (2 ^ 300) with (2 ^ 24 * 2 ^ 276) by reflexivity.
  assert (2 ^ 253 < 2 ^ 276) by reflexivity. nia.
Qed.

Lemma pos_compare_cont_eq m1 m2 : Pos.compare_cont Eq m1 m2 = (Z.pos m1 ?= Z.pos m2).
Proof. reflexivity. Qed.

Lemma SFcompare_valid x y :
  valid_binary 24 128 x = true -> valid_binary 24 128 y = true ->
  is_nan x = false -> is_nan y = false ->
  SFcompare x y = Some (Bval x ?= Bval y).
Proof.
  intros Vx Vy Nx Ny.
  assert (0 < 2 ^ 300) as Hinf by reflexivity.
  destruct x as [sx|sx| |sx mx ex], y as [sy|sy| |sy my ey]; try done;
    try pose proof (valid_finite_val_bound _ _ _ Vx) as Bx;
    try pose proof (valid_finite_val_bound _ _ _ Vy) as By;
    unfold SFcompare, Bval.
  all: try (destruct sx; try destruct sy; f_equal; symmetry;
            first [apply Z.compare_eq_iff; lia|apply Z.compare_lt_iff; lia
                  |apply Z.compare_gt_iff; lia]).
  all: try (destruct sy; f_equal; symmetry;
            first [apply Z.compare_eq_iff; lia|apply Z.compare_lt_iff; lia
                  |apply Z.compare_gt_iff; lia]).
  assert (valid_binary 24 128 (S754_finite false mx ex) = true) as Vx' by done.
  assert (valid_binary 24 128 (S754_finite false my ey) = true) as Vy' by done.
  destruct sx, sy; f_equal.
  + destruct (Z.compare_spec ex ey) as [->|Hlt|Hgt].
    * rewrite pos_compare_cont_eq.
      pose proof (pow2_pos (ey + 149) ltac:(apply valid_finite_inv in Vy; lia)).
      destruct (Z.compare_spec (Z.pos mx) (Z.pos my)); simpl CompOpp; symmetry;
        first [apply Z.compare_eq_iff; nia|apply Z.compare_lt_iff; nia
              |apply Z.compare_gt_iff; nia].
    * pose proof (valid_order _ _ _ _ Vx' Vy' Hlt).
      symmetry. apply Z.compare_gt_iff. lia.
    * pose proof (valid_order _ _ _ _ Vy' Vx' ltac:(lia)).
      symmetry. apply Z.compare_lt_iff. lia.
  + symmetry. apply Z.compare_lt_iff. lia.
  + symmetry. apply Z.compare_gt_iff. lia.
  + destruct (Z.compare_spec ex ey) as [->|Hlt|Hgt].
    * rewrite pos_compare_cont_eq.
      pose proof (pow2_pos (ey + 149) ltac:(apply valid_finite_inv in Vy; lia)).
      destruct (Z.compare_spec (Z.pos mx) (Z.pos my)); symmetry;
        first [apply Z.compare_eq_iff; nia|apply Z.compare_lt_iff; nia
              |apply Z.compare_gt_iff; nia].
    * pose proof (valid_order _ _ _ _ Vx' Vy' Hlt).
      symmetry. apply Z.compare_lt_iff. lia.
    * pose proof (valid_order _ _ _ _ Vy' Vx' ltac:(lia)).
      symmetry. apply Z.compare_gt_iff. lia.
Qed.

Lemma SFleb_valid x y :
  valid_binary 24 128 x = true -> valid_binary 24 128 y = true ->
  is_nan x = false -> is_nan y = false ->
  SFleb x y = (Bval x <=? Bval y).
Proof.
  intros. unfold SFleb. rewrite SFcompare_valid by done.
  unfold Z.leb. by destruct (Bval x ?= Bval y).
Qed.

Lemma SFltb_valid x y :
  valid_binary 24 128 x = true -> valid_binary 24 128 y = true ->
  is_nan x = false -> is_nan y = false ->
  SFltb x y = (Bval x <? Bval y).
Proof.
  intros. unfold SFltb. rewrite SFcompare_valid by done.
  unfold Z.ltb. by destruct (Bval x ?= Bval y).
Qed.
End Values.

Section Rounded.

Lemma pow2_split a b : 0 <= a -> 0 <= b -> 2 ^ (a + b) = 2 ^ a * 2 ^ b.
Proof. intros. by rewrite Z.pow_add_r. Qed.

Lemma digits_of_range m :
  2 ^ 23 <= Z.pos m < 2 ^ 24 -> Z.pos (digits2_pos m) = 24.
Proof.
  intros H. change (Z.pos (digits2_pos m)) with (Zdigits2 (Z.pos m)).
  apply Zdigits2_unique; [lia|]. simpl (24 - 1). lia.
Qed.

Lemma digits_le_24 m : Z.pos m < 2 ^ 24 -> Z.pos (digits2_pos m) <= 24.
Proof.
  intros H. pose proof (digits2_pos_bounds m) as [Hl _].
  destruct (Z_le_gt_dec (Z.pos (digits2_pos m)) 24); [done|].
  assert (2 ^ 24 <= 2 ^ (Z.pos (digits2_pos m) - 1)) by (apply Z.pow_le_mono_r; lia).
  lia.
Qed.

Lemma rounded_valid s m E :
  -149 <= E -> 0 <= m <= 2 ^ 24 -> (-149 < E -> 2 ^ 23 <= m) ->
  valid_binary 24 128 (rounded s m E) = true /\ is_nan (rounded s m E) = false.
Proof.
  intros HE Hm Hn. unfold rounded.
  destruct (Z.ltb_spec m (2 ^ 24)) as [Hlt|Hge].
  - destruct m as [|p|p]; [done| |lia]. unfold b32_make.
    destruct (Z.leb_spec E 104); [|done]. split; [|done].
    apply valid_finite_intro; [lia|by apply digits_le_24|].
    destruct (Z.eq_dec E (-149)); [by left|right].
    apply digits_of_range. lia.
  - unfold b32_make. change (2 ^ 23) with (Z.pos 8388608).
    destruct (Z.leb_spec (E + 1) 104); [|done]. split; [|done].
    apply valid_finite_intro; [lia|done|by right].
Qed.

Lemma Bval_rounded m E :
  -149 <= E -> 0 <= m <= 2 ^ 24 -> (-149 < E -> 2 ^ 23 <= m) ->
  Bval (rounded false m E)
  = if m * 2 ^ (E + 149) <? 2 ^ 277 then m * 2 ^ (E + 149) else 2 ^ 300.
Proof.
  intros HE Hm Hn. unfold rounded.
  pose proof (pow2_pos (E + 149) ltac:(lia)) as Hp.
  assert (2 ^ 277 = 2 ^ 24 * 2 ^ 253) as E277 by reflexivity.
  destruct (Z.ltb_spec m (2 ^ 24)) as [Hlt|Hge].
  - destruct m as [|p|p]; [done| |lia]. unfold b32_make.
    destruct (Z.leb_spec E 104) as [Hf|Hinf]; unfold Bval.
    + assert (2 ^ (E + 149) <= 2 ^ 253) by (apply Z.pow_le_mono_r; lia).
      destruct (Z.ltb_spec (Z.pos p * 2 ^ (E + 149)) (2 ^ 277)); [lia|nia].
    + assert (2 ^ 254 <= 2 ^ (E + 149)) by (apply Z.pow_le_mono_r; lia).
      assert (2 ^ 23 <= Z.pos p) by lia.
      assert (2 ^ 277 = 2 ^ 23 * 2 ^ 254) as E277' by reflexivity.
      destruct (Z.ltb_spec (Z.pos p * 2 ^ (E + 149)) (2 ^ 277)); [nia|done].
  - assert (m = 2 ^ 24) as -> by lia.
    unfold b32_make. change (2 ^ 23) with (Z.pos 8388608).
    assert (2 ^ (E + 1 + 149) = 2 * 2 ^ (E + 149)) as Es.
    { replace (E + 1 + 149) with (Z.succ (E + 149)) by lia.
      rewrite Z.pow_succ_r by lia. done. }
    destruct (Z.leb_spec (E + 1) 104) as [Hf|Hinf]; unfold Bval.
    + assert (2 ^ (E + 149) <= 2 ^ 252) by (apply Z.pow_le_mono_r; lia).
      assert (2 ^ 253 = 2 * 2 ^ 252) by reflexivity.
      rewrite Es. change (Z.pos 8388608) with (2 ^ 23).
      assert (2 ^ 24 = 2 ^ 23 * 2) as E24 by reflexivity.
      destruct (Z.ltb_spec (2 ^ 24 * 2 ^ (E + 149)) (2 ^ 277)); [lia|nia].
    + assert (2 ^ 253 <= 2 ^ (E + 149)) by (apply Z.pow_le_mono_r; lia).
      destruct (Z.ltb_spec (2 ^ 24 * 2 ^ (E + 149)) (2 ^ 277)); [nia|done].
Qed.

Lemma rounded_mono m1 E1 m2 E2 :
  -149 <= E1 <= E2 ->
  0 <= m1 <= 2 ^ 24 -> 0 <= m2 <= 2 ^ 24 ->
  (-149 < E1 -> 2 ^ 23 <= m1) -> (-149 < E2 -> 2 ^ 23 <= m2) ->
  (E1 = E2 -> m1 <= m2) ->
  Bval (rounded false m1 E1) <= Bval (rounded false m2 E2).
Proof.
  intros HE Hm1 Hm2 Hn1 Hn2 Heq.
  rewrite !Bval_rounded by (done || lia).
  pose proof (pow2_pos (E1 + 149) ltac:(lia)) as Hp1.
  pose proof (pow2_pos (E2 + 149) ltac:(lia)) as Hp2.
  assert (m1 * 2 ^ (E1 + 149) <= m2 * 2 ^ (E2 + 149)) as HV.
  { destruct (Z.eq_dec E1 E2) as [->|Hne]; [specialize (Heq eq_refl); nia|].
    assert (2 ^ (E2 + 149) = 2 ^ (E2 - E1) * 2 ^ (E1 + 149)) as Es.
    { rewrite <- Z.pow_add_r by lia. f_equal. lia. }
    assert (2 <= 2 ^ (E2 - E1)).
    { change 2 with (2 ^ 1) at 1. apply Z.pow_le_mono_r; lia. }
    assert (2 ^ 23 <= m2) by (apply Hn2; lia).
    assert (2 ^ 24 = 2 ^ 23 * 2) as E24 by reflexivity.
    rewrite Es.
    assert (m1 * 2 ^ (E1 + 149) <= 2 ^ 24 * 2 ^ (E1 + 149)) by nia.
    assert (2 ^ 23 * 2 * 2 ^ (E1 + 149) <= m2 * (2 ^ (E2 - E1) * 2 ^ (E1 + 149))) by nia.
    lia. }
  assert (2 ^ 277 < 2 ^ 300) by reflexivity.
  destruct (Z.ltb_spec (m1 * 2 ^ (E1 + 149)) (2 ^ 277)),
    (Z.ltb_spec (m2 * 2 ^ (E2 + 149)) (2 ^ 277)); lia.
Qed.
End Rounded.

Section RoundAux.

Lemma round_input_mx A B mx ex lx : round_input A B mx ex lx -> mx = A / B /\ 0 <= mx.
Proof.
  intros (HA & HB & (Hm & _) & _). rewrite shr_record_of_loc_m in Hm.
  split; [done|]. subst. apply Z.div_pos; lia.
Qed.

Lemma binary_round_aux_rounded s A B mx ex lx :
  round_input A B mx ex lx ->
  let E := fexp 24 128 (Zdigits2 mx + ex) in
  let m := rne A (B * 2 ^ (E - ex)) in
  binary_round_aux 24 128 s mx ex lx = rounded s m E
  /\ -149 <= E /\ 0 <= m <= 2 ^ 24 /\ (-149 < E -> 2 ^ 23 <= m).
Proof.
  intros (HA & HB & Hl & Hex) E m.
  destruct (binary_round_aux_spec s A B mx ex lx HA HB Hl Hex) as (H1 & H2 & H3).
  split; [done|]. split; [|done]. unfold E. rewrite fexp32_eq. lia.
Qed.

Lemma binary_round_aux_valid s A B mx ex lx :
  round_input A B mx ex lx ->
  valid_binary 24 128 (binary_round_aux 24 128 s mx ex lx) = true
  /\ is_nan (binary_round_aux 24 128 s mx ex lx) = false.
Proof.
  intros Hin. destruct (binary_round_aux_rounded s _ _ _ _ _ Hin) as (-> & HE & Hm & Hn).
  by apply rounded_valid.
Qed.

(** The exponent the format gives grows with the number. *)
Lemma round_exponent_mono A1 B1 mx1 ex1 lx1 A2 B2 mx2 ex2 lx2 :
  round_input A1 B1 mx1 ex1 lx1 -> round_input A2 B2 mx2 ex2 lx2 ->
  -300 <= ex1 -> -300 <= ex2 ->
  A1 * 2 ^ (ex1 + 300) * B2 <= A2 * 2 ^ (ex2 + 300) * B1 ->
  fexp 24 128 (Zdigits2 mx1 + ex1) <= fexp 24 128 (Zdigits2 mx2 + ex2).
Proof.
  intros I1 I2 He1 He2 Hle.
  destruct (round_input_mx _ _ _ _ _ I1) as [Hmx1 Hp1].
  destruct (round_input_mx _ _ _ _ _ I2) as [Hmx2 Hp2].
  destruct I1 as (HA1 & HB1 & _ & Hx1). destruct I2 as (HA2 & HB2 & _ & Hx2).
  rewrite !fexp32_eq in *.
  pose proof (pow2_pos (ex1 + 300) ltac:(lia)) as P1.
  pose proof (pow2_pos (ex2 + 300) ltac:(lia)) as P2.
  pose proof (Z.div_mod A1 B1 ltac:(lia)) as D1. rewrite <- Hmx1 in D1.
  pose proof (Z.div_mod A2 B2 ltac:(lia)) as D2. rewrite <- Hmx2 in D2.
  pose proof (Z.mod_pos_bound A1 B1 HB1) as R1.
  pose proof (Z.mod_pos_bound A2 B2 HB2) as R2.
  destruct (Z.eq_dec mx1 0) as [->|N1].
  { simpl Zdigits2 in *. lia. }
  pose proof (Zdigits2_bounds mx1 ltac:(lia)) as [L1 _].
  pose proof (Zdigits2_pos mx1 ltac:(lia)) as Dp1.
  (* 2^(d1-1) * 2^(ex1+300) * B1 * B2 <= A1 * 2^(ex1+300) * B2 *)
  assert (2 ^ (Zdigits2 mx1 - 1) * 2 ^ (ex1 + 300) * B1 * B2
          <= A2 * 2 ^ (ex2 + 300) * B1) as Hlow.
  { eapply Z.le_trans; [|done].
    assert (2 ^ (Zdigits2 mx1 - 1) * B1 <= A1) by nia.
    pose proof (pow2_pos (Zdigits2 mx1 - 1) ltac:(lia)).
    assert (0 < 2 ^ (ex1 + 300) * B2) by nia.
    nia. }
  assert (2 ^ (Zdigits2 mx1 - 1) * 2 ^ (ex1 + 300) * B2 <= A2 * 2 ^ (ex2 + 300)) as Hlow'.
  { apply (Z.mul_le_mono_pos_r _ _ B1); [done|]. lia. }
  rewrite <- Z.pow_add_r in Hlow' by lia.
  destruct (Z.eq_dec mx2 0) as [->|N2].
  - (* the second number is below 2^ex2 *)
    simpl Zdigits2 in *.
    assert (A2 < B2) by lia.
    assert (2 ^ (Zdigits2 mx1 - 1 + (ex1 + 300)) < 2 ^ (ex2 + 300)) as Hpw.
    { pose proof (pow2_pos (Zdigits2 mx1 - 1 + (ex1 + 300)) ltac:(lia)). nia. }
    apply Z.pow_lt_mono_r_iff in Hpw; lia.
  - pose proof (Zdigits2_bounds mx2 ltac:(lia)) as [_ U2].
    pose proof (Zdigits2_pos mx2 ltac:(lia)) as Dp2.
    assert (A2 < 2 ^ Zdigits2 mx2 * B2) by nia.
    assert (2 ^ (Zdigits2 mx1 - 1 + (ex1 + 300)) < 2 ^ (Zdigits2 mx2 + (ex2 + 300))) as Hpw.
    { rewrite (Z.pow_add_r 2 (Zdigits2 mx2)) by lia.
      pose proof (pow2_pos (Zdigits2 mx1 - 1 + (ex1 + 300)) ltac:(lia)).
      pose proof (pow2_pos (Zdigits2 mx2) ltac:(lia)).
      nia. }
    apply Z.pow_lt_mono_r_iff in Hpw; lia.
Qed.

(** Rounding is monotone. *)
Lemma binary_round_aux_mono A1 B1 mx1 ex1 lx1 A2 B2 mx2 ex2 lx2 :
  round_input A1 B1 mx1 ex1 lx1 -> round_input A2 B2 mx2 ex2 lx2 ->
  -300 <= ex1 -> -300 <= ex2 ->
  A1 * 2 ^ (ex1 + 300) * B2 <= A2 * 2 ^ (ex2 + 300) * B1 ->
  SFleb (binary_round_aux 24 128 false mx1 ex1 lx1)
        (binary_round_aux 24 128 false mx2 ex2 lx2) = true.
Proof.
  intros I1 I2 He1 He2 Hle.
  pose proof (round_exponent_mono _ _ _ _ _ _ _ _ _ _ I1 I2 He1 He2 Hle) as HE.
  destruct (binary_round_aux_valid false _ _ _ _ _ I1) as [V1 N1].
  destruct (binary_round_aux_valid false _ _ _ _ _ I2) as [V2 N2].
  rewrite SFleb_valid by done. apply Z.leb_le.
  destruct (binary_round_aux_rounded false _ _ _ _ _ I1) as (-> & HE1 & Hm1 & Hn1).
  destruct (binary_round_aux_rounded false _ _ _ _ _ I2) as (-> & HE2 & Hm2 & Hn2).
  apply rounded_mono; try done.
  intros Heq. destruct I1 as (HA1 & HB1 & _ & Hx1). destruct I2 as (HA2 & HB2 & _ & Hx2).
  set (E := fexp 24 128 (Zdigits2 mx2 + ex2)) in *. rewrite Heq in *.
  pose proof (pow2_pos (E - ex1) ltac:(lia)) as Q1.
  pose proof (pow2_pos (E - ex2) ltac:(lia)) as Q2.
  pose proof (pow2_pos (ex1 + 300) ltac:(lia)) as P1.
  pose proof (pow2_pos (ex2 + 300) ltac:(lia)) as P2.
  apply rne_mono; [nia|nia|].
  assert (2 ^ (ex1 + 300) * 2 ^ (E - ex1) = 2 ^ (ex2 + 300) * 2 ^ (E - ex2)) as Hc.
  { rewrite <- !Z.pow_add_r by lia. f_equal. lia. }
  apply (Z.mul_le_mono_pos_r _ _ (2 ^ (ex1 + 300) * 2 ^ (E - ex1))); [nia|].
  rewrite Hc at 2.
  replace (A1 * (B2 * 2 ^ (E - ex2)) * (2 ^ (ex1 + 300) * 2 ^ (E - ex1)))
    with (A1 * 2 ^ (ex1 + 300) * B2 * (2 ^ (E - ex1) * 2 ^ (E - ex2))) by ring.
  replace (A2 * (B1 * 2 ^ (E - ex1)) * (2 ^ (ex2 + 300) * 2 ^ (E - ex2)))
    with (A2 * 2 ^ (ex2 + 300) * B1 * (2 ^ (E - ex1) * 2 ^ (E - ex2))) by ring.
  apply Z.mul_le_mono_nonneg_r; [nia|done].
Qed.
End RoundAux.

Section BinaryRound.
Lemma iter_xO_spec d : forall m, Z.pos (Pos.iter xO m d) = Z.pos m * 2 ^ Z.pos d.
Proof.
  induction d as [|d IH] using Pos.peano_ind; intros m.
  - simpl. lia.
  - rewrite Pos.iter_succ, Pos2Z.inj_succ, Z.pow_succ_r by lia.
    rewrite Pos2Z.inj_xO, IH. lia.
Qed.

Lemma shl_align_spec mx ex ex' :
  snd (shl_align mx ex ex') = Z.min ex ex'
  /\ Z.pos (fst (shl_align mx ex ex')) = Z.pos mx * 2 ^ (ex - Z.min ex ex').
Proof.
  unfold shl_align. destruct (ex' - ex) as [|d|d] eqn:E; cbn [fst snd].
  - replace (Z.min ex ex') with ex by lia. rewrite Z.sub_diag. lia.
  - replace (Z.min ex ex') with ex by lia. rewrite Z.sub_diag. lia.
  - replace (Z.min ex ex') with ex' by lia. rewrite iter_xO_spec.
    split; [done|]. do 2 f_equal. lia.
Qed.

Lemma Zdigits2_shift m k : 0 < m -> 0 <= k -> Zdigits2 (m * 2 ^ k) = Zdigits2 m + k.
Proof.
  intros Hm Hk. pose proof (Zdigits2_bounds m Hm) as [H1 H2].
  pose proof (Zdigits2_pos m Hm). pose proof (pow2_pos k Hk).
  apply Zdigits2_unique; [nia|].
  replace (Zdigits2 m + k - 1) with (Zdigits2 m - 1 + k) by lia.
  rewrite !Z.pow_add_r by lia. nia.
Qed.

Lemma fexp32_mono a b : a <= b -> fexp 24 128 a <= fexp 24 128 b.
Proof. rewrite !fexp32_eq. lia. Qed.

Lemma located_exact m : located m 1 (shr_record_of_loc m loc_Exact).
Proof.
  unfold located. simpl. rewrite Z.div_1_r, Z.mod_1_r. done.
Qed.

(** [binary_round] rounds [mx * 2 ^ ex]. *)
Lemma binary_round_input s mx ex :
  exists mz ez,
    binary_round 24 128 s mx ex = binary_round_aux 24 128 s (Z.pos mz) ez loc_Exact
    /\ round_input (Z.pos mz) 1 (Z.pos mz) ez loc_Exact
    /\ ez = Z.min ex (fexp 24 128 (Z.pos (digits2_pos mx) + ex))
    /\ Z.pos mz = Z.pos mx * 2 ^ (ex - ez).
Proof.
  unfold binary_round.
  pose proof (shl_align_spec mx ex (fexp 24 128 (Z.pos (digits2_pos mx) + ex))) as [H1 H2].
  destruct (shl_align mx ex _) as [mz ez]. cbn [fst snd] in H1, H2.
  exists mz, ez. split; [done|]. split; [|split; [done|by rewrite H1]].
  split; [lia|]. split; [lia|]. split; [apply located_exact|].
  rewrite H2. rewrite Zdigits2_shift by lia.
  change (Zdigits2 (Z.pos mx)) with (Z.pos (digits2_pos mx)).
  rewrite <- H1.
  replace (Z.pos (digits2_pos mx) + (ex - ez) + ez) with (Z.pos (digits2_pos mx) + ex) by lia.
  lia.
Qed.

Lemma binary_round_valid s mx ex :
  valid_binary 24 128 (binary_round 24 128 s mx ex) = true
  /\ is_nan (binary_round 24 128 s mx ex) = false.
Proof.
  destruct (binary_round_input s mx ex) as (mz & ez & -> & Hin & _).
  by eapply binary_round_aux_valid.
Qed.

Lemma binary_normalize_valid m e :
  valid_binary 24 128 (binary_normalize 24 128 m e false) = true
  /\ is_nan (binary_normalize 24 128 m e false) = false.
Proof. destruct m; [done|apply binary_round_valid..]. Qed.

Lemma Bval_rounded_nonneg m E : 0 <= Bval (rounded false m E).
Proof.
  unfold rounded, b32_make.
  destruct (m <? 2 ^ 24).
  - destruct m; [done| |done]. destruct (E <=? 104); [|done]. unfold Bval.
    pose proof (Z.pow_nonneg 2 (E + 149)). lia.
  - change (2 ^ 23) with (Z.pos 8388608). destruct (E + 1 <=? 104); [|done].
    unfold Bval. pose proof (Z.pow_nonneg 2 (E + 1 + 149)). lia.
Qed.

Lemma binary_round_aux_nonneg A B mx ex lx :
  round_input A B mx ex lx -> 0 <= Bval (binary_round_aux 24 128 false mx ex lx).
Proof.
  intros Hin. destruct (binary_round_aux_rounded false _ _ _ _ _ Hin) as (-> & _).
  apply Bval_rounded_nonneg.
Qed.

Lemma binary_round_nonneg mx ex : 0 <= Bval (binary_round 24 128 false mx ex).
Proof.
  destruct (binary_round_input false mx ex) as (mz & ez & -> & Hin & _).
  by eapply binary_round_aux_nonneg.
Qed.

(** [binary_round] is monotone in the number it rounds. *)
Lemma binary_round_mono m1 e1 m2 e2 :
  -150 <= e1 -> -150 <= e2 ->
  Z.pos m1 * 2 ^ (e1 + 300) <= Z.pos m2 * 2 ^ (e2 + 300) ->
  SFleb (binary_round 24 128 false m1 e1) (binary_round 24 128 false m2 e2) = true.
Proof.
  intros He1 He2 Hle.
  destruct (binary_round_input false m1 e1) as (mz1 & ez1 & -> & Hin1 & Hz1 & Hm1).
  destruct (binary_round_input false m2 e2) as (mz2 & ez2 & -> & Hin2 & Hz2 & Hm2).
  rewrite fexp32_eq in Hz1, Hz2.
  eapply binary_round_aux_mono; try done; try lia.
  rewrite Hm1, Hm2, !Z.mul_1_r.
  rewrite <- !Z.mul_assoc, <- !Z.pow_add_r by lia.
  replace (e1 - ez1 + (ez1 + 300)) with (e1 + 300) by lia.
  replace (e2 - ez2 + (ez2 + 300)) with (e2 + 300) by lia. done.
Qed.

(** Rounding a value of the format gives it back. *)
Lemma binary_round_aux_canonical m e :
  valid_binary 24 128 (S754_finite false m e) = true ->
  binary_round_aux 24 128 false (Z.pos m) e loc_Exact = S754_finite false m e
  /\ round_input (Z.pos m) 1 (Z.pos m) e loc_Exact.
Proof.
  intros Hv. destruct (valid_finite_inv _ _ _ Hv) as (He & Hd & Hc).
  assert (fexp 24 128 (Zdigits2 (Z.pos m) + e) = e) as Hfe.
  { rewrite fexp32_eq. simpl Zdigits2. lia. }
  assert (round_input (Z.pos m) 1 (Z.pos m) e loc_Exact) as Hin.
  { split; [lia|]. split; [lia|]. split; [apply located_exact|]. lia. }
  split; [|done].
  destruct (binary_round_aux_rounded false _ _ _ _ _ Hin) as (-> & _).
  rewrite Hfe, Z.sub_diag. change (1 * 2 ^ 0) with 1.
  assert (rne (Z.pos m) 1 = Z.pos m) as ->.
  { unfold rne. rewrite Z.div_1_r, Z.mod_1_r. done. }
  unfold rounded, b32_make.
  pose proof (digits2_pos_bounds m) as [_ Hu].
  assert (2 ^ Z.pos (digits2_pos m) <= 2 ^ 24) by (apply Z.pow_le_mono_r; lia).
  destruct (Z.ltb_spec (Z.pos m) (2 ^ 24)); [|lia].
  destruct (Z.leb_spec e 104); [done|lia].
Qed.
End BinaryRound.

Section Division.
Lemma new_location_located A B :
  0 <= A -> 0 < B ->
  located A B (shr_record_of_loc (A / B) (new_location B (A mod B))).
Proof.
  intros HA HB. pose proof (Z.mod_pos_bound A B HB) as Hr.
  unfold located, new_location. remember (A mod B) as k eqn:Ek. clear Ek.
  destruct (Z.even B) eqn:Ev.
  - unfold new_location_even. destruct (Z.eqb_spec k 0) as [->|Hk].
    + cbn [shr_record_of_loc shr_m shr_r shr_s]. split; [done|]. split; [|done]. symmetry. apply Z.leb_gt. lia.
    + destruct (Z.compare_spec (2 * k) B) as [E|E|E]; cbn [shr_record_of_loc shr_m shr_r shr_s];
        (split; [done|]); split.
      * symmetry. apply Z.leb_le. lia.
      * rewrite E, Z.eqb_refl, orb_true_r. done.
      * symmetry. apply Z.leb_gt. lia.
      * destruct (Z.eqb_spec k 0), (Z.eqb_spec (2 * k) B); try lia; done.
      * symmetry. apply Z.leb_le. lia.
      * destruct (Z.eqb_spec k 0), (Z.eqb_spec (2 * k) B); try lia; done.
  - assert (2 * k <> B) as Hodd.
    { intros E. rewrite <- E, Z.even_mul in Ev. done. }
    unfold new_location_odd. destruct (Z.eqb_spec k 0) as [->|Hk].
    + cbn [shr_record_of_loc shr_m shr_r shr_s]. split; [done|]. split; [|done]. symmetry. apply Z.leb_gt. lia.
    + destruct (Z.compare_spec (2 * k + 1) B) as [E|E|E]; cbn [shr_record_of_loc shr_m shr_r shr_s];
        (split; [done|]); split.
      * symmetry. apply Z.leb_gt. lia.
      * destruct (Z.eqb_spec k 0), (Z.eqb_spec (2 * k) B); try lia; done.
      * symmetry. apply Z.leb_gt. lia.
      * destruct (Z.eqb_spec k 0), (Z.eqb_spec (2 * k) B); try lia; done.
      * symmetry. apply Z.leb_le. lia.
      * destruct (Z.eqb_spec k 0), (Z.eqb_spec (2 * k) B); try lia; done.
Qed.

Lemma div_eucl_eq a b : Z.div_eucl a b = (a / b, a mod b).
Proof. unfold Z.div, Z.modulo. by destruct (Z.div_eucl a b). Qed.

(** What [SFdiv_core_binary] hands to the rounding: [mx * 2 ^ s / my] at
    the exponent [ex - ey - s], for a shift [s >= 0]. *)
Lemma SFdiv_core_input mx ex my ey :
  exists s,
    0 <= s
    /\ ex - ey - s = Z.min (fexp 24 128 (Zdigits2 (Z.pos mx) + ex - (Zdigits2 (Z.pos my) + ey))) (ex - ey)
    /\ SFdiv_core_binary 24 128 (Z.pos mx) ex (Z.pos my) ey
       = ((Z.pos mx * 2 ^ s) / Z.pos my, ex - ey - s,
          new_location (Z.pos my) ((Z.pos mx * 2 ^ s) mod Z.pos my))
    /\ round_input (Z.pos mx * 2 ^ s) (Z.pos my) ((Z.pos mx * 2 ^ s) / Z.pos my)
         (ex - ey - s) (new_location (Z.pos my) ((Z.pos mx * 2 ^ s) mod Z.pos my)).
Proof.
  set (X := Zdigits2 (Z.pos mx) + ex - (Zdigits2 (Z.pos my) + ey)).
  set (e' := Z.min (fexp 24 128 X) (ex - ey)).
  exists (ex - ey - e').
  assert (0 <= ex - ey - e') as Hs by lia.
  split; [done|]. split; [lia|].
  assert (Z.pos mx * 2 ^ (ex - ey - e') =
          match ex - ey - e' with
          | 0 => Z.pos mx
          | Z.pos _ => Z.shiftl (Z.pos mx) (ex - ey - e')
          | Z.neg _ => 0
          end) as Hm.
  { destruct (ex - ey - e') as [|p|p] eqn:E; [lia| |lia].
    by rewrite Z.shiftl_mul_pow2. }
  split.
  - unfold SFdiv_core_binary. fold X. fold e'. rewrite <- Hm, div_eucl_eq.
    do 2 f_equal. lia.
  - pose proof (pow2_pos _ Hs) as Hp.
    split; [lia|]. split; [lia|]. split; [apply new_location_located; lia|].
    rewrite fexp32_eq.
    destruct (Z_le_gt_dec (ex - ey - (ex - ey - e')) (-149)) as [?|Hbig]; [lia|].
    assert (e' <= X - 24) as HX.
    { unfold e' in *. rewrite fexp32_eq in *. lia. }
    pose proof (digits2_pos_bounds mx) as [L1 _].
    pose proof (digits2_pos_bounds my) as [_ U2].
    change (Zdigits2 (Z.pos mx)) with (Z.pos (digits2_pos mx)) in X.
    change (Zdigits2 (Z.pos my)) with (Z.pos (digits2_pos my)) in X.
    set (d1 := Z.pos (digits2_pos mx)) in *. set (d2 := Z.pos (digits2_pos my)) in *.
    assert (2 ^ 23 <= Z.pos mx * 2 ^ (ex - ey - e') / Z.pos my) as Hq.
    { apply Z.div_le_lower_bound; [lia|].
      assert (2 ^ (d2 + 23) <= 2 ^ (d1 - 1 + (ex - ey - e'))) as Hpw
        by (apply Z.pow_le_mono_r; lia).
      rewrite !Z.pow_add_r in Hpw by lia.
      pose proof (pow2_pos (d1 - 1) ltac:(lia)).
      nia. }
    assert (0 <= 2 ^ 23) as H23 by done.
    pose proof (Zdigits2_mono (2 ^ 23) _ (conj H23 Hq)) as Hd.
    change (Zdigits2 (2 ^ 23)) with 24 in Hd. lia.
Qed.

Lemma SFdiv_valid x y :
  valid_binary 24 128 (SFdiv 24 128 x y) = true.
Proof.
  destruct x as [sx|sx| |sx mx ex], y as [sy|sy| |sy my ey]; try done.
  unfold SFdiv.
  destruct (SFdiv_core_input mx ex my ey) as (s & Hs & _ & -> & Hin).
  by eapply binary_round_aux_valid.
Qed.

(** Division by a positive value is monotone on the non-negative values. *)
Lemma SFdiv_mono_finite mx ex my ey mz ez :
  valid_binary 24 128 (S754_finite false mx ex) = true ->
  valid_binary 24 128 (S754_finite false my ey) = true ->
  valid_binary 24 128 (S754_finite false mz ez) = true ->
  Z.pos mx * 2 ^ (ex + 149) <= Z.pos my * 2 ^ (ey + 149) ->
  SFleb (SFdiv 24 128 (S754_finite false mx ex) (S754_finite false mz ez))
        (SFdiv 24 128 (S754_finite false my ey) (S754_finite false mz ez)) = true.
Proof.
  intros Vx Vy Vz Hle. unfold SFdiv.
  destruct (valid_finite_inv _ _ _ Vx) as (Hex & _).
  destruct (valid_finite_inv _ _ _ Vy) as (Hey & _).
  destruct (valid_finite_inv _ _ _ Vz) as (Hez & _).
  destruct (SFdiv_core_input mx ex mz ez) as (s1 & Hs1 & He1 & -> & Hin1).
  destruct (SFdiv_core_input my ey mz ez) as (s2 & Hs2 & He2 & -> & Hin2).
  rewrite fexp32_eq in He1, He2. simpl xorb.
  eapply binary_round_aux_mono; try done; try lia.
  rewrite <- !(Z.mul_assoc (Z.pos _) (2 ^ _) (2 ^ _)), <- !Z.pow_add_r by lia.
  replace (s1 + (ex - ez - s1 + 300)) with ((ex + 149) + (151 - ez)) by lia.
  replace (s2 + (ey - ez - s2 + 300)) with ((ey + 149) + (151 - ez)) by lia.
  rewrite (Z.pow_add_r 2 (ex + 149)), (Z.pow_add_r 2 (ey + 149)) by lia.
  pose proof (pow2_pos (151 - ez) ltac:(lia)).
  apply Z.mul_le_mono_nonneg_r; [lia|]. rewrite !Z.mul_assoc.
  apply Z.mul_le_mono_nonneg_r; [lia|done].
Qed.

Lemma SFdiv_finite_nonneg mx ex mz ez :
  0 <= Bval (SFdiv 24 128 (S754_finite false mx ex) (S754_finite false mz ez)).
Proof.
  unfold SFdiv.
  destruct (SFdiv_core_input mx ex mz ez) as (s1 & Hs1 & He1 & -> & Hin1).
  by eapply binary_round_aux_nonneg.
Qed.

Lemma SFdiv_finite_not_nan sx mx ex sz mz ez :
  is_nan (SFdiv 24 128 (S754_finite sx mx ex) (S754_finite sz mz ez)) = false.
Proof.
  unfold SFdiv.
  destruct (SFdiv_core_input mx ex mz ez) as (s1 & Hs1 & He1 & -> & Hin1).
  by eapply binary_round_aux_valid.
Qed.

Lemma Bval_le_inf x : valid_binary 24 128 x = true -> Bval x <= 2 ^ 300.
Proof.
  destruct x as [s|s| |s m e]; try done.
  - by destruct s.
  - intros V. pose proof (valid_finite_val_bound _ _ _ V). unfold Bval. destruct s; lia.
Qed.

(** A value divided by itself is one. *)
Lemma SFdiv_self m e :
  SFdiv 24 128 (S754_finite false m e) (S754_finite false m e)
  = S754_finite false 8388608 (-23).
Proof.
  unfold SFdiv.
  destruct (SFdiv_core_input m e m e) as (s & Hs & He & -> & Hin).
  replace (Zdigits2 (Z.pos m) + e - (Zdigits2 (Z.pos m) + e)) with 0 in He by lia.
  rewrite Z.sub_diag in He. change (Z.min (fexp 24 128 0) 0) with (-24) in He.
  assert (s = 24) as -> by lia.
  rewrite Z.sub_diag. rewrite (Z.mul_comm (Z.pos m)), Z.div_mul, Z.mod_mul by lia.
  assert (new_location (Z.pos m) 0 = loc_Exact) as ->.
  { unfold new_location, new_location_even, new_location_odd.
    by destruct (Z.even (Z.pos m)). }
  reflexivity.
Qed.
End Division.

Section Order.
Ltac compare_cases :=
  rewrite ?pos_compare_cont_eq;
  repeat match goal with
         | |- context [Z.compare ?a ?b] => destruct (Z.compare_spec a b)
         end;
  simpl; intros; try done; try lia.

Lemma SFleb_trans x y z : SFleb x y = true -> SFleb y z = true -> SFleb x z = true.
Proof.
  unfold SFleb, SFcompare.
  destruct x as [sx|sx| |sx mx ex], y as [sy|sy| |sy my ey], z as [sz|sz| |sz mz ez];
    try done; try destruct sx; try destruct sy; try destruct sz; try done;
    compare_cases.
Qed.

Lemma SFltb_leb_trans x y z : SFltb x y = true -> SFleb y z = true -> SFltb x z = true.
Proof.
  unfold SFltb, SFleb, SFcompare.
  destruct x as [sx|sx| |sx mx ex], y as [sy|sy| |sy my ey], z as [sz|sz| |sz mz ez];
    try done; try destruct sx; try destruct sy; try destruct sz; try done;
    compare_cases.
Qed.
End Order.

Section Conversion.
Lemma rounded_finite s m E : 0 <= m -> E < 104 -> b32_is_finite (rounded s m E) = true.
Proof.
  intros Hm HE. unfold rounded, b32_make. destruct (m <? 2 ^ 24).
  - destruct m; [done| |lia]. destruct (Z.leb_spec E 104); [done|lia].
  - change (2 ^ 23) with (Z.pos 8388608). destruct (Z.leb_spec (E + 1) 104); [done|lia].
Qed.

Lemma binary_round_finite s p :
  Z.pos p <= 2 ^ 64 -> b32_is_finite (binary_round 24 128 s p 0) = true.
Proof.
  intros Hp.
  destruct (binary_round_input s p 0) as (mz & ez & -> & Hin & Hz & Hm).
  destruct (binary_round_aux_rounded s _ _ _ _ _ Hin) as (-> & _ & Hr' & _).
  apply rounded_finite; [lia|]. rewrite Hm. rewrite fexp32_eq in Hz.
  rewrite Zdigits2_shift by lia.
  assert (0 <= Z.pos p <= 2 ^ 64) as Hr by lia.
  pose proof (Zdigits2_mono _ _ Hr) as Hd. change (Zdigits2 (2 ^ 64)) with 65 in Hd.
  rewrite fexp32_eq. lia.
Qed.

Lemma binary32_of_Z_valid a : valid_binary 24 128 (binary_normalize 24 128 a 0 false) = true.
Proof. apply binary_normalize_valid. Qed.

Lemma binary32_of_Z_finite a :
  Z.abs a <= 2 ^ 64 -> b32_is_finite (binary_normalize 24 128 a 0 false) = true.
Proof.
  destruct a as [|p|p]; [done|..]; intros Ha; apply binary_round_finite; lia.
Qed.

Lemma binary32_of_Z_mono a b :
  0 <= a <= b ->
  SFleb (binary_normalize 24 128 a 0 false) (binary_normalize 24 128 b 0 false) = true.
Proof.
  intros [Ha Hab]. destruct a as [|p|p]; [|destruct b as [|q|q]; try lia|lia].
  - destruct b as [|q|q]; [done| |lia].
    rewrite SFleb_valid; try done; try apply binary_normalize_valid.
    apply Z.leb_le. apply (binary_round_nonneg q 0).
  - apply binary_round_mono; lia.
Qed.

Lemma binary32_of_Z_pos a :
  0 < a -> SFltb (S754_zero false) (binary_normalize 24 128 a 0 false) = true.
Proof.
  intros Ha. apply (SFltb_leb_trans _ (binary_normalize 24 128 1 0 false)); [done|].
  apply binary32_of_Z_mono. lia.
Qed.
End Conversion.

Section Subtraction.
Lemma SFsub_valid x y :
  valid_binary 24 128 x = true -> valid_binary 24 128 y = true ->
  valid_binary 24 128 (SFsub 24 128 x y) = true.
Proof.
  destruct x as [sx|sx| |sx mx ex], y as [sy|sy| |sy my ey]; try done;
    try (by destruct sx, sy).
  intros _ _. apply binary_normalize_valid.
Qed.

(** A rounded number is at most a value of the format above it. *)
Lemma binary_round_le_canonical p ez m e :
  valid_binary 24 128 (S754_finite false m e) = true ->
  -150 <= ez ->
  Z.pos p * 2 ^ (ez + 300) <= Z.pos m * 2 ^ (e + 300) ->
  SFleb (binary_round 24 128 false p ez) (S754_finite false m e) = true.
Proof.
  intros Hv Hez Hle.
  destruct (valid_finite_inv _ _ _ Hv) as (He & _).
  destruct (binary_round_aux_canonical m e Hv) as [<- Hin2].
  destruct (binary_round_input false p ez) as (mz & ez' & -> & Hin1 & Hz & Hm).
  rewrite fexp32_eq in Hz.
  eapply binary_round_aux_mono; try done; try lia.
  rewrite Hm, !Z.mul_1_r, <- Z.mul_assoc, <- Z.pow_add_r by lia.
  replace (ez - ez' + (ez' + 300)) with (ez + 300) by lia. done.
Qed.

Lemma SFsub_one m e :
  valid_binary 24 128 (S754_finite false m e) = true ->
  SFleb (S754_finite false 8388608 (-23)) (S754_finite false m e) = true ->
  SFleb (S754_zero false)
        (SFsub 24 128 (S754_finite false m e) (S754_finite false 8388608 (-23))) = true
  /\ SFleb (SFsub 24 128 (S754_finite false m e) (S754_finite false 8388608 (-23)))
           (S754_finite false m e) = true.
Proof.
  intros Hv Hle.
  destruct (valid_finite_inv _ _ _ Hv) as (He & _).
  rewrite SFleb_valid in Hle by done. apply Z.leb_le in Hle.
  unfold Bval in Hle. rewrite !Z.mul_1_l in Hle.
  unfold SFsub, cond_Zopp.
  set (ez := Z.min e (-23)).
  destruct (shl_align_spec m e ez) as [_ ->].
  destruct (shl_align_spec 8388608 (-23) ez) as [_ ->].
  replace (Z.min e ez) with ez by lia. replace (Z.min (-23) ez) with ez by lia.
  set (D := Z.pos m * 2 ^ (e - ez) - 8388608 * 2 ^ (-23 - ez)).
  pose proof (pow2_pos (ez + 149) ltac:(lia)) as Hpz.
  pose proof (pow2_pos (e - ez) ltac:(lia)) as Hp1.
  pose proof (pow2_pos (-23 - ez) ltac:(lia)) as Hp2.
  assert (Z.pos m * 2 ^ (e - ez) * 2 ^ (ez + 149) = Z.pos m * 2 ^ (e + 149)) as E1.
  { rewrite <- Z.mul_assoc, <- Z.pow_add_r by lia. do 2 f_equal. lia. }
  assert (8388608 * 2 ^ (-23 - ez) * 2 ^ (ez + 149) = 8388608 * 2 ^ (-23 + 149)) as E2.
  { rewrite <- Z.mul_assoc, <- Z.pow_add_r by lia. do 2 f_equal. lia. }
  assert (0 <= D * 2 ^ (ez + 149)) as HD0.
  { unfold D. rewrite Z.mul_sub_distr_r, E1, E2. lia. }
  assert (0 <= D) as HD.
  { apply (Z.mul_le_mono_pos_r _ _ (2 ^ (ez + 149))); [done|]. lia. }
  assert (D <= Z.pos m * 2 ^ (e - ez)) as HD' by (unfold D; lia).
  destruct D as [|p|p]; [done| |lia]. cbn [binary_normalize].
  split.
  - rewrite SFleb_valid; try done; try apply binary_round_valid.
    apply Z.leb_le. apply binary_round_nonneg.
  - apply binary_round_le_canonical; [done|lia|].
    replace (e + 300) with ((e - ez) + (ez + 300)) by lia.
    rewrite (Z.pow_add_r 2 (e - ez)), Z.mul_assoc by lia.
    apply Z.mul_le_mono_nonneg_r; [|done].
    pose proof (pow2_pos (ez + 300) ltac:(lia)). lia.
Qed.
End Subtraction.

Section Binary32Laws.
Lemma positive_finite z :
  b32_is_finite z = true -> SFltb (S754_zero false) z = true ->
  exists m e, z = S754_finite false m e.
Proof. destruct z as [s|s| |[] m e]; try done. eauto. Qed.

Lemma nonneg_cases x :
  SFleb (S754_zero false) x = true ->
  (exists s, x = S754_zero s) \/ x = S754_infinity false
  \/ exists m e, x = S754_finite false m e.
Proof. destruct x as [s|[]| |[] m e]; try done; eauto. Qed.

Lemma binary32_fdiv_mono x y z :
  valid_binary 24 128 x = true -> valid_binary 24 128 y = true ->
  valid_binary 24 128 z = true ->
  b32_is_finite z = true -> SFltb (S754_zero false) z = true ->
  SFleb (S754_zero false) x = true -> SFleb x y = true ->
  SFleb (SFdiv 24 128 x z) (SFdiv 24 128 y z) = true.
Proof.
  intros Vx Vy Vz Fz Pz Px Hxy.
  destruct (positive_finite z Fz Pz) as (mz & ez & ->).
  assert (SFleb (S754_zero false) y = true) as Py by (by eapply SFleb_trans).
  destruct (nonneg_cases x Px) as [[sx ->]|[->|(mx & ex & ->)]],
    (nonneg_cases y Py) as [[sy ->]|[->|(my & ey & ->)]]; try done.
  - rewrite SFleb_valid; [|done|apply SFdiv_valid|done|apply SFdiv_finite_not_nan].
    apply Z.leb_le. apply SFdiv_finite_nonneg.
  - rewrite SFleb_valid; [|apply SFdiv_valid|done|apply SFdiv_finite_not_nan|done].
    apply Z.leb_le. apply Bval_le_inf, SFdiv_valid.
  - rewrite SFleb_valid in Hxy by done. apply Z.leb_le in Hxy.
    unfold Bval in Hxy. rewrite !Z.mul_1_l in Hxy.
    by apply SFdiv_mono_finite.
Qed.

Lemma binary32_laws : Float32Laws binary32.
Proof.
  split.
  - apply binary32_of_Z_valid.
  - apply binary32_of_Z_finite.
  - apply binary32_of_Z_mono.
  - apply binary32_of_Z_pos.
  - apply SFsub_valid.
  - intros x y _ _. apply SFdiv_valid.
  - apply SFltb_leb_trans.
  - apply SFleb_trans.
  - apply binary32_fdiv_mono.
  - intros z Fz Pz. destruct (positive_finite z Fz Pz) as (m & e & ->). done.
  - intros z Fz Pz. destruct (positive_finite z Fz Pz) as (m & e & ->).
    cbn [fdiv binary32]. rewrite SFdiv_self. done.
  - intros d Vd Fd Hd.
    assert (SFltb (S754_zero false) d = true) as Pd.
    { by apply (SFltb_leb_trans _ (S754_finite false 8388608 (-23))). }
    destruct (positive_finite d Fd Pd) as (m & e & ->).
    by apply SFsub_one.
Qed.
End Binary32Laws.

(* ===================================================================== *)
(** * Sampling in single precision

    Each of the two roundings of [pos] (the product converted to [float],
    the quotient) makes a number grow by at most one part in [2 ^ 24 - 1]:
    up to [2 ^ 23] clusters the sampled index stays below the chunk size,
    and the range path of [execute] returns. *)
(* ===================================================================== *)

Section RoundingError.
Lemma rne_upper A D : 0 < D -> 2 * (rne A D * D) <= 2 * A + D.
Proof.
  intros HD. unfold rne.
  pose proof (Z.div_mod A D ltac:(lia)) as E.
  pose proof (Z.mod_pos_bound A D HD) as R.
  destruct (Z.ltb_spec (2 * (A mod D)) D); [nia|].
  destruct (Z.ltb_spec D (2 * (A mod D))); [nia|].
  destruct (Z.even (A / D)); nia.
Qed.

(** A number rounded in the normal range grows by at most one part in
    [2 ^ 24 - 1]. *)
Lemma binary_round_aux_error A B mx ex lx :
  round_input A B mx ex lx -> -300 <= ex ->
  -149 < fexp 24 128 (Zdigits2 mx + ex) <= 103 ->
  exists m e,
    binary_round_aux 24 128 false mx ex lx = S754_finite false m e
    /\ valid_binary 24 128 (S754_finite false m e) = true
    /\ fexp 24 128 (Zdigits2 mx + ex) <= e <= fexp 24 128 (Zdigits2 mx + ex) + 1
    /\ Z.pos m * 2 ^ (e + 149) * 2 ^ 151 * B * (2 ^ 24 - 1)
       <= A * 2 ^ (ex + 300) * 2 ^ 24.
Proof.
  intros Hin Hex HE.
  destruct (binary_round_aux_valid false _ _ _ _ _ Hin) as [Hv _].
  destruct (binary_round_aux_rounded false _ _ _ _ _ Hin) as (Hr & _ & Hm & Hn).
  destruct Hin as (HA & HB & _ & Hle).
  remember (fexp 24 128 (Zdigits2 mx + ex)) as E eqn:HeqE. clear HeqE.
  (* [E] is the exponent of the result, or one below it *)
  remember (rne A (B * 2 ^ (E - ex))) as m eqn:Heqm.
  specialize (Hn ltac:(lia)).
  pose proof (pow2_pos (E - ex) ltac:(lia)) as Hp.
  pose proof (pow2_pos (ex + 300) ltac:(lia)) as Hp2.
  assert (0 < B * 2 ^ (E - ex)) as HD by nia.
  pose proof (rne_upper A _ HD) as Hu. rewrite <- Heqm in Hu. clear Heqm.
  remember (B * 2 ^ (E - ex)) as D eqn:HeqD.
  assert (m * D * (2 ^ 24 - 1) <= A * 2 ^ 24) as Hrel.
  { assert (2 ^ 24 * D <= 2 * (m * D)) as H1.
    { replace (2 ^ 24) with (2 * 2 ^ 23) by reflexivity. nia. }
    nia. }
  assert (m * 2 ^ (E + 149) * 2 ^ 151 * B * (2 ^ 24 - 1) <= A * 2 ^ (ex + 300) * 2 ^ 24) as Hfin.
  { replace (m * 2 ^ (E + 149) * 2 ^ 151 * B) with (m * D * 2 ^ (ex + 300)).
    - replace (A * 2 ^ (ex + 300) * 2 ^ 24) with (A * 2 ^ 24 * 2 ^ (ex + 300)) by ring.
      replace (m * D * 2 ^ (ex + 300) * (2 ^ 24 - 1))
        with (m * D * (2 ^ 24 - 1) * 2 ^ (ex + 300)) by ring.
      apply Z.mul_le_mono_nonneg_r; lia.
    - rewrite HeqD. rewrite <- (Z.mul_assoc m (2 ^ _) (2 ^ 151)), <- Z.pow_add_r by lia.
      replace (E + 149 + 151) with ((E - ex) + (ex + 300)) by lia.
      rewrite (Z.pow_add_r 2 (E - ex)) by lia. ring. }
  rewrite Hr in *. unfold rounded in *.
  destruct (Z.ltb_spec m (2 ^ 24)) as [Hlt|Hge].
  - unfold b32_make in *. destruct m as [|p|p] eqn:Em; [lia| |lia].
    destruct (Z.leb_spec E 104); [|lia].
    exists p, E. repeat split; try done; lia.
  - assert (m = 2 ^ 24) as Em by lia.
    unfold b32_make in *. change (2 ^ 23) with (Z.pos 8388608) in *.
    destruct (Z.leb_spec (E + 1) 104); [|lia].
    exists 8388608%positive, (E + 1). split; [done|]. split; [done|].
    split; [lia|].
    rewrite Em in Hfin.
    replace (Z.pos 8388608 * 2 ^ (E + 1 + 149)) with (2 ^ 24 * 2 ^ (E + 149)); [done|].
    replace (E + 1 + 149) with (Z.succ (E + 149)) by lia.
    rewrite Z.pow_succ_r by lia. change (2 ^ 24) with (Z.pos 8388608 * 2). ring.
Qed.

(** An integer below [2 ^ 24] converts to itself. *)
Lemma binary32_of_Z_exact k :
  0 < k < 2 ^ 24 ->
  exists m e,
    binary_normalize 24 128 k 0 false = S754_finite false m e
    /\ valid_binary 24 128 (S754_finite false m e) = true
    /\ -23 <= e <= 0
    /\ Z.pos m * 2 ^ (e + 149) = k * 2 ^ 149.
Proof.
  intros Hk. destruct k as [|p|p]; try lia. cbn [binary_normalize].
  destruct (binary_round_input false p 0) as (mz & ez & -> & Hin & Hz & Hm).
  pose proof (digits2_pos_bounds p) as [Hl Hu].
  assert (Z.pos (digits2_pos p) <= 24) as Hd by (apply digits_le_24; lia).
  rewrite fexp32_eq in Hz.
  assert (ez = Z.pos (digits2_pos p) - 24) as Hez by lia.
  assert (valid_binary 24 128 (S754_finite false mz ez) = true) as Hv.
  { apply valid_finite_intro; [lia| |right].
    - change (Z.pos (digits2_pos mz)) with (Zdigits2 (Z.pos mz)).
      rewrite Hm, Zdigits2_shift by lia. simpl Zdigits2. lia.
    - change (Z.pos (digits2_pos mz)) with (Zdigits2 (Z.pos mz)).
      rewrite Hm, Zdigits2_shift by lia. simpl Zdigits2. lia. }
  destruct (binary_round_aux_canonical mz ez Hv) as [-> _].
  exists mz, ez. split; [done|]. split; [done|]. split; [lia|].
  rewrite Hm, <- Z.mul_assoc, <- Z.pow_add_r by lia. do 2 f_equal. lia.
Qed.

(** An integer up to [2 ^ 64] converts to a float that exceeds it by at
    most one part in [2 ^ 24 - 1]. *)
Lemma binary32_of_Z_error P :
  0 < P <= 2 ^ 64 ->
  exists m e,
    binary_normalize 24 128 P 0 false = S754_finite false m e
    /\ valid_binary 24 128 (S754_finite false m e) = true
    /\ -23 <= e <= 42
    /\ Z.pos m * 2 ^ (e + 149) * (2 ^ 24 - 1) <= P * 2 ^ 149 * 2 ^ 24.
Proof.
  intros HP. destruct P as [|p|p]; try lia. cbn [binary_normalize].
  destruct (binary_round_input false p 0) as (mz & ez & -> & Hin & Hz & Hm).
  pose proof (digits2_pos_bounds p) as [Hl Hu].
  assert (0 <= Z.pos p <= 2 ^ 64) as Hr by lia.
  pose proof (Zdigits2_mono _ _ Hr) as Hd. change (Zdigits2 (2 ^ 64)) with 65 in Hd.
  simpl Zdigits2 in Hd.
  rewrite fexp32_eq in Hz.
  assert (fexp 24 128 (Zdigits2 (Z.pos mz) + ez) = Z.pos (digits2_pos p) - 24) as HE.
  { rewrite Hm, Zdigits2_shift by lia. simpl Zdigits2. rewrite fexp32_eq. lia. }
  destruct (binary_round_aux_error _ _ _ _ _ Hin) as (m & e & -> & Hv & He & Hle);
    [lia|rewrite HE; lia|].
  rewrite HE in He.
  exists m, e. split; [done|]. split; [done|]. split; [lia|].
  rewrite Z.mul_1_r, Hm in Hle.
  rewrite <- (Z.mul_assoc (Z.pos p)), <- Z.pow_add_r in Hle by lia.
  replace (0 - ez + (ez + 300)) with (149 + 151) in Hle by lia.
  rewrite (Z.pow_add_r 2 149 151) in Hle by lia.
  assert (0 < 2 ^ 151) by done.
  apply (Z.mul_le_mono_pos_r _ _ (2 ^ 151)); [done|].
  etrans; [|etrans; [exact Hle|]]; apply Z.eq_le_incl; ring.
Qed.

(** A quotient of two positive values of moderate size exceeds the exact
    quotient by at most one part in [2 ^ 24 - 1]. *)
Lemma SFdiv_error ma ea mb eb :
  valid_binary 24 128 (S754_finite false ma ea) = true ->
  valid_binary 24 128 (S754_finite false mb eb) = true ->
  -23 <= ea <= 42 -> -23 <= eb <= 0 ->
  exists m e,
    SFdiv 24 128 (S754_finite false ma ea) (S754_finite false mb eb)
    = S754_finite false m e
    /\ Z.pos m * 2 ^ (e + 149) * (Z.pos mb * 2 ^ (eb + 149)) * (2 ^ 24 - 1)
       <= Z.pos ma * 2 ^ (ea + 149) * 2 ^ 149 * 2 ^ 24.
Proof.
  intros Va Vb Hea Heb.
  destruct (valid_finite_inv _ _ _ Va) as (_ & Hda & _).
  destruct (valid_finite_inv _ _ _ Vb) as (_ & Hdb & _).
  unfold SFdiv. cbn [xorb].
  destruct (SFdiv_core_input ma ea mb eb) as (s & Hs & He' & -> & Hin).
  rewrite fexp32_eq in He'. simpl Zdigits2 in He'.
  pose proof (pow2_pos s Hs) as Hps.
  assert (-149 < fexp 24 128 (Zdigits2 (Z.pos ma * 2 ^ s / Z.pos mb) + (ea - eb - s)) <= 103)
    as HE.
  { split.
    - destruct Hin as (_ & _ & _ & Hle). lia.
    - assert (0 <= Z.pos ma * 2 ^ s / Z.pos mb <= Z.pos ma * 2 ^ s) as Hq.
      { split; [apply Z.div_pos; lia|]. apply Z.div_le_upper_bound; nia. }
      pose proof (Zdigits2_mono _ _ Hq) as Hd.
      rewrite Zdigits2_shift in Hd by lia. simpl Zdigits2 in Hd.
      rewrite fexp32_eq. lia. }
  destruct (binary_round_aux_error _ _ _ _ _ Hin) as (m & e & -> & _ & _ & Hle);
    [lia|done|].
  exists m, e. split; [done|].
  pose proof (pow2_pos (eb + 149) ltac:(lia)) as Hpb.
  assert (0 < 2 ^ 151) as H151 by done.
  apply (Z.mul_le_mono_pos_r _ _ (2 ^ 151)); [done|].
  apply (Z.mul_le_mono_nonneg_r _ _ (2 ^ (eb + 149))) in Hle; [|lia].
  assert (2 ^ s * 2 ^ (ea - eb - s + 300) * 2 ^ (eb + 149)
          = 2 ^ (ea + 149) * 2 ^ 149 * 2 ^ 151) as Hpw.
  { rewrite <- !Z.pow_add_r by lia. f_equal. lia. }
  etrans; [|etrans; [exact Hle|]]; apply Z.eq_le_incl; [ring|].
  replace (Z.pos ma * 2 ^ s * 2 ^ (ea - eb - s + 300) * 2 ^ 24 * 2 ^ (eb + 149))
    with (Z.pos ma * (2 ^ s * 2 ^ (ea - eb - s + 300) * 2 ^ (eb + 149)) * 2 ^ 24) by ring.
  rewrite Hpw. ring.
Qed.

(** The integer part of a positive float below [n]. *)
Lemma b32_trunc_lt m e n :
  -149 <= e -> Z.pos m * 2 ^ (e + 149) < n * 2 ^ 149 ->
  exists t, b32_trunc (S754_finite false m e) = Some t /\ 0 <= t < n.
Proof.
  intros He Hlt. unfold b32_trunc. eexists. split; [reflexivity|].
  assert (0 < 2 ^ 149) as H149 by done.
  destruct (Z.leb_spec 0 e).
  - pose proof (pow2_pos e ltac:(lia)). split; [lia|].
    rewrite Z.pow_add_r, Z.mul_assoc in Hlt by lia.
    apply (Z.mul_lt_mono_pos_r (2 ^ 149)); done.
  - pose proof (pow2_pos (- e) ltac:(lia)) as Hp.
    pose proof (pow2_pos (e + 149) ltac:(lia)) as Hp'.
    split; [apply Z.div_pos; lia|].
    pose proof (Z.mul_div_le (Z.pos m) (2 ^ (- e)) Hp) as Hd.
    assert (2 ^ (- e) * 2 ^ (e + 149) = 2 ^ 149) as Hpw.
    { rewrite <- Z.pow_add_r by lia. f_equal. lia. }
    apply (Z.mul_lt_mono_pos_r (2 ^ 149)); [done|].
    eapply Z.le_lt_trans; [|exact Hlt].
    rewrite <- Hpw at 1. rewrite Z.mul_assoc.
    apply Z.mul_le_mono_nonneg_r; lia.
Qed.
End RoundingError.

Section SampleIndexInRange.
Import radix_cluster_sort.

(** Up to [2 ^ 23] clusters the two roundings cannot carry the sampled
    index to the chunk size. *)
Lemma sample_index_in_range k n cluster_id :
  1 <= n <= SIZE_MAX -> 2 <= k <= 2 ^ 23 -> 0 <= cluster_id <= k - 2 ->
  exists index,
    sample_index (F := binary32) k n cluster_id = Ok index /\ 0 <= index < n.
Proof.
  unfold SIZE_MAX. intros Hn Hk Hc.
  unfold sample_index, sample_position, float_to_size_t, size_mul, size_add, size_wrap.
  rewrite (Z.mod_small (cluster_id + 1)) by lia.
  assert (0 <= (n * (cluster_id + 1)) mod 2 ^ 64 <= n * (cluster_id + 1)) as Hm.
  { apply Z.mod_bound_pos_le; lia. }
  pose proof (Z.mod_pos_bound (n * (cluster_id + 1)) (2 ^ 64) ltac:(done)) as Hw.
  remember ((n * (cluster_id + 1)) mod 2 ^ 64) as P eqn:HeqP. clear HeqP.
  cbn [of_Z fdiv ftrunc binary32].
  destruct (binary32_of_Z_exact k ltac:(lia)) as (mb & eb & -> & Vb & Heb & Hvb).
  assert (exists t, b32_trunc (SFdiv 24 128 (binary_normalize 24 128 P 0 false)
                                 (S754_finite false mb eb)) = Some t /\ 0 <= t < n)
    as (t & -> & Ht).
  { destruct (Z.eq_dec P 0) as [->|HP].
    - exists 0. split; [done|lia].
    - destruct (binary32_of_Z_error P ltac:(lia)) as (ma & ea & -> & Va & Hea & Hva).
      destruct (SFdiv_error ma ea mb eb Va Vb Hea Heb) as (m & e & Hdiv & Hle).
      assert (valid_binary 24 128 (S754_finite false m e) = true) as Vy.
      { rewrite <- Hdiv. apply SFdiv_valid. }
      rewrite Hdiv. apply b32_trunc_lt; [apply valid_finite_inv in Vy; lia|].
      rewrite Hvb in Hle.
      remember (Z.pos m * 2 ^ (e + 149)) as Vy' eqn:HeqVy. clear HeqVy.
      remember (Z.pos ma * 2 ^ (ea + 149)) as Va' eqn:HeqVa. clear HeqVa.
      assert (0 < 2 ^ 149) as H149 by done.
      remember (2 ^ 149) as U eqn:HeqU. clear HeqU.
      destruct (Z_lt_le_dec Vy' (n * U)) as [|Hge]; [done|exfalso].
      (* Vy' * k * (2^24 - 1)^2 <= P * U * 2^48 <= n (k - 1) U 2^48 *)
      assert (Vy' * k * (2 ^ 24 - 1) <= Va' * 2 ^ 24) as H1.
      { apply (Z.mul_le_mono_pos_r _ _ U); [done|].
        etrans; [|etrans; [exact Hle|]]; apply Z.eq_le_incl; ring. }
      assert (Vy' * k * ((2 ^ 24 - 1) * (2 ^ 24 - 1)) <= P * U * (2 ^ 24 * 2 ^ 24)) as H2.
      { apply Z.le_trans with (Va' * 2 ^ 24 * (2 ^ 24 - 1)).
        - replace (Vy' * k * ((2 ^ 24 - 1) * (2 ^ 24 - 1)))
            with (Vy' * k * (2 ^ 24 - 1) * (2 ^ 24 - 1)) by ring.
          apply Z.mul_le_mono_nonneg_r; [lia|exact H1].
        - replace (Va' * 2 ^ 24 * (2 ^ 24 - 1)) with (Va' * (2 ^ 24 - 1) * 2 ^ 24) by ring.
          replace (P * U * (2 ^ 24 * 2 ^ 24)) with (P * U * 2 ^ 24 * 2 ^ 24) by ring.
          apply Z.mul_le_mono_nonneg_r; [lia|exact Hva]. }
      assert (n * U * k * ((2 ^ 24 - 1) * (2 ^ 24 - 1))
              <= n * (k - 1) * U * (2 ^ 24 * 2 ^ 24)) as H3.
      { apply Z.le_trans with (Vy' * k * ((2 ^ 24 - 1) * (2 ^ 24 - 1))).
        - apply Z.mul_le_mono_nonneg_r; [lia|]. apply Z.mul_le_mono_nonneg_r; lia.
        - etrans; [exact H2|]. apply Z.mul_le_mono_nonneg_r; [lia|].
          apply Z.mul_le_mono_nonneg_r; [lia|]. nia. }
      assert (0 < n * U) as HnU by nia.
      assert (k * ((2 ^ 24 - 1) * (2 ^ 24 - 1)) <= (k - 1) * (2 ^ 24 * 2 ^ 24)) as H4.
      { apply (Z.mul_le_mono_pos_l _ _ (n * U)); [done|].
        etrans; [|etrans; [exact H3|]]; apply Z.eq_le_incl; ring. }
      change (2 ^ 24) with 16777216 in H4. change (2 ^ 23) with 8388608 in Hk. lia. }
  unfold SIZE_MAX.
  destruct (Z.leb_spec 0 t); [|lia].
  destruct (Z.leb_spec t (2 ^ 64 - 1)); [|lia].
  simpl. eauto.
Qed.
End SampleIndexInRange.

Section FoldMIn.
Context {A B : Type}.

(** A loop whose steps succeed on the elements it visits succeeds. *)
Lemma foldM_total_in (P : A -> Prop) (f : A -> B -> result A) l a :
  (forall x b, b ∈ l -> P x -> exists y, f x b = Ok y /\ P y) ->
  P a -> exists a', foldM f a l = Ok a' /\ P a'.
Proof.
  revert a. induction l as [|b l IH]; intros a Hstep Ha; simpl.
  - eauto.
  - destruct (Hstep a b ltac:(left) Ha) as (y & -> & Hy). simpl.
    apply IH; [|done]. intros x b' Hb'. apply Hstep. by right.
Qed.
End FoldMIn.

Section RangePathReturns.
Import radix_cluster_sort.
Context {Mem : Allocator}.
#[local] Existing Instance binary32.

Lemma hist_incr_nonempty v h : hist_incr v h <> [].
Proof.
  destruct h as [|[key count] h]; simpl; [done|].
  destruct (v <? key); [done|]. by destruct (v =? key).
Qed.

Lemma pick_sample_total k chunk (sample_values : list (list (Z * Z))) cluster_id :
  2 <= k <= 2 ^ 23 -> samplable chunk -> 0 <= cluster_id <= k - 2 ->
  length sample_values = Z.to_nat (k - 1) ->
  exists h sample_values',
    pick_sample k chunk sample_values cluster_id = Ok sample_values'
    /\ sample_values' = <[Z.to_nat cluster_id := h]> sample_values
    /\ h <> [].
Proof.
  intros Hk Hch Hc Hlen. unfold pick_sample.
  destruct (sample_index_in_range k (Z.of_nat (length chunk)) cluster_id Hch Hk Hc)
    as (index & -> & Hi).
  simpl.
  destruct (lookup_lt_is_Some_2 chunk (Z.to_nat index)) as [entry ->]; [lia|].
  destruct (lookup_lt_is_Some_2 sample_values (Z.to_nat cluster_id)) as [h ->]; [lia|].
  do 2 eexists. split; [done|]. split; [done|]. apply hist_incr_nonempty.
Qed.

(** The inner loop, from cluster id [m] on: the histograms of the ids it
    visits end non-empty, the others are as they were. *)
Lemma pick_samples_total k chunk (n : nat) : forall m (sample_values : list (list (Z * Z))),
  2 <= k <= 2 ^ 23 -> samplable chunk ->
  0 <= m -> m + Z.of_nat n <= k - 1 ->
  length sample_values = Z.to_nat (k - 1) ->
  exists sample_values',
    foldM (pick_sample k chunk) sample_values (seqZ m (Z.of_nat n)) = Ok sample_values'
    /\ length sample_values' = Z.to_nat (k - 1)
    /\ (forall j h, sample_values' !! j = Some h ->
          (m <= Z.of_nat j < m + Z.of_nat n -> h <> [])
          /\ (forall h0, sample_values !! j = Some h0 -> h0 <> [] -> h <> [])).
Proof.
  induction n as [|n IH]; intros m sv Hk Hch Hm Hn Hlen.
  - rewrite seqZ_nil by lia. simpl. exists sv. split; [done|]. split; [done|].
    intros j h Hj. split; [lia|]. intros h0 Hh0. by simplify_eq.
  - rewrite seqZ_cons by lia. simpl.
    destruct (pick_sample_total k chunk sv m Hk Hch ltac:(lia) Hlen)
      as (h1 & sv1 & -> & -> & Hh1).
    simpl. replace (Z.pred (Z.of_nat (S n))) with (Z.of_nat n) by lia.
    destruct (IH (Z.succ m) (<[Z.to_nat m := h1]> sv) Hk Hch ltac:(lia) ltac:(lia))
      as (sv' & -> & Hlen' & Hsv'); [by rewrite length_insert|].
    exists sv'. split; [done|]. split; [done|].
    intros j h Hj. destruct (Hsv' j h Hj) as [Hnew Hold].
    assert (Z.of_nat j = m -> h <> []) as Hat.
    { intros Hjm. apply (Hold h1); [|done].
      replace j with (Z.to_nat m) by lia.
      apply list_lookup_insert_eq. lia. }
    split.
    + intros Hr. destruct (Z.eq_dec (Z.of_nat j) m); [by apply Hat|]. apply Hnew. lia.
    + intros h0 Hh0 Hne. destruct (Z.eq_dec (Z.of_nat j) m); [by apply Hat|].
      apply (Hold h0); [|done]. rewrite list_lookup_insert_ne by lia. done.
Qed.

(** Sampling a table of samplable chunks returns; with at least one chunk,
    no histogram is left empty. *)
Lemma pick_sample_values_total k (table : list (list MaterializedValue))
    (sample_values : list (list (Z * Z))) :
  2 <= k <= 2 ^ 23 -> Forall samplable table ->
  length sample_values = Z.to_nat (k - 1) ->
  exists sample_values',
    _pick_sample_values k sample_values table = Ok sample_values'
    /\ length sample_values' = Z.to_nat (k - 1)
    /\ (Forall (fun h => h <> []) sample_values \/ table <> [] ->
        Forall (fun h => h <> []) sample_values').
Proof.
  intros Hk. unfold _pick_sample_values, size_sub, size_wrap.
  rewrite (Z.mod_small (k - 1)) by lia.
  revert sample_values. induction table as [|chunk table IH]; intros sv Ht Hlen.
  - simpl. exists sv. split; [done|]. split; [done|]. intros [?|?]; done.
  - apply Forall_cons in Ht as [Hch Ht]. simpl.
    destruct (pick_samples_total k chunk (Z.to_nat (k - 1)) 0 sv Hk Hch)
      as (sv1 & Hrun & Hlen1 & Hsv1); [lia|lia|done|].
    rewrite Z2Nat.id in Hrun by lia. rewrite Hrun. simpl.
    assert (Forall (fun h => h <> []) sv1) as Hne1.
    { apply Forall_lookup. intros j h Hj. apply (Hsv1 j h Hj).
      apply lookup_lt_Some in Hj. lia. }
    destruct (IH sv1 Ht Hlen1) as (sv' & -> & Hlen' & Hne').
    exists sv'. split; [done|]. split; [done|]. intros _. apply Hne'. by left.
Qed.

Lemma pick_split_values_total ty k (sample_values : list (list (Z * Z))) :
  2 <= k <= 2 ^ 23 ->
  length sample_values = Z.to_nat (k - 1) ->
  Forall (fun h => h <> []) sample_values ->
  exists split_values,
    pick_split_values ty k sample_values = Ok split_values
    /\ Z.of_nat (length split_values) = k - 1.
Proof.
  intros Hk Hlen Hne. unfold pick_split_values, size_sub, size_wrap.
  rewrite (Z.mod_small (k - 1)) by lia.
  apply (foldM_total_in (fun s : list Z => Z.of_nat (length s) = k - 1)).
  - intros s cluster_id Hin Hs. apply elem_of_seqZ in Hin. unfold pick_split_value.
    destruct (lookup_lt_is_Some_2 sample_values (Z.to_nat cluster_id)) as [h Hh]; [lia|].
    rewrite Hh. rewrite Forall_lookup in Hne. specialize (Hne _ _ Hh).
    destruct h as [|x h]; [done|]. simpl. eexists. split; [done|].
    by rewrite length_insert.
  - rewrite length_replicate. lia.
Qed.

(** The range path returns when the chunks can be sampled, there is one
    to sample, the clusters are at most [2 ^ 23], and the vectors of
    [k - 1] and of [k] elements can be allocated. *)
Lemma range_cluster_returns ty k schedule_left schedule_right
    (input_left input_right : list (list MaterializedValue)) :
  2 <= k <= 2 ^ 23 ->
  allocates (k - 1) = true -> allocates k = true ->
  Forall samplable input_left -> Forall samplable input_right ->
  input_left <> [] \/ input_right <> [] ->
  exists out,
    _range_cluster ty k schedule_left schedule_right input_left input_right = Ok out.
Proof.
  intros Hk Hroom1 Hroom Hl Hr Hne.
  unfold _range_cluster, range_split_values, allocate, size_sub, size_wrap.
  rewrite (Z.mod_small (k - 1)) by lia. rewrite Hroom1. simpl.
  destruct (pick_sample_values_total k input_left (replicate (Z.to_nat (k - 1)) []) Hk Hl)
    as (sv1 & -> & Hlen1 & Hne1); [apply length_replicate|].
  simpl.
  destruct (pick_sample_values_total k input_right sv1 Hk Hr Hlen1)
    as (sv2 & -> & Hlen2 & Hne2).
  simpl.
  assert (Forall (fun h => h <> []) sv2) as Hfull.
  { apply Hne2. destruct Hne as [Hne|Hne]; [|by right]. left. apply Hne1. by right. }
  destruct (pick_split_values_total ty k sv2 Hk Hlen2 Hfull) as (split & -> & Hsplit).
  simpl.
  assert (0 < k <= SIZE_MAX) as Hk' by (unfold SIZE_MAX; lia).
  destruct (cluster_total (range_clusterer k split) k
              (fun v => range_clusterer_bound k split v Hk' Hsplit) Hroom
              schedule_left input_left) as [ol ->].
  destruct (cluster_total (range_clusterer k split) k
              (fun v => range_clusterer_bound k split v Hk' Hsplit) Hroom
              schedule_right input_right) as [or ->].
  simpl. eauto.
Qed.

Lemma materialize_samplable sort t column c :
  column_id_by_name column (column_names t) = Some c ->
  Forall (fun chunk => 1 <= Z.of_nat (length chunk) <= SIZE_MAX) (chunks t) ->
  exists materialized,
    materialize sort (Some t) column = Ok materialized
    /\ Forall samplable materialized
    /\ (chunks t <> [] -> materialized <> []).
Proof.
  intros Hc Hch. unfold materialize. rewrite Hc. eexists. split; [done|]. split.
  - apply Forall_lookup. intros i chunk Hi.
    rewrite list_lookup_imap in Hi.
    destruct (chunks t !! i) as [rows|] eqn:Hrows; [|done].
    injection Hi as <-. rewrite Forall_lookup in Hch. specialize (Hch _ _ Hrows).
    unfold samplable. destruct sort; rewrite ?sort_by_value_length, length_imap; done.
  - destruct (chunks t); [done|]. intros _. by rewrite imap_cons.
Qed.

(** [execute] returns on the range path, in debug and in release builds,
    for tables whose chunks are not empty, one of them with a chunk, and
    at most [2 ^ 23] clusters that can be allocated. *)
Lemma execute_range_returns ty debug self sl sr tl tr cl cr :
  _input_table_left self = Some tl ->
  _input_table_right self = Some tr ->
  column_id_by_name (_left_column_name self) (column_names tl) = Some cl ->
  column_id_by_name (_right_column_name self) (column_names tr) = Some cr ->
  2 <= _cluster_count self <= 2 ^ 23 ->
  allocates (_cluster_count self - 1) = true ->
  allocates (_cluster_count self) = true ->
  _equi_case self = false ->
  Forall (fun chunk => 1 <= Z.of_nat (length chunk) <= SIZE_MAX) (chunks tl) ->
  Forall (fun chunk => 1 <= Z.of_nat (length chunk) <= SIZE_MAX) (chunks tr) ->
  chunks tl <> [] \/ chunks tr <> [] ->
  exists out, execute ty debug self sl sr = Ok out.
Proof.
  intros Hl Hr Hcl Hcr Hk Hroom1 Hroom Hequi Hchl Hchr Hne.
  enough (exists out, execute ty false self sl sr = Ok out) as [out Hout].
  { exists out. destruct debug; [|done]. by rewrite execute_assertions_hold. }
  unfold execute. rewrite Hl, Hr, Hequi.
  destruct (materialize_samplable (negb false) tl _ cl Hcl Hchl) as (ml & -> & Hml & Hnl).
  destruct (materialize_samplable (negb false) tr _ cr Hcr Hchr) as (mr & -> & Hmr & Hnr).
  simpl. destruct (Z.eqb_spec (_cluster_count self) 1) as [E|E]; [lia|].
  destruct (range_cluster_returns ty (_cluster_count self) sl sr ml mr Hk Hroom1 Hroom
              Hml Hmr) as [out ->]; [tauto|].
  simpl. eauto.
Qed.
End RangePathReturns.

(* ===================================================================== *)
(** * Arithmetic used by the estimator *)
(* ===================================================================== *)

Section ExactLaws.
Lemma exact_fleb (x y : Q) : fleb (Float32 := exact) x y = true <-> (x <= y)%Q.
Proof. apply Qle_bool_iff. Qed.

Lemma exact_fltb (x y : Q) : fltb (Float32 := exact) x y = true <-> (x < y)%Q.
Proof.
  simpl. rewrite negb_true_iff. split.
  - intros H. apply Qnot_le_lt. intros Hle. apply Qle_bool_iff in Hle. congruence.
  - intros H. destruct (Qle_bool y x) eqn:E; [|done].
    apply Qle_bool_iff in E. exfalso. by apply (Qlt_not_le _ _ H).
Qed.

Lemma Qdiv_le_compat_r (x y z : Q) : (0 < z)%Q -> (x <= y)%Q -> (x / z <= y / z)%Q.
Proof.
  intros Hz Hxy. unfold Qdiv. apply Qmult_le_compat_r; [done|].
  apply Qlt_le_weak. by apply Qinv_lt_0_compat.
Qed.

(** Arithmetic without rounding obeys the order laws. *)
Lemma exact_laws : Float32Laws exact.
Proof.
  split.
  - done.
  - done.
  - intros a b [_ Hab]. apply exact_fleb. simpl. by rewrite <- Zle_Qle.
  - intros a Ha. apply exact_fltb. unfold fzero. simpl. rewrite <- Zlt_Qlt. lia.
  - done.
  - done.
  - intros x y z Hxy Hyz. apply exact_fltb in Hxy. apply exact_fleb in Hyz.
    apply exact_fltb. by eapply Qlt_le_trans.
  - intros x y z Hxy Hyz. apply exact_fleb in Hxy, Hyz. apply exact_fleb.
    by eapply Qle_trans.
  - intros x y z _ _ _ _ Hz _ Hxy. apply exact_fltb in Hz. apply exact_fleb in Hxy.
    apply exact_fleb. apply Qdiv_le_compat_r; done.
  - intros z _ Hz. apply exact_fleb. unfold fzero. simpl.
    unfold Qdiv. rewrite Qmult_0_l. apply Qle_refl.
  - intros z _ Hz. apply exact_fltb in Hz. apply exact_fleb. unfold fone, fzero in *.
    simpl in *. unfold Qdiv. rewrite Qmult_inv_r; [apply Qle_refl|].
    intros E. rewrite E in Hz. by apply Qlt_irrefl in Hz.
  - intros d _ _ Hd. apply exact_fleb in Hd. unfold fone, fzero in *. simpl in *.
    unfold inject_Z in *. split; apply exact_fleb; simpl; lra.
Qed.
End ExactLaws.

Section IntRange.
Lemma in_range_bounds ty z : in_range ty z = true <-> int_min ty <= z <= int_max ty.
Proof. unfold in_range. rewrite andb_true_iff, !Z.leb_le. done. Qed.

Lemma in_range_abs ty z : in_range ty z = true -> Z.abs z <= 2 ^ 64.
Proof.
  rewrite in_range_bounds. unfold int_min, int_max. destruct ty; simpl; lia.
Qed.

Lemma in_range_Int64 ty z : in_range ty z = true -> in_range Int64 z = true.
Proof.
  rewrite !in_range_bounds. unfold int_min, int_max. destruct ty; simpl; lia.
Qed.

Lemma int_checked_ok ty z : in_range ty z = true -> int_checked ty z = Ok z.
Proof. unfold int_checked. by intros ->. Qed.

Lemma int_checked_inv ty z r : int_checked ty z = Ok r -> r = z /\ in_range ty z = true.
Proof. unfold int_checked. destruct (in_range ty z) eqn:E; [|done]. by intros [= <-]. Qed.
End IntRange.

Section FloatFacts.
Context {F : Float32} {L : Float32Laws F}.

Lemma fle_zero_zero : fleb fzero fzero = true.
Proof. apply of_Z_mono; lia. Qed.
Lemma fle_zero_one : fleb fzero fone = true.
Proof. apply of_Z_mono; lia. Qed.
Lemma fle_one_one : fleb fone fone = true.
Proof. apply of_Z_mono; lia. Qed.
Lemma flt_zero_one : fltb fzero fone = true.
Proof. apply of_Z_pos. lia. Qed.

Lemma fvalid_zero : fvalid fzero = true.
Proof. apply of_Z_valid. Qed.
Lemma fvalid_one : fvalid fone = true.
Proof. apply of_Z_valid. Qed.

(** A quotient of a non-negative by a positive float is non-negative. *)
Lemma fdiv_nonneg x z :
  fvalid x = true -> fvalid z = true ->
  is_finite z = true -> fltb fzero z = true -> fleb fzero x = true ->
  fleb fzero (fdiv x z) = true.
Proof.
  intros Vx Vz Hf Hz Hx. eapply fle_trans; [by apply fdiv_zero|].
  apply fdiv_mono; try done; [apply fvalid_zero|apply fle_zero_zero].
Qed.

(** A quotient of a non-negative float by a positive one no smaller is at
    most one. *)
Lemma fdiv_le_one x z :
  fvalid x = true -> fvalid z = true ->
  is_finite z = true -> fltb fzero z = true ->
  fleb fzero x = true -> fleb x z = true ->
  fleb (fdiv x z) fone = true.
Proof.
  intros Vx Vz Hf Hz H0 Hx. eapply fle_trans; [by apply fdiv_mono|]. by apply fdiv_self.
Qed.

(** [a / b] for integers [0 <= a <= b], [0 < b]. *)
Lemma ratio_unit a b :
  0 <= a <= b -> 0 < b <= 2 ^ 64 ->
  fleb fzero (fdiv (of_Z a) (of_Z b)) = true
  /\ fleb (fdiv (of_Z a) (of_Z b)) fone = true.
Proof.
  intros Ha Hb.
  assert (is_finite (of_Z b) = true) by (apply of_Z_finite; lia).
  assert (fltb fzero (of_Z b) = true) by (apply of_Z_pos; lia).
  assert (fleb fzero (of_Z a) = true) by (apply of_Z_mono; lia).
  split.
  - apply fdiv_nonneg; try done; apply of_Z_valid.
  - apply fdiv_le_one; try done; try apply of_Z_valid. apply of_Z_mono; lia.
Qed.

Lemma ratio_nonneg a b :
  0 <= a -> 0 < b <= 2 ^ 64 ->
  fleb fzero (fdiv (of_Z a) (of_Z b)) = true.
Proof.
  intros Ha Hb. apply fdiv_nonneg; try apply of_Z_valid.
  - apply of_Z_finite; lia.
  - apply of_Z_pos; lia.
  - apply of_Z_mono; lia.
Qed.

Lemma ratio_mono a a' b :
  0 <= a <= a' -> 0 < b <= 2 ^ 64 ->
  fleb (fdiv (of_Z a) (of_Z b)) (fdiv (of_Z a') (of_Z b)) = true.
Proof.
  intros Ha Hb. apply fdiv_mono; try apply of_Z_valid.
  - apply of_Z_finite; lia.
  - apply of_Z_pos; lia.
  - apply of_Z_mono; lia.
  - by apply of_Z_mono.
Qed.
End FloatFacts.

(* ===================================================================== *)
(** * The selectivity estimator *)
(* ===================================================================== *)

(** Run a call on statistics whose values are cached, splitting on every
    test the code makes. *)
Ltac run_estimator :=
  cbn;
  unfold column_statistics.two_column_body, column_statistics.less_than_equals_case,
         column_statistics.greater_than_equals_case;
  cbn;
  repeat (progress (unfold column_statistics.bind, column_statistics.lift,
                           column_statistics.orM, column_statistics.ret,
                           column_statistics.gets, column_statistics.range_width,
                           int_sub, int_add, column_statistics.on_this,
                           column_statistics.on_value); cbn);
  repeat match goal with
    | |- context [int_checked ?t ?z] =>
        let E := fresh "E" in
        destruct (int_checked t z) eqn:E;
        [apply int_checked_inv in E as [-> E]; apply in_range_Int64 in E|]; cbn
    | |- context [if ?b then _ else _] => destruct b eqn:?; cbn
    end.

Ltac order_facts :=
  rewrite ?Z.gtb_ltb, ?Z.geb_leb in *;
  rewrite ?Z.ltb_lt, ?Z.ltb_ge, ?Z.leb_le, ?Z.leb_gt in *.

Section LessThan.
Import column_statistics.
Context {F : Float32} {O : Operators}.

(** What [< v] returns on cached statistics of an integer column. *)
Lemma less_than_eval ty id d lo hi v value2 :
  in_range ty lo = true -> in_range ty v = true ->
  (v <= lo ->
   predicate_selectivity ty OpLessThan v value2 (of_values id d lo hi)
   = Ok (container fzero None, of_values id d lo hi))
  /\ (lo < v ->
      in_range ty (v - lo) = true ->
      in_range ty (hi - lo) = true -> in_range ty (hi - lo + 1) = true ->
      let selectivity := fdiv (of_Z (v - lo)) (of_Z (hi - lo + 1)) in
      predicate_selectivity ty OpLessThan v value2 (of_values id d lo hi)
      = Ok (container selectivity
              (Some (of_values id (fmul selectivity d) lo (v - 1))),
            of_values id d lo hi)).
Proof.
  intros Hlo Hv. split.
  - intros Hle. cbn. destruct (Z.leb_spec v lo); [done|lia].
  - intros Hlt H1 H2 H3. cbn. destruct (Z.leb_spec v lo); [lia|].
    assert (in_range ty (v - 1) = true) as H4.
    { apply in_range_bounds. apply in_range_bounds in Hlo, Hv. lia. }
    unfold bind, lift, range_width, bind, lift, int_sub, int_add. cbn.
    repeat (rewrite int_checked_ok by done; cbn). done.
Qed.


Context {L : Float32Laws F}.

(** In any arithmetic obeying the order laws, [< v] is monotone in [v]. *)
Lemma less_than_monotone_laws ty id d lo hi v1 v2 value2 value2' :
  in_range ty lo = true -> in_range ty v1 = true -> in_range ty v2 = true ->
  lo <= hi -> in_range ty (hi - lo + 1) = true ->
  (lo < v2 -> in_range ty (v2 - lo) = true) ->
  v1 <= v2 ->
  exists c1 c2 s1 s2,
    predicate_selectivity ty OpLessThan v1 value2 (of_values id d lo hi) = Ok (c1, s1)
    /\ predicate_selectivity ty OpLessThan v2 value2' (of_values id d lo hi) = Ok (c2, s2)
    /\ fleb (selectivity c1) (selectivity c2) = true.
Proof.
  intros Hlo Hv1 Hv2 Hlohi Hw Hn2 Hle.
  assert (in_range ty (hi - lo) = true) as Hw'.
  { apply in_range_bounds. apply in_range_bounds in Hw, Hlo.
    unfold int_min in *. destruct ty; simpl in *; lia. }
  assert (0 < hi - lo + 1 <= 2 ^ 64) as Hwpos.
  { apply in_range_abs in Hw. lia. }
  destruct (less_than_eval ty id d lo hi v1 value2 Hlo Hv1) as [A1 B1].
  destruct (less_than_eval ty id d lo hi v2 value2' Hlo Hv2) as [A2 B2].
  destruct (Z_le_gt_dec v2 lo) as [H2|H2].
  - do 4 eexists. split; [apply A1; lia|]. split; [by apply A2|].
    simpl. apply fle_zero_zero.
  - assert (in_range ty (v2 - lo) = true) as Hr2 by (apply Hn2; lia).
    pose proof (in_range_abs _ _ Hr2) as Habs2.
    destruct (Z_le_gt_dec v1 lo) as [H1|H1].
    + do 4 eexists. split; [by apply A1|]. split; [apply B2; done || lia|].
      simpl. apply ratio_nonneg; lia.
    + assert (in_range ty (v1 - lo) = true) as Hr1.
      { apply in_range_bounds. apply in_range_bounds in Hr2.
        unfold int_min in *. lia. }
      do 4 eexists. split; [apply B1; done || lia|]. split; [apply B2; done || lia|].
      simpl. apply ratio_mono; lia.
Qed.
End LessThan.


Section SelectivityBounds.
Import column_statistics.
Context {F : Float32} {O : Operators} {L : Float32Laws F}.

Lemma unit_interval_zero : unit_interval fzero.
Proof. split; [apply fle_zero_zero|apply fle_zero_one]. Qed.
Lemma unit_interval_one : unit_interval fone.
Proof. split; [apply fle_zero_one|apply fle_one_one]. Qed.

Lemma unit_interval_ratio a b :
  0 <= a <= b -> in_range Int64 b = true -> 0 < b ->
  unit_interval (fdiv (of_Z a) (of_Z b)).
Proof. intros Ha Hb Hpos. apply in_range_abs in Hb. apply ratio_unit; lia. Qed.

(** [1 / d] for a finite [d >= 1]. *)
Lemma unit_interval_inv_distinct d :
  fvalid d = true -> is_finite d = true -> fleb fone d = true ->
  unit_interval (fdiv fone d).
Proof.
  intros Hv Hf Hd.
  assert (fltb fzero d = true) by (eapply flt_le_trans; [apply flt_zero_one|done]).
  split; [apply fdiv_nonneg|apply fdiv_le_one]; try done; try apply fvalid_one;
    apply fle_zero_one.
Qed.

(** [(d - 1) / d] for a finite [d >= 1]. *)
Lemma unit_interval_not_distinct d :
  fvalid d = true -> is_finite d = true -> fleb fone d = true ->
  unit_interval (fdiv (fsub d fone) d).
Proof.
  intros Hv Hf Hd.
  assert (fltb fzero d = true) by (eapply flt_le_trans; [apply flt_zero_one|done]).
  destruct (fsub_one d Hv Hf Hd) as [H0 H1].
  assert (fvalid (fsub d fone) = true) by (apply fsub_valid; [done|apply fvalid_one]).
  split; [apply fdiv_nonneg|apply fdiv_le_one]; done.
Qed.

Lemma constant_selectivity_bounds ty id d lo hi scan_type v v2 c s :
  lo <= hi -> fvalid d = true -> is_finite d = true -> fleb fone d = true ->
  predicate_selectivity ty scan_type v v2 (of_values id d lo hi) = Ok (c, s) ->
  (scan_type = OpLessThan -> v <= hi + 1) ->
  (scan_type = OpGreaterThan -> lo - 1 <= v) ->
  unit_interval (selectivity c).
Proof.
  intros Hlohi Hv Hf Hd. destruct scan_type; try destruct v2 as [v2|];
    run_estimator; intros Hps Hlt Hgt; simplify_eq; cbn;
    try specialize (Hlt eq_refl); try specialize (Hgt eq_refl); order_facts;
    try apply unit_interval_zero; try apply unit_interval_one;
    try (by apply unit_interval_inv_distinct);
    try (by apply unit_interval_not_distinct);
    try (apply unit_interval_ratio; [lia|done|lia]).
Qed.

Lemma placeholder_selectivity_bounds id d lo hi scan_type c s :
  fvalid d = true -> is_finite d = true -> fleb fone d = true ->
  predicate_selectivity_placeholder scan_type (of_values id d lo hi) = Ok (c, s) ->
  unit_interval (selectivity c).
Proof.
  intros Hv Hf Hd. destruct scan_type; run_estimator; intros Hps; simplify_eq; cbn;
    try apply unit_interval_one;
    try (by apply unit_interval_inv_distinct);
    try (by apply unit_interval_not_distinct).
Qed.

(** The two-column estimate is returned as computed. *)
Lemma two_column_selectivity_unclamped ty debug id d lo hi vid vd vlo vhi scan_type c s :
  predicate_selectivity_columns ty debug scan_type
    (IntegerColumnStatistics ty (of_values vid vd vlo vhi)) (of_values id d lo hi)
  = Ok (c, s) ->
  selectivity2 c =
    match scan_type with
    | OpEquals =>
        if Z.max lo vlo >? Z.min hi vhi then fzero
        else two_column_equals_estimate d vd lo hi vlo vhi
    | _ => fone
    end.
Proof.
  unfold predicate_selectivity_columns, dynamic_pointer_cast.
  replace (int_type_eqb ty ty) with true by (by destruct ty).
  destruct debug; [done|]. cbn.
  destruct scan_type; run_estimator; intros Hps; simplify_eq; done.
Qed.

(** Statistics derived by a constant predicate from statistics with
    [min <= max] have [min <= max] again. *)
Lemma derived_statistics_ordered ty id d lo hi scan_type v v2 c s derived :
  lo <= hi ->
  predicate_selectivity ty scan_type v v2 (of_values id d lo hi) = Ok (c, s) ->
  column_statistics c = Some derived ->
  exists lo' hi', _min derived = Some lo' /\ _max derived = Some hi' /\ lo' <= hi'.
Proof.
  intros Hlohi. destruct scan_type; try destruct v2 as [v2|];
    run_estimator; intros Hps Hd; simplify_eq; cbn in Hd; simplify_eq;
    cbn; order_facts;
    do 2 eexists; (split; [reflexivity|]); (split; [reflexivity|]); lia.
Qed.

End SelectivityBounds.


Section SelectivityExamples.
Import column_statistics inputs.


#[local] Existing Instance binary32.
#[local] Existing Instance no_operators.

End SelectivityExamples.

Section TypeCheck.
Import column_statistics.
Context {F : Float32} {O : Operators}.

(** C3.  The assertion of the two-column overload is on the wrong side.
    In a debug build a call whose argument has the column type of the
    receiver fails with the logic error "Cannot compare columns of different
    type".  A call whose argument has another column type passes the
    assertion in every build and dereferences the null pointer the cast
    returned. *)
Theorem two_column_assertion_inverted scan_type (value self : ColumnStatistics) :
  (forall ty,
      predicate_selectivity_columns ty true scan_type
        (IntegerColumnStatistics ty value) self
      = Err (LogicError "Cannot compare columns of different type"))
  /\ (forall debug,
        predicate_selectivity_columns Int32 debug scan_type
          (IntegerColumnStatistics Int64 value) self
        = Err (UndefinedBehaviour "null column statistics dereferenced"))
  /\ (forall debug,
        predicate_selectivity_columns Int64 debug scan_type
          (IntegerColumnStatistics Int32 value) self
        = Err (UndefinedBehaviour "null column statistics dereferenced"))
  /\ (forall ty debug,
        predicate_selectivity_columns ty debug scan_type OtherColumnStatistics self
        = Err (UndefinedBehaviour "null column statistics dereferenced")).
Proof.
  repeat split.
  - intros ty. unfold predicate_selectivity_columns, dynamic_pointer_cast.
    by destruct ty.
  - by intros [].
  - by intros [].
  - by intros ty [].
Qed.
End TypeCheck.

Section LazyStatistics.
Import column_statistics.
Context {F : Float32} {O : Operators}.

(** For statistics whose table is gone: a statistic that is cached is
    returned, and the object is left as it is; a statistic that is not
    cached is not returned: the null table is handed to
    [TableWrapper::execute] and, when that returns, dereferenced.  The
    estimator makes no check of its own. *)
Lemma lazy_statistic_without_table (self : ColumnStatistics) :
  _table self = None ->
  (forall d, _distinct_count self = Some d -> distinct_count self = Ok (d, self))
  /\ (forall lo, _min self = Some lo -> min self = Ok (lo, self))
  /\ (forall hi, _max self = Some hi -> max self = Ok (hi, self))
  /\ (_distinct_count self = None -> distinct_count self = without_table)
  /\ (_min self = None -> min self = without_table)
  /\ (_max self = None -> max self = without_table).
Proof.
  intros Ht.
  assert (update_distinct_count self = without_table) as Hd.
  { unfold update_distinct_count, without_table. rewrite Ht.
    by destruct (table_wrapper_execute None). }
  assert (update_min_max self = without_table) as Hm.
  { unfold update_min_max, without_table. rewrite Ht.
    by destruct (table_wrapper_execute None). }
  repeat split; intros; unfold distinct_count, min, max, bind, gets.
  - rewrite H. cbn. by rewrite H.
  - rewrite H. cbn. by rewrite H.
  - rewrite H. cbn. by rewrite H.
  - rewrite H, Hd. unfold without_table. by destruct (table_wrapper_execute None).
  - rewrite H, Hm. unfold without_table. by destruct (table_wrapper_execute None).
  - rewrite H, Hm. unfold without_table. by destruct (table_wrapper_execute None).
Qed.
End LazyStatistics.


(* ===================================================================== *)
(** * The constructor and the clusterers *)
(* ===================================================================== *)

Section PowerOfTwo.
Lemma land_double_pred a : 0 < a -> Z.land (2 * a) (2 * a - 1) = 2 * Z.land a (a - 1).
Proof.
  intros Ha. replace (2 * a - 1) with (2 * (a - 1) + 1) by lia.
  apply Z.bits_inj'. intros n Hn.
  destruct (Z.eq_dec n 0) as [->|Hne].
  - rewrite Z.land_spec, !Z.testbit_even_0. done.
  - replace n with (Z.succ (n - 1)) by lia.
    rewrite Z.land_spec, !Z.testbit_even_succ, Z.testbit_odd_succ, Z.land_spec by lia. done.
Qed.

Lemma land_odd_pred a : 0 <= a -> Z.land (2 * a + 1) (2 * a + 1 - 1) = 2 * a.
Proof.
  intros Ha. replace (2 * a + 1 - 1) with (2 * a) by lia.
  apply Z.bits_inj'. intros n Hn.
  destruct (Z.eq_dec n 0) as [->|Hne].
  - rewrite Z.land_spec, Z.testbit_odd_0, !Z.testbit_even_0. done.
  - replace n with (Z.succ (n - 1)) by lia.
    rewrite Z.land_spec, Z.testbit_odd_succ, !Z.testbit_even_succ by lia.
    apply andb_diag.
Qed.

(** [c & (c - 1) == 0] singles out the powers of two. *)
Lemma land_pred_power_of_two c :
  0 < c -> Z.land c (c - 1) = 0 <-> exists n, 0 <= n /\ c = 2 ^ n.
Proof.
  intros Hc. destruct c as [|p|p]; try lia. clear Hc.
  induction p as [p IH|p IH|].
  - rewrite Pos2Z.inj_xI, land_odd_pred by lia. split.
    + lia.
    + intros (n & Hn & E). exfalso.
      destruct (Z.eq_dec n 0) as [->|]; [simpl in E; lia|].
      replace n with (Z.succ (n - 1)) in E by lia.
      rewrite Z.pow_succ_r in E by lia. lia.
  - rewrite Pos2Z.inj_xO, land_double_pred by lia. split.
    + intros H. assert (Z.land (Z.pos p) (Z.pos p - 1) = 0) as H0 by lia.
      apply IH in H0 as (n & Hn & ->). exists (Z.succ n).
      split; [lia|]. by rewrite Z.pow_succ_r.
    + intros (n & Hn & E).
      destruct (Z.eq_dec n 0) as [->|]; [simpl in E; lia|].
      replace n with (Z.succ (n - 1)) in E by lia.
      rewrite Z.pow_succ_r in E by lia.
      assert (Z.land (Z.pos p) (Z.pos p - 1) = 0) as ->; [|done].
      apply IH. exists (n - 1). split; lia.
  - split; [|done]. intros _. exists 0. done.
Qed.
End PowerOfTwo.

Section Constructor.
Import radix_cluster_sort.

(** X1.  For a cluster count a [size_t] holds, the constructor of a debug
    build returns exactly when the count is a power of two, 1 included, and
    both inputs are given; the constructor of a release build returns for
    every count and every input. *)
Theorem make_checks_power_of_two left right names equi_case cluster_count :
  0 <= cluster_count <= SIZE_MAX ->
  ((exists self, make true left right names equi_case cluster_count = Ok self)
   <-> (exists n, 0 <= n < 64 /\ cluster_count = 2 ^ n)
       /\ left <> None /\ right <> None)
  /\ exists self, make false left right names equi_case cluster_count = Ok self.
Proof.
  unfold SIZE_MAX. intros Hk. split; [|unfold make; simpl; eauto].
  unfold make, DebugAssert, size_sub, size_wrap.
  destruct (Z.ltb_spec 0 cluster_count) as [Hpos|Hz].
  - rewrite (Z.mod_small (cluster_count - 1)) by lia. simpl.
    pose proof (land_pred_power_of_two cluster_count Hpos) as Hp.
    destruct (Z.eqb_spec (Z.land cluster_count (cluster_count - 1)) 0) as [E|E]; simpl.
    + apply Hp in E as (n & Hn & E).
      assert (n < 64) as Hn64.
      { destruct (Z_lt_le_dec n 64); [done|].
        assert (2 ^ 64 <= 2 ^ n) by (apply Z.pow_le_mono_r; lia). lia. }
      destruct left, right; simpl; split; try (intros (? & ?); done);
        try (intros (_ & ? & ?); done); eauto 10.
    + split; [intros (? & ?); done|]. intros ((n & Hn & En) & _). exfalso.
      apply E, Hp. exists n. split; [lia|done].
  - simpl. split; [intros (? & ?); done|]. intros ((n & Hn & En) & _).
    pose proof (Z.pow_pos_nonneg 2 n). lia.
Qed.
End Constructor.

Section ClusterPermutation.
Import radix_cluster_sort.
Context {Mem : Allocator}.
Implicit Types (out : list (list MaterializedValue)) (e : MaterializedValue).

Lemma concat_insert_app out i cluster e :
  out !! i = Some cluster ->
  concat (<[i := cluster ++ [e]]> out) ≡ₚ e :: concat out.
Proof.
  revert i. induction out as [|c out IH]; intros [|i] Hi; try done.
  - simpl in Hi. injection Hi as ->. simpl.
    rewrite <- app_assoc. rewrite (Permutation_app_comm [e]), app_assoc.
    symmetry. apply Permutation_cons_append.
  - simpl in *. rewrite (IH i Hi). by rewrite Permutation_middle.
Qed.

Variable clusterer : Z -> result Z.

Lemma push_entry_permutation out e out' :
  push_entry clusterer out e = Ok out' -> concat out' ≡ₚ e :: concat out.
Proof.
  unfold push_entry. destruct (clusterer (value e)) as [cid|]; simpl; [|done].
  destruct (out !! Z.to_nat cid) as [c|] eqn:Hc; [|done].
  intros [= <-]. by apply concat_insert_app.
Qed.

Lemma push_entries_permutation entries : forall out out',
  foldM (push_entry clusterer) out entries = Ok out' ->
  concat out' ≡ₚ concat out ++ entries.
Proof.
  induction entries as [|e entries IH]; intros out out'; simpl.
  - intros [= <-]. by rewrite app_nil_r.
  - destruct (push_entry clusterer out e) as [o|] eqn:Hp; simpl; [|done].
    intros H. apply IH in H. apply push_entry_permutation in Hp.
    rewrite H, Hp. simpl. by rewrite Permutation_middle.
Qed.

Lemma wait_for_tasks_permutation st out :
  wait_for_tasks clusterer st = Ok out ->
  concat out ≡ₚ concat (output_table st) ++ concat (pending st).
Proof.
  unfold wait_for_tasks. generalize (output_table st) as o.
  induction (pending st) as [|job jobs IH]; intros o; simpl.
  - intros [= <-]. by rewrite app_nil_r.
  - destruct (foldM (push_entry clusterer) o job) as [o'|] eqn:Hj; simpl; [|done].
    intros H. apply IH in H. apply push_entries_permutation in Hj.
    rewrite H, Hj. by rewrite app_assoc.
Qed.

Lemma concat_insert_tail (pending : list (list MaterializedValue)) job e rest :
  pending !! job = Some (e :: rest) ->
  concat pending ≡ₚ e :: concat (<[job := rest]> pending).
Proof.
  revert job. induction pending as [|c pending IH]; intros [|job] Hj; try done.
  - simpl in Hj. injection Hj as ->. done.
  - simpl in *. rewrite (IH job Hj). by rewrite Permutation_middle.
Qed.

Lemma job_step_permutation st job st' :
  job_step clusterer st job = Ok st' ->
  concat (output_table st') ++ concat (pending st')
  ≡ₚ concat (output_table st) ++ concat (pending st).
Proof.
  unfold job_step. destruct (pending st !! job) as [[|e rest]|] eqn:Hj;
    try (intros [= <-]; done).
  destruct (push_entry clusterer (output_table st) e) as [o|] eqn:Hp; simpl; [|done].
  intros [= <-]. simpl. apply push_entry_permutation in Hp.
  rewrite Hp, (concat_insert_tail _ _ _ _ Hj). simpl. by rewrite Permutation_middle.
Qed.

Lemma concat_replicate_nil (n : nat) :
  concat (replicate n ([] : list MaterializedValue)) = [].
Proof. induction n; simpl; done. Qed.

Lemma cluster_permutation k schedule input out :
  _cluster k schedule input clusterer = Ok out -> concat out ≡ₚ concat input.
Proof.
  unfold _cluster, allocate. destruct (allocates k); simpl; [|done].
  destruct (foldM _ _ schedule) as [st|] eqn:Hrun; simpl; [|done].
  intros Hw. apply wait_for_tasks_permutation in Hw. rewrite Hw.
  apply (foldM_invariant
           (fun st => concat (output_table st) ++ concat (pending st) ≡ₚ concat input)
           _ _ _ _) in Hrun; [done| |].
  - intros x b y Hx Hs. apply job_step_permutation in Hs. by rewrite Hs.
  - simpl. by rewrite concat_replicate_nil.
Qed.
End ClusterPermutation.

Section SortByValue.
Import radix_cluster_sort.
Context {F : Float32} {Mem : Allocator}.
Implicit Types (l : list MaterializedValue).

Lemma insert_by_value_permutation x l : insert_by_value x l ≡ₚ x :: l.
Proof.
  induction l as [|y l IH]; simpl; [done|].
  destruct (value x <? value y); [done|]. rewrite IH. apply Permutation_swap.
Qed.

Lemma sort_by_value_permutation l : sort_by_value l ≡ₚ l.
Proof.
  unfold sort_by_value. induction l as [|x l IH]; simpl; [done|].
  by rewrite insert_by_value_permutation, IH.
Qed.

Lemma insert_by_value_sorted x l :
  StronglySorted (fun a b => value a <= value b) l ->
  StronglySorted (fun a b => value a <= value b) (insert_by_value x l).
Proof.
  induction l as [|y l IH]; intros Hs; simpl.
  - by repeat constructor.
  - apply StronglySorted_inv in Hs as [Hs Hall].
    destruct (Z.ltb_spec (value x) (value y)) as [Hlt|Hge].
    + constructor; [by constructor|]. constructor; [lia|].
      eapply Forall_impl; [done|]. simpl. intros z Hz. lia.
    + constructor; [by apply IH|].
      rewrite insert_by_value_permutation. by constructor.
Qed.

Lemma sort_by_value_sorted l :
  StronglySorted (fun a b => value a <= value b) (sort_by_value l).
Proof.
  unfold sort_by_value. induction l as [|x l IH]; simpl; [constructor|].
  by apply insert_by_value_sorted.
Qed.

Lemma sort_clusters_permutation (clusters : list (list MaterializedValue)) :
  concat (_sort_clusters clusters) ≡ₚ concat clusters.
Proof.
  unfold _sort_clusters. induction clusters as [|c clusters IH]; [done|].
  rewrite fmap_cons. simpl. by rewrite sort_by_value_permutation, IH.
Qed.

Lemma sort_clusters_lookup (clusters : list (list MaterializedValue)) c cluster :
  _sort_clusters clusters !! c = Some cluster ->
  exists cluster0, clusters !! c = Some cluster0 /\ cluster = sort_by_value cluster0.
Proof.
  unfold _sort_clusters. rewrite list_lookup_fmap.
  destruct (clusters !! c) as [cluster0|]; [|done]. intros [= <-]. eauto.
Qed.

Lemma sort_clusters_placed clusterer (clusters : list (list MaterializedValue)) :
  placed clusterer clusters -> placed clusterer (_sort_clusters clusters).
Proof.
  intros Hpl c cluster r Hc Hr.
  apply sort_clusters_lookup in Hc as (cluster0 & Hc & ->).
  apply (Hpl c cluster0 r Hc). by rewrite <- sort_by_value_permutation.
Qed.

Lemma concatenate_chunks_concat (l : list (list MaterializedValue)) :
  _concatenate_chunks l = [concat l].
Proof.
  unfold _concatenate_chunks. f_equal.
  enough (forall acc : list MaterializedValue,
             foldl (fun o c => o ++ c) acc l = acc ++ concat l) as H by apply H.
  induction l as [|c l IH]; intros acc; simpl; [by rewrite app_nil_r|].
  by rewrite IH, app_assoc.
Qed.
End SortByValue.

Section RangePlacement.
Import radix_cluster_sort.
Context {F : Float32} {Mem : Allocator}.

Lemma pick_split_values_length ty k sample_values split_values :
  pick_split_values ty k sample_values = Ok split_values ->
  length split_values = Z.to_nat (size_sub k 1).
Proof.
  unfold pick_split_values. intros H.
  apply (foldM_invariant (fun s : list Z => length s = Z.to_nat (size_sub k 1))
           _ _ _ _) in H; [done| |apply length_replicate].
  intros x b y Hx. unfold pick_split_value.
  destruct (sample_values !! Z.to_nat b); [|done].
  destruct (max_element _); [|done]. intros [= <-]. by rewrite length_insert.
Qed.

(** What the clusterer lambda answers. *)
Lemma range_clusterer_spec k (split_values : list Z) v c :
  0 < k <= SIZE_MAX -> Z.of_nat (length split_values) = k - 1 ->
  range_clusterer k split_values v = Ok c ->
  0 <= c <= k - 1
  /\ (c < k - 1 -> exists s, split_values !! Z.to_nat c = Some s /\ v <= s)
  /\ (forall j s, 0 <= j < c -> split_values !! Z.to_nat j = Some s -> s < v).
Proof.
  intros Hk Hlen.
  destruct (range_scan_first split_values v (k - 1) (length split_values) 0)
    as (c' & Hc & Hspec); [lia|lia|].
  unfold range_clusterer, size_sub, size_wrap, SIZE_MAX in *.
  rewrite (Z.mod_small (k - 1)) by lia. rewrite <- Hlen at 2. rewrite Hc.
  intros [= <-]. destruct Hspec as [(Hr & Hfound & Hbefore)|[-> Hall]].
  - split; [lia|]. split; [done|]. done.
  - split; [lia|]. split; [lia|]. intros j s Hj. apply Hall. lia.
Qed.

(** Both sides are clustered by one and the same clusterer. *)
Lemma range_cluster_placed ty k sl sr (il ir ol or : list (list MaterializedValue)) :
  2 <= k <= SIZE_MAX ->
  _range_cluster ty k sl sr il ir = Ok (ol, or) ->
  exists split_values,
    Z.of_nat (length split_values) = k - 1
    /\ placed (range_clusterer k split_values) ol
    /\ placed (range_clusterer k split_values) or.
Proof.
  intros Hk. unfold _range_cluster, range_split_values, allocate.
  destruct (allocates (size_sub k 1)); simpl; [|done].
  destruct (_pick_sample_values k _ il) as [sv1|]; simpl; [|done].
  destruct (_pick_sample_values k sv1 ir) as [sv2|]; simpl; [|done].
  destruct (pick_split_values ty k sv2) as [split|] eqn:Hsplit; simpl; [|done].
  apply pick_split_values_length in Hsplit.
  assert (Z.of_nat (length split) = k - 1) as Hlen.
  { rewrite Hsplit. unfold size_sub, size_wrap, SIZE_MAX in *.
    rewrite (Z.mod_small (k - 1)) by lia. lia. }
  destruct (_cluster k sl il _) as [l|] eqn:Hl; simpl; [|done].
  destruct (_cluster k sr ir _) as [r|] eqn:Hr; simpl; [|done].
  intros [= <- <-]. exists split. split; [done|].
  assert (forall v c, range_clusterer k split v = Ok c -> 0 <= c) as Hnn.
  { intros v c Hc. apply range_clusterer_spec in Hc; [lia|unfold SIZE_MAX in *; lia|done]. }
  split; eapply cluster_placed; done.
Qed.

(** Records of a lower cluster have smaller values than records of a
    higher one. *)
Lemma placed_ordered k (split_values : list Z) (a b : list (list MaterializedValue))
    (c c' : nat) cluster cluster' r r' :
  0 < k <= SIZE_MAX -> Z.of_nat (length split_values) = k - 1 ->
  placed (range_clusterer k split_values) a ->
  placed (range_clusterer k split_values) b ->
  a !! c = Some cluster -> b !! c' = Some cluster' -> (c < c')%nat ->
  r ∈ cluster -> r' ∈ cluster' -> value r < value r'.
Proof.
  intros Hk Hlen Ha Hb Hc Hc' Hlt Hr Hr'.
  pose proof (Ha _ _ _ Hc Hr) as H1. pose proof (Hb _ _ _ Hc' Hr') as H2.
  apply range_clusterer_spec in H1 as (B1 & Hfound & _); [|done..].
  apply range_clusterer_spec in H2 as (B2 & _ & Hbefore); [|done..].
  destruct Hfound as (s & Hs & Hle); [lia|].
  specialize (Hbefore (Z.of_nat c) s ltac:(lia)). rewrite Nat2Z.id in Hs, Hbefore.
  specialize (Hbefore Hs). lia.
Qed.
End RangePlacement.

(* ===================================================================== *)
(** * [execute]: what the clusters hold *)
(* ===================================================================== *)

Section ExecuteStructure.
Import radix_cluster_sort.
Context {F : Float32} {Mem : Allocator}.

(** What a returning [execute] went through. *)
Lemma execute_inv ty debug self sl sr ol or :
  execute ty debug self sl sr = Ok (ol, or) ->
  exists cl cr l r,
    materialize (negb (_equi_case self)) (_input_table_left self) (_left_column_name self)
    = Ok cl
    /\ materialize (negb (_equi_case self)) (_input_table_right self)
         (_right_column_name self) = Ok cr
    /\ (if _cluster_count self =? 1 then
          Ok (_concatenate_chunks cl, _concatenate_chunks cr)
        else if _equi_case self then
          output_left ← _radix_cluster (_cluster_count self) sl cl;
          output_right ← _radix_cluster (_cluster_count self) sr cr;
          Ok (output_left, output_right)
        else _range_cluster ty (_cluster_count self) sl sr cl cr) = Ok (l, r)
    /\ ol = _sort_clusters l /\ or = _sort_clusters r.
Proof.
  unfold execute.
  destruct (materialize _ (_input_table_left self) _) as [cl|] eqn:Hl; simpl; [|done].
  destruct (materialize _ (_input_table_right self) _) as [cr|] eqn:Hr; simpl; [|done].
  rewrite (materialize_size _ _ _ _ Hl), (materialize_size _ _ _ _ Hr).
  match goal with |- context [mbind _ ?m] => destruct m as [[l r]|] eqn:Hout end;
    simpl; [|done].
  intros H. exists cl, cr, l, r. split; [done|]. split; [done|]. split; [done|].
  destruct debug; simpl in H;
    repeat match type of H with
           | context [if ?b then _ else _] => destruct b; simpl in H
           end; try done; by injection H as <- <-.
Qed.

(** On every path both sides are clustered by one function of the value,
    and there are [cluster_count] clusters holding the materialized
    records. *)
Lemma clustered_placed ty (k : Z) (equi : bool) sl sr
    (cl cr l r : list (list MaterializedValue)) :
  1 <= k <= SIZE_MAX ->
  (if k =? 1 then Ok (_concatenate_chunks cl, _concatenate_chunks cr)
   else if equi then
     output_left ← _radix_cluster k sl cl;
     output_right ← _radix_cluster k sr cr;
     Ok (output_left, output_right)
   else _range_cluster ty k sl sr cl cr) = Ok (l, r) ->
  exists clusterer, placed clusterer l /\ placed clusterer r.
Proof.
  intros Hk. destruct (Z.eqb_spec k 1) as [->|Hne].
  - intros [= <- <-]. exists (fun _ => Ok 0). rewrite !concatenate_chunks_concat.
    split; intros [|c] cluster x Hc Hx; by simplify_eq.
  - destruct equi.
    + unfold _radix_cluster.
      destruct (_cluster _ sl cl _) as [l'|] eqn:H1; simpl; [|done].
      destruct (_cluster _ sr cr _) as [r'|] eqn:H2; simpl; [|done].
      intros [= <- <-]. eexists.
      assert (forall v c, (fun value => Ok (radix_clusterer k value)) v = Ok c -> 0 <= c)
        as Hnn.
      { intros v c [= <-]. apply radix_clusterer_bound. lia. }
      split; [exact (cluster_placed _ Hnn _ _ _ _ H1)|exact (cluster_placed _ Hnn _ _ _ _ H2)].
    + intros H. apply range_cluster_placed in H as (split & _ & Hl & Hr); [eauto|lia].
Qed.

Lemma clustered_permutation ty (k : Z) (equi : bool) sl sr
    (cl cr l r : list (list MaterializedValue)) :
  (if k =? 1 then Ok (_concatenate_chunks cl, _concatenate_chunks cr)
   else if equi then
     output_left ← _radix_cluster k sl cl;
     output_right ← _radix_cluster k sr cr;
     Ok (output_left, output_right)
   else _range_cluster ty k sl sr cl cr) = Ok (l, r) ->
  (concat l ≡ₚ concat cl /\ concat r ≡ₚ concat cr)
  /\ length l = Z.to_nat k /\ length r = Z.to_nat k.
Proof.
  destruct (Z.eqb_spec k 1) as [->|Hne].
  - intros [= <- <-]. rewrite !concatenate_chunks_concat. simpl.
    by rewrite !app_nil_r.
  - assert (forall clusterer,
               forall l' r', _cluster k sl cl clusterer = Ok l' ->
                             _cluster k sr cr clusterer = Ok r' ->
               (concat l' ≡ₚ concat cl /\ concat r' ≡ₚ concat cr)
               /\ length l' = Z.to_nat k /\ length r' = Z.to_nat k) as Hboth.
    { intros clusterer l' r' H1 H2.
      pose proof (cluster_permutation _ _ _ _ _ H1).
      pose proof (cluster_permutation _ _ _ _ _ H2).
      apply cluster_size in H1 as [_ ?]. apply cluster_size in H2 as [_ ?]. done. }
    destruct equi.
    + unfold _radix_cluster.
      destruct (_cluster _ sl cl _) as [l'|] eqn:H1; simpl; [|done].
      destruct (_cluster _ sr cr _) as [r'|] eqn:H2; simpl; [|done].
      intros [= <- <-]. by eapply Hboth.
    + unfold _range_cluster.
      destruct (range_split_values ty k cl cr) as [sp|]; simpl; [|done].
      destruct (_cluster k sl cl _) as [l'|] eqn:H1; simpl; [|done].
      destruct (_cluster k sr cr _) as [r'|] eqn:H2; simpl; [|done].
      intros [= <- <-]. by eapply Hboth.
Qed.
End ExecuteStructure.

Section ExecuteProperties.
Import radix_cluster_sort.
Context {F : Float32} {Mem : Allocator}.

(** X14.  Every cluster [execute] returns is sorted by value. *)
Theorem execute_clusters_sorted ty debug self sl sr ol or :
  execute ty debug self sl sr = Ok (ol, or) ->
  forall cluster, cluster ∈ ol \/ cluster ∈ or ->
    StronglySorted (fun a b => value a <= value b) cluster.
Proof.
  intros H. apply execute_inv in H as (cl & cr & l & r & _ & _ & _ & -> & ->).
  intros cluster [Hc|Hc]; unfold _sort_clusters in Hc;
    apply list_elem_of_fmap in Hc as (c0 & -> & _); apply sort_by_value_sorted.
Qed.

(** X15.  [execute] returns [cluster_count] clusters on each side, holding the
    records the materializer produced, each once. *)
Theorem execute_permutation ty debug self sl sr ol or :
  execute ty debug self sl sr = Ok (ol, or) ->
  exists chunks_left chunks_right,
    materialize (negb (_equi_case self)) (_input_table_left self) (_left_column_name self)
    = Ok chunks_left
    /\ materialize (negb (_equi_case self)) (_input_table_right self)
         (_right_column_name self) = Ok chunks_right
    /\ concat ol ≡ₚ concat chunks_left
    /\ concat or ≡ₚ concat chunks_right
    /\ length ol = Z.to_nat (_cluster_count self)
    /\ length or = Z.to_nat (_cluster_count self).
Proof.
  intros H. apply execute_inv in H as (cl & cr & l & r & Hl & Hr & Hc & -> & ->).
  apply clustered_permutation in Hc as ((Pl & Pr) & Ll & Lr).
  exists cl, cr. split; [done|]. split; [done|].
  rewrite !sort_clusters_permutation. unfold _sort_clusters. rewrite !length_fmap. done.
Qed.

End ExecuteProperties.

Section ConcatSorted.
Context {A : Type} (R : relation A).

Lemma elem_of_concat x (ls : list (list A)) :
  x ∈ concat ls -> exists l, x ∈ l /\ l ∈ ls.
Proof.
  induction ls as [|l ls IH]; simpl; [by intros ?%elem_of_nil|].
  intros [H|H]%elem_of_app.
  - exists l. split; [done|by left].
  - destruct (IH H) as (l' & ? & ?). exists l'. split; [done|by right].
Qed.

Lemma concat_sorted (ls : list (list A)) :
  Forall (StronglySorted R) ls ->
  (forall (c c' : nat) l l' x y,
      ls !! c = Some l -> ls !! c' = Some l' -> (c < c')%nat ->
      x ∈ l -> y ∈ l' -> R x y) ->
  StronglySorted R (concat ls).
Proof.
  induction ls as [|l ls IH]; intros Hs Hord; simpl; [constructor|].
  apply Forall_cons in Hs as [Hl Hs]. apply StronglySorted_app_2; [|done|].
  - intros x y Hx Hy. apply elem_of_concat in Hy as (l' & Hy & Hl').
    apply list_elem_of_lookup in Hl' as [c' Hc'].
    apply (Hord 0%nat (S c') l l' x y); try done. lia.
  - apply IH; [done|]. intros c c' l1 l2 x y H1 H2 Hlt.
    apply (Hord (S c) (S c')); try done. lia.
Qed.
End ConcatSorted.

Section RangeOrder.
Import radix_cluster_sort.
Context {F : Float32} {Mem : Allocator}.

Lemma execute_range_order ty debug self sl sr ol or :
  2 <= _cluster_count self <= SIZE_MAX -> _equi_case self = false ->
  execute ty debug self sl sr = Ok (ol, or) ->
  forall a b (c c' : nat) cluster cluster' r r',
    a ∈ [ol; or] -> b ∈ [ol; or] ->
    a !! c = Some cluster -> b !! c' = Some cluster' -> (c < c')%nat ->
    r ∈ cluster -> r' ∈ cluster' -> value r < value r'.
Proof.
  intros Hk Hequi H.
  apply execute_inv in H as (cl & cr & l & r0 & _ & _ & Hc & -> & ->).
  rewrite Hequi in Hc. destruct (Z.eqb_spec (_cluster_count self) 1); [lia|].
  apply range_cluster_placed in Hc as (split & Hlen & Pl & Pr); [|done].
  apply sort_clusters_placed in Pl, Pr.
  assert (forall a, a ∈ [_sort_clusters l; _sort_clusters r0] ->
                    placed (range_clusterer (_cluster_count self) split) a) as Hpl.
  { intros a Ha. apply elem_of_cons in Ha as [->|Ha]; [done|].
    apply list_elem_of_singleton in Ha as ->. done. }
  intros a b c c' cluster cluster' r r' Ha Hb.
  apply (placed_ordered (_cluster_count self) split a b); try done; try lia;
    by apply Hpl.
Qed.

(** X17.  With one cluster, and in the non-equi case, each side comes out
    sorted as a whole: its clusters, one after the other, are in ascending
    order of value. *)
Theorem execute_sorted ty debug self sl sr ol or :
  1 <= _cluster_count self <= SIZE_MAX ->
  _cluster_count self = 1 \/ _equi_case self = false ->
  execute ty debug self sl sr = Ok (ol, or) ->
  StronglySorted (fun a b => value a <= value b) (concat ol)
  /\ StronglySorted (fun a b => value a <= value b) (concat or).
Proof.
  intros Hk Hcase H.
  assert (forall side, side ∈ [ol; or] ->
            Forall (StronglySorted (fun a b => value a <= value b)) side) as Hs.
  { intros side Hside. apply Forall_forall. intros cluster Hc.
    apply execute_inv in H as (_ & _ & l0 & r0 & _ & _ & _ & -> & ->).
    assert (cluster ∈ _sort_clusters l0 \/ cluster ∈ _sort_clusters r0) as [Hc'|Hc'].
    { apply elem_of_cons in Hside as [->|Hside]; [by left|].
      apply list_elem_of_singleton in Hside as ->. by right. }
    all: unfold _sort_clusters in Hc';
      apply list_elem_of_fmap in Hc' as (c0 & -> & _); apply sort_by_value_sorted. }
  assert (forall side (c c' : nat) l l' x y, side ∈ [ol; or] ->
            side !! c = Some l -> side !! c' = Some l' -> (c < c')%nat ->
            x ∈ l -> y ∈ l' -> value x <= value y) as Hord.
  { intros side c c' l l' x y Hside Hc Hc' Hlt Hx Hy.
    destruct (Z.eq_dec (_cluster_count self) 1) as [E|E].
    - apply execute_inv in H as (cl & cr & l0 & r0 & _ & _ & Hcl & -> & ->).
      apply clustered_permutation in Hcl as (_ & L1 & L2).
      rewrite E in L1, L2. apply lookup_lt_Some in Hc'.
      apply elem_of_cons in Hside as [->|Hside];
        [|apply list_elem_of_singleton in Hside as ->];
        unfold _sort_clusters in Hc'; rewrite length_fmap in Hc'; simpl in *; lia.
    - destruct Hcase as [?|Hequi]; [done|].
      apply Z.lt_le_incl.
      assert (2 <= _cluster_count self <= SIZE_MAX) as Hk2 by lia.
      apply (execute_range_order _ _ _ _ _ _ _ Hk2 Hequi H side side c c' l l');
        done. }
  split; apply concat_sorted.
  - apply Hs. by left.
  - intros c c' l l' x y. apply Hord. by left.
  - apply Hs. right. by left.
  - intros c c' l l' x y. apply Hord. right. by left.
Qed.
End RangeOrder.

Section FilterConcat.
Context {A : Type}.

Lemma filter_none (f : A -> bool) (l : list A) :
  (forall r, r ∈ l -> f r = false) -> List.filter f l = [].
Proof.
  induction l as [|x l IH]; intros H; simpl; [done|].
  rewrite (H x) by apply list_elem_of_here.
  apply IH. intros r Hr. apply H. by apply list_elem_of_further.
Qed.

Lemma filter_all (f : A -> bool) (l : list A) :
  (forall r, r ∈ l -> f r = true) -> List.filter f l = l.
Proof.
  induction l as [|x l IH]; intros H; simpl; [done|].
  rewrite (H x) by apply list_elem_of_here.
  f_equal. apply IH. intros r Hr. apply H. by apply list_elem_of_further.
Qed.

Lemma filter_permutation (f : A -> bool) (l l' : list A) :
  l ≡ₚ l' -> List.filter f l ≡ₚ List.filter f l'.
Proof.
  induction 1 as [|x l l' _ IH|x y l|l1 l2 l3 _ IH1 _ IH2]; simpl; [done|..].
  - destruct (f x); [by constructor|done].
  - destruct (f x), (f y); try done. apply perm_swap.
  - by etrans.
Qed.

(** A list of lists whose members are told apart by their position. *)
Lemma filter_concat_index (f : A -> bool) (out : list (list A)) :
  forall (c : nat) cluster,
    out !! c = Some cluster ->
    (forall (i : nat) cl r, out !! i = Some cl -> r ∈ cl -> f r = bool_decide (i = c)) ->
    List.filter f (concat out) = cluster.
Proof.
  induction out as [|x out IH]; intros c cluster Hc H; [done|].
  simpl. rewrite List.filter_app. destruct c as [|c]; simpl in Hc.
  - injection Hc as ->. rewrite filter_all.
    + rewrite filter_none; [by rewrite app_nil_r|].
      intros r Hr. apply elem_of_concat in Hr as (cl & Hr & Hcl).
      apply list_elem_of_lookup in Hcl as [i Hi].
      by rewrite (H (S i) cl r Hi Hr).
    + intros r Hr. by rewrite (H 0%nat cluster r eq_refl Hr).
  - rewrite filter_none.
    + simpl. apply (IH c cluster Hc). intros i cl r Hi Hr.
      rewrite (H (S i) cl r Hi Hr). apply bool_decide_ext. lia.
    + intros r Hr. by rewrite (H 0%nat x r eq_refl Hr).
Qed.
End FilterConcat.

Section ClusterContents.
Import radix_cluster_sort.
Context {Mem : Allocator}.

(** X2.  Whatever the interleaving of the clustering jobs, [_cluster] hands
    out [cluster_count] clusters; they hold the records of the input
    chunks, each once, and every record is in the cluster its value is
    sent to by the clusterer. *)
Theorem cluster_partitions clusterer k schedule input out :
  (forall v c, clusterer v = Ok c -> 0 <= c) ->
  _cluster k schedule input clusterer = Ok out ->
  length out = Z.to_nat k
  /\ concat out ≡ₚ concat input
  /\ placed clusterer out.
Proof.
  intros Hnn H. split; [by apply cluster_size in H as [_ ?]|].
  split; [by eapply cluster_permutation|by eapply cluster_placed].
Qed.

(** X3.  The interleaving of the clustering jobs decides the order inside
    the clusters and nothing else: under two schedules the clusters of the
    same index hold the same records. *)
Theorem cluster_schedule_independent (clusterer : Z -> result Z) k schedule schedule'
    input out out' :
  (forall v c, clusterer v = Ok c -> 0 <= c) ->
  _cluster k schedule input clusterer = Ok out ->
  _cluster k schedule' input clusterer = Ok out' ->
  length out = length out'
  /\ forall (c : nat) cluster cluster',
       out !! c = Some cluster -> out' !! c = Some cluster' -> cluster ≡ₚ cluster'.
Proof.
  intros Hnn H H'. split.
  { apply cluster_size in H as [_ ->]. by apply cluster_size in H' as [_ ->]. }
  intros c cluster cluster' Hc Hc'.
  set (f := fun r : MaterializedValue =>
              match clusterer (value r) with
              | Ok z => z =? Z.of_nat c
              | Err _ => false
              end).
  assert (forall o, placed clusterer o ->
            forall (i : nat) cl r, o !! i = Some cl -> r ∈ cl ->
              f r = bool_decide (i = c)) as Hf.
  { intros o Hpl i cl r Hi Hr. unfold f. rewrite (Hpl i cl r Hi Hr).
    destruct (Z.eqb_spec (Z.of_nat i) (Z.of_nat c)) as [E|E].
    - symmetry. apply bool_decide_eq_true. lia.
    - symmetry. apply bool_decide_eq_false. lia. }
  rewrite <- (filter_concat_index f out c cluster Hc
                (Hf out (cluster_placed _ Hnn _ _ _ _ H))).
  rewrite <- (filter_concat_index f out' c cluster' Hc'
                (Hf out' (cluster_placed _ Hnn _ _ _ _ H'))).
  apply filter_permutation.
  by rewrite (cluster_permutation _ _ _ _ _ H), (cluster_permutation _ _ _ _ _ H').
Qed.

(** X4.  [_sort_clusters] keeps the number of clusters and gives in each
    place the records of the cluster that was there, in ascending order of
    value. *)
Theorem sort_clusters_sorts (clusters : list (list MaterializedValue)) :
  length (_sort_clusters clusters) = length clusters
  /\ forall (c : nat) cluster,
       clusters !! c = Some cluster ->
       exists sorted,
         _sort_clusters clusters !! c = Some sorted
         /\ sorted ≡ₚ cluster
         /\ StronglySorted (fun a b => value a <= value b) sorted.
Proof.
  unfold _sort_clusters. split; [by rewrite length_fmap|].
  intros c cluster Hc. exists (sort_by_value cluster).
  rewrite list_lookup_fmap, Hc. split; [done|].
  split; [apply sort_by_value_permutation|apply sort_by_value_sorted].
Qed.
End ClusterContents.

Section RadixColocation.
Import radix_cluster_sort.
Context {Mem : Allocator}.

(** Integer [T]: for a cluster count [k] a [size_t] holds whose clusters
    can be allocated, under every interleaving, [_radix_cluster] returns [k]
    clusters that hold the records of the input, each once, every record
    [r] in cluster [static_cast<uint32_t>(r.value) & (k - 1)]; so records
    with equal values are in the same cluster. *)
Lemma radix_cluster_colocates k schedule input :
  0 < k <= SIZE_MAX -> allocates k = true ->
  exists out,
    _radix_cluster k schedule input = Ok out
    /\ length out = Z.to_nat k
    /\ concat out ≡ₚ concat input
    /\ (forall (c : nat) cluster r,
          out !! c = Some cluster -> r ∈ cluster ->
          Z.land (to_uint32 (value r)) (k - 1) = Z.of_nat c)
    /\ (forall (c1 c2 : nat) cluster1 cluster2 r1 r2,
          out !! c1 = Some cluster1 -> r1 ∈ cluster1 ->
          out !! c2 = Some cluster2 -> r2 ∈ cluster2 ->
          value r1 = value r2 -> c1 = c2).
Proof.
  intros Hk Hroom.
  destruct (radix_cluster_returns k schedule input Hk Hroom) as [out Hout].
  exists out. split; [done|]. unfold _radix_cluster in Hout.
  assert (forall (c : nat) cluster r,
             out !! c = Some cluster -> r ∈ cluster ->
             Z.land (to_uint32 (value r)) (k - 1) = Z.of_nat c) as Hpl.
  { intros c cluster r Hc Hr. rewrite <- radix_clusterer_mask by done.
    pose proof Hout as Hplaced. apply cluster_placed in Hplaced.
    - specialize (Hplaced c cluster r Hc Hr). by injection Hplaced.
    - intros v c' [= <-]. by apply radix_clusterer_bound. }
  split; [by apply cluster_size in Hout as [_ ?]|].
  split; [by eapply cluster_permutation|]. split; [done|].
  intros c1 c2 cl1 cl2 r1 r2 H1 Hr1 H2 Hr2 Hv.
  pose proof (Hpl _ _ _ H1 Hr1) as E1. pose proof (Hpl _ _ _ H2 Hr2) as E2.
  rewrite Hv in E1. lia.
Qed.

(** [T = std::string]: the four bytes [get_radix] reads belong to the
    value when the string has three characters or more (the fourth may be
    the terminator), so equal strings of that length have the same radix,
    whatever follows them in their buffers. *)
Lemma get_radix_string_long (a b : cpp_string) radix_bitmask :
  characters a = characters b -> (3 <= length (characters a))%nat ->
  get_radix_string a radix_bitmask = get_radix_string b radix_bitmask.
Proof.
  unfold get_radix_string, c_str. intros <-.
  destruct (characters a) as [|b0 [|b1 [|b2 [|b3 l]]]]; simpl; try lia; done.
Qed.
End RadixColocation.

Section StringRadix.
Import radix_cluster_sort inputs.
#[local] Existing Instance roomy.

(** C5.  [T = std::string], 512 clusters, one chunk with two records
    whose values are the empty string; behind the terminating zero the
    buffer of the first holds the byte 121 and the buffer of the second the
    byte 122 (what [clear()] leaves of "xy" and of "xz").  The values are
    equal.  [get_radix] reads four bytes from each buffer, 256 * 121 and
    256 * 122 as 32-bit numbers, and with the mask 511 the radix is 256 for
    the first and 0 for the second: [_radix_cluster] puts the first record
    into cluster 256 and the second into cluster 0. *)
Theorem string_radix_separates_equal_values :
  let a := {| characters := []; behind_terminator := [121; 0; 0] |} in
  let b := {| characters := []; behind_terminator := [122; 0; 0] |} in
  let ra := {| value := a; row_id := {| chunk_id := 0; chunk_offset := 0 |} |} in
  let rb := {| value := b; row_id := {| chunk_id := 0; chunk_offset := 1 |} |} in
  characters a = characters b
  /\ get_radix_string a 511 = Ok 256
  /\ get_radix_string b 511 = Ok 0
  /\ exists out,
       _radix_cluster_string 512 [] [[ra; rb]] = Ok out
       /\ length out = 512%nat
       /\ out !! 256%nat = Some [ra]
       /\ out !! 0%nat = Some [rb].
Proof.
  split; [reflexivity|]. split; [reflexivity|]. split; [reflexivity|].
  eexists. split; [vm_compute; reflexivity|]. repeat split.
Qed.
End StringRadix.

Section RangeOrderAcrossSides.
Import radix_cluster_sort.
Context {F : Float32} {Mem : Allocator}.

(** X11.  What [_range_cluster] returns is ordered across clusters and
    sides: a record in a cluster of lower index, left or right, has a
    smaller value than a record in a cluster of higher index, left or
    right. *)
Theorem range_cluster_orders ty k sl sr (il ir ol or : list (list MaterializedValue)) :
  2 <= k <= SIZE_MAX ->
  _range_cluster ty k sl sr il ir = Ok (ol, or) ->
  forall a b (c c' : nat) cluster cluster' r r',
    a ∈ [ol; or] -> b ∈ [ol; or] ->
    a !! c = Some cluster -> b !! c' = Some cluster' -> (c < c')%nat ->
    r ∈ cluster -> r' ∈ cluster' -> value r < value r'.
Proof.
  intros Hk H. apply range_cluster_placed in H as (split & Hlen & Pl & Pr); [|done].
  assert (forall a, a ∈ [ol; or] -> placed (range_clusterer k split) a) as Hpl.
  { intros a Ha. apply elem_of_cons in Ha as [->|Ha]; [done|].
    apply list_elem_of_singleton in Ha as ->. done. }
  intros a b c c' cluster cluster' r r' Ha Hb.
  apply (placed_ordered k split a b); try done; try lia; by apply Hpl.
Qed.

(** X13.  The two size assertions of [execute] never fire: a debug build
    returns what a release build returns, results and failures alike. *)
Theorem debug_build_agrees ty self sl sr :
  execute ty true self sl sr = execute ty false self sl sr.
Proof. apply execute_assertions_hold. Qed.
End RangeOrderAcrossSides.

Section SampleInBounds.
Import radix_cluster_sort.

(** X8.  In single precision, with at most [2 ^ 23] clusters, the position
    sampled in a chunk that is not empty is a position of the chunk. *)
Theorem sample_index_safe k n cluster_id :
  1 <= n <= SIZE_MAX -> 2 <= k <= 2 ^ 23 -> 0 <= cluster_id <= k - 2 ->
  exists index,
    sample_index (F := binary32) k n cluster_id = Ok index /\ 0 <= index < n.
Proof. apply sample_index_in_range. Qed.
End SampleInBounds.

Section RadixModulo.
Import radix_cluster_sort.

(** X6.  With [2 ^ n] clusters, [n <= 32], the radix of a value is the
    value modulo the cluster count, also for a negative value. *)
Theorem radix_clusterer_modulo n v :
  0 <= n <= 32 -> radix_clusterer (2 ^ n) v = v mod 2 ^ n.
Proof.
  intros Hn.
  assert (0 < 2 ^ n <= 2 ^ 32) as Hk.
  { split; [apply Z.pow_pos_nonneg; lia|apply Z.pow_le_mono_r; lia]. }
  rewrite radix_clusterer_mask by (unfold SIZE_MAX; lia).
  unfold to_uint32.
  replace (2 ^ n - 1) with (Z.ones n) by (rewrite Z.ones_equiv; lia).
  rewrite Z.land_ones by lia.
  apply Z.mod_mod_divide.
  exists (2 ^ (32 - n)). rewrite <- Z.pow_add_r by lia. f_equal. lia.
Qed.
End RadixModulo.

Section RangeEdges.
Import radix_cluster_sort.
Context {Mem : Allocator}.
#[local] Existing Instance binary32.

Lemma sample_index_empty_chunk k cluster_id :
  0 < k <= SIZE_MAX -> sample_index k 0 cluster_id = Ok 0.
Proof.
  unfold SIZE_MAX. intros Hk. unfold sample_index, sample_position, size_mul, size_wrap.
  rewrite Z.mul_0_l, Z.mod_0_l by lia. cbn [of_Z fdiv binary32].
  pose proof (binary32_of_Z_pos k ltac:(lia)) as Hpos.
  destruct (binary_normalize 24 128 k 0 false) as [s|[]| |[] m e]; done.
Qed.

Lemma pick_sample_empty_chunk k sample_values cluster_id :
  0 < k <= SIZE_MAX ->
  pick_sample k [] sample_values cluster_id
  = Err (UndefinedBehaviour "sample index out of range").
Proof.
  intros Hk. unfold pick_sample. change (Z.of_nat (length [])) with 0.
  by rewrite sample_index_empty_chunk.
Qed.

Lemma pick_sample_values_empty_chunk k (table : list (list MaterializedValue))
    sample_values :
  2 <= k <= SIZE_MAX -> [] ∈ table ->
  exists e, _pick_sample_values k sample_values table = Err e.
Proof.
  intros Hk Hin. apply list_elem_of_split in Hin as (t1 & t2 & ->).
  unfold _pick_sample_values. apply foldM_fails. intros sv.
  unfold size_sub, size_wrap, SIZE_MAX in *. rewrite (Z.mod_small (k - 1)) by lia.
  rewrite seqZ_cons by lia. simpl.
  rewrite pick_sample_empty_chunk by (unfold SIZE_MAX; lia). simpl. eauto.
Qed.

(** X9.  An empty chunk on either side makes the range clustering read out
    of range: [_range_cluster] does not return. *)
Theorem range_cluster_empty_chunk ty k sl sr
    (input_left input_right : list (list MaterializedValue)) :
  2 <= k <= SIZE_MAX -> [] ∈ input_left \/ [] ∈ input_right ->
  exists e, _range_cluster ty k sl sr input_left input_right = Err e.
Proof.
  intros Hk Hempty. unfold _range_cluster, range_split_values, allocate.
  destruct (allocates (size_sub k 1)); simpl; [|eauto].
  destruct Hempty as [Hl|Hr].
  - destruct (pick_sample_values_empty_chunk k input_left
                (replicate (Z.to_nat (size_sub k 1)) []) Hk Hl) as [e ->].
    simpl. eauto.
  - destruct (_pick_sample_values k _ input_left) as [sv|e]; simpl; [|eauto].
    destruct (pick_sample_values_empty_chunk k input_right sv Hk Hr) as [e ->].
    simpl. eauto.
Qed.

(** X10.  Without a chunk on either side there is nothing to sample: once
    the vectors of [k - 1] histograms and split values are allocated, the
    first histogram is empty, [std::max_element] returns [end()], and the
    iterator is dereferenced, which is undefined behaviour. *)
Theorem range_cluster_no_chunks ty k sl sr :
  2 <= k <= SIZE_MAX -> allocates (k - 1) = true ->
  _range_cluster ty k sl sr [] [] = Err (UndefinedBehaviour "end() dereferenced").
Proof.
  intros Hk Hroom.
  unfold _range_cluster, range_split_values, _pick_sample_values, allocate.
  unfold pick_split_values, size_sub, size_wrap, SIZE_MAX in *.
  rewrite (Z.mod_small (k - 1)) by lia. rewrite Hroom. simpl.
  rewrite seqZ_cons by lia. simpl. unfold pick_split_value.
  destruct (Z.to_nat (k - 1)) as [|n] eqn:E; [lia|]. simpl. done.
Qed.
End RangeEdges.

Section MaxElement.
Import radix_cluster_sort.

(** X7.  On the histogram of a cluster, [std::max_element] with the
    comparison of the counts finds the entry with the highest count, and
    among entries of that count the one with the smallest value. *)
Theorem max_element_highest_count h :
  key_sorted h -> h <> [] ->
  exists x, max_element h = Some x /\ is_most_common h x.
Proof.
  intros Hs Hne. destruct h as [|a h]; [done|].
  eexists. split; [done|]. by apply max_element_from_spec.
Qed.
End MaxElement.

Section ExecuteDelivers.
Import radix_cluster_sort.
Context {Mem : Allocator}.

(** X5.  The concatenated chunks are one chunk: the records of the input
    chunks in their order. *)
Theorem concatenate_chunks_single (chunks : list (list MaterializedValue)) :
  _concatenate_chunks chunks = [concat chunks]
  /\ _materialized_table_size (_concatenate_chunks chunks)
     = _materialized_table_size chunks.
Proof.
  split; [apply concatenate_chunks_concat|].
  rewrite concatenate_chunks_concat, !materialized_table_size_total. simpl.
  induction chunks as [|c chunks IH]; simpl; [done|].
  rewrite length_app. simpl in IH. lia.
Qed.

End ExecuteDelivers.

Section ClusteringWitnesses.
Import radix_cluster_sort inputs.
#[local] Existing Instance roomy.

(** Eight clusters, both inputs present. *)
Lemma make_checks_power_of_two_witness :
  0 <= 8 <= SIZE_MAX
  /\ ((exists self,
         make true (Some (single_column [[1]])) (Some (single_column [[2]]))
           ("a", "a") true 8 = Ok self)
      <-> (exists n, 0 <= n < 64 /\ 8 = 2 ^ n)
          /\ Some (single_column [[1]]) <> None /\ Some (single_column [[2]]) <> None)
  /\ (exists self,
        make false (Some (single_column [[1]])) (Some (single_column [[2]]))
          ("a", "a") true 8 = Ok self).
Proof.
  split; [unfold SIZE_MAX; lia|].
  apply (make_checks_power_of_two (Some (single_column [[1]]))
           (Some (single_column [[2]])) ("a", "a") true 8).
  unfold SIZE_MAX. lia.
Defined.

(** Eight clusters, the value -3. *)
Lemma radix_clusterer_modulo_witness :
  0 <= 3 <= 32 /\ radix_clusterer (2 ^ 3) (-3) = (-3) mod 2 ^ 3.
Proof. split; [lia|]. apply (radix_clusterer_modulo 3 (-3)). lia. Defined.

(** Two chunks, two clusters by the lowest bit, the jobs interleaved. *)
Lemma cluster_partitions_witness :
  (forall v c, (fun value => Ok (radix_clusterer 2 value)) v = Ok c -> 0 <= c)
  /\ exists out,
       _cluster 2 [1; 0; 1]%nat
         [[record 5 0; record 1 1; record 4 2]; [record 6 0; record 2 1]]
         (fun value => Ok (radix_clusterer 2 value)) = Ok out
       /\ length out = Z.to_nat 2
       /\ concat out
          ≡ₚ concat [[record 5 0; record 1 1; record 4 2]; [record 6 0; record 2 1]]
       /\ placed (fun value => Ok (radix_clusterer 2 value)) out.
Proof.
  assert (forall v c, (fun value => Ok (radix_clusterer 2 value)) v = Ok c -> 0 <= c)
    as Hnn.
  { intros v c [= <-]. apply radix_clusterer_bound. unfold SIZE_MAX. lia. }
  split; [exact Hnn|].
  eexists. split; [vm_compute; reflexivity|].
  apply (cluster_partitions (fun value => Ok (radix_clusterer 2 value)) 2 [1; 0; 1]%nat
           [[record 5 0; record 1 1; record 4 2]; [record 6 0; record 2 1]] _ Hnn).
  vm_compute. reflexivity.
Defined.

(** The same input under two interleavings. *)
Lemma cluster_schedule_independent_witness :
  (forall v c, (fun value => Ok (radix_clusterer 2 value)) v = Ok c -> 0 <= c)
  /\ exists out out',
       _cluster 2 [1; 0; 1]%nat
         [[record 5 0; record 1 1; record 4 2]; [record 6 0; record 2 1]]
         (fun value => Ok (radix_clusterer 2 value)) = Ok out
       /\ _cluster 2 [0; 0; 0]%nat
            [[record 5 0; record 1 1; record 4 2]; [record 6 0; record 2 1]]
            (fun value => Ok (radix_clusterer 2 value)) = Ok out'
       /\ out <> out'
       /\ length out = length out'
       /\ forall (c : nat) cluster cluster',
            out !! c = Some cluster -> out' !! c = Some cluster' -> cluster ≡ₚ cluster'.
Proof.
  assert (forall v c, (fun value => Ok (radix_clusterer 2 value)) v = Ok c -> 0 <= c)
    as Hnn.
  { intros v c [= <-]. apply radix_clusterer_bound. unfold SIZE_MAX. lia. }
  split; [exact Hnn|].
  do 2 eexists. split; [vm_compute; reflexivity|]. split; [vm_compute; reflexivity|].
  split; [discriminate|].
  apply (cluster_schedule_independent (fun value => Ok (radix_clusterer 2 value)) 2
           [1; 0; 1]%nat [0; 0; 0]%nat
           [[record 5 0; record 1 1; record 4 2]; [record 6 0; record 2 1]] _ _ Hnn);
    vm_compute; reflexivity.
Defined.

(** A histogram with a tie for the highest count. *)
Lemma max_element_highest_count_witness :
  key_sorted [(10, 1); (20, 3); (30, 3)]
  /\ [(10, 1); (20, 3); (30, 3)] <> ([] : list (Z * Z))
  /\ exists x, max_element [(10, 1); (20, 3); (30, 3)] = Some x
               /\ is_most_common [(10, 1); (20, 3); (30, 3)] x.
Proof.
  assert (key_sorted [(10, 1); (20, 3); (30, 3)]) as Hs.
  { unfold key_sorted. repeat constructor; simpl; lia. }
  split; [exact Hs|]. split; [discriminate|].
  apply (max_element_highest_count [(10, 1); (20, 3); (30, 3)] Hs). discriminate.
Defined.

(** Four clusters, a chunk of eight rows, the last sample. *)
Lemma sample_index_safe_witness :
  1 <= 8 <= SIZE_MAX /\ 2 <= 4 <= 2 ^ 23 /\ 0 <= 2 <= 4 - 2
  /\ exists index, sample_index (F := binary32) 4 8 2 = Ok index /\ 0 <= index < 8.
Proof.
  split; [unfold SIZE_MAX; lia|]. split; [lia|]. split; [lia|].
  apply (sample_index_safe 4 8 2); unfold SIZE_MAX; lia.
Defined.

(** The right input has an empty chunk. *)
Lemma range_cluster_empty_chunk_witness :
  2 <= 2 <= SIZE_MAX
  /\ ([] ∈ [chunk_10_40] \/ [] ∈ [chunk_10_40; []])
  /\ exists e,
       _range_cluster (F := binary32) Int32 2 [] [] [chunk_10_40] [chunk_10_40; []]
       = Err e.
Proof.
  split; [unfold SIZE_MAX; lia|].
  assert (([] : list MaterializedValue) ∈ [chunk_10_40; []]) as Hin.
  { apply list_elem_of_further, list_elem_of_here. }
  split; [by right|].
  apply (range_cluster_empty_chunk Int32 2 [] [] [chunk_10_40] [chunk_10_40; []]);
    [unfold SIZE_MAX; lia|by right].
Defined.

Lemma range_cluster_no_chunks_witness :
  2 <= 4 <= SIZE_MAX /\ allocates (4 - 1) = true
  /\ _range_cluster (F := binary32) Int32 4 [] [] [] []
     = Err (UndefinedBehaviour "end() dereferenced").
Proof.
  split; [unfold SIZE_MAX; lia|]. split; [reflexivity|].
  apply (range_cluster_no_chunks Int32 4 [] []); [unfold SIZE_MAX; lia|reflexivity].
Defined.
End ClusteringWitnesses.

Section ExecuteWitnesses.
Import radix_cluster_sort inputs.
#[local] Existing Instance roomy.

(** Two clusters, the values 1 to 4 against 2 and 3: both samples are 3,
    the split value is their count 2, and each side has records in both
    clusters. *)
Lemma range_cluster_orders_witness :
  let il := [[record 1 0; record 2 1; record 3 2; record 4 3]] in
  let ir := [[record 2 0; record 3 1]] in
  let ol := [[record 1 0; record 2 1]; [record 3 2; record 4 3]] in
  let or := [[record 2 0]; [record 3 1]] in
  2 <= 2 <= SIZE_MAX
  /\ _range_cluster (F := binary32) Int32 2 [0]%nat [] il ir = Ok (ol, or)
  /\ forall a b (c c' : nat) cluster cluster' r r',
       a ∈ [ol; or] -> b ∈ [ol; or] ->
       a !! c = Some cluster -> b !! c' = Some cluster' -> (c < c')%nat ->
       r ∈ cluster -> r' ∈ cluster' -> value r < value r'.
Proof.
  split; [unfold SIZE_MAX; lia|]. split; [vm_compute; reflexivity|].
  apply (range_cluster_orders (F := binary32) Int32 2 [0]%nat []
           [[record 1 0; record 2 1; record 3 2; record 4 3]]
           [[record 2 0; record 3 1]]);
    [unfold SIZE_MAX; lia|vm_compute; reflexivity].
Defined.


(** The radix path with two clusters. *)
Lemma execute_clusters_sorted_witness :
  exists ol or,
    execute (F := binary32) Int32 true (join true 2 [[5; 1; 4]; [6; 2]] [[3; 1]])
      [1; 0]%nat [] = Ok (ol, or)
    /\ forall cluster, cluster ∈ ol \/ cluster ∈ or ->
         StronglySorted (fun a b => value a <= value b) cluster.
Proof.
  do 2 eexists. split; [vm_compute; reflexivity|].
  apply (execute_clusters_sorted (F := binary32) Int32 true
           (join true 2 [[5; 1; 4]; [6; 2]] [[3; 1]]) [1; 0]%nat []).
  vm_compute. reflexivity.
Defined.

Lemma execute_permutation_witness :
  exists ol or,
    execute (F := binary32) Int32 true (join true 2 [[5; 1; 4]; [6; 2]] [[3; 1]])
      [1; 0]%nat [] = Ok (ol, or)
    /\ exists chunks_left chunks_right,
         materialize (negb true) (Some (single_column [[5; 1; 4]; [6; 2]])) "a"
         = Ok chunks_left
         /\ materialize (negb true) (Some (single_column [[3; 1]])) "a"
            = Ok chunks_right
         /\ concat ol ≡ₚ concat chunks_left
         /\ concat or ≡ₚ concat chunks_right
         /\ length ol = Z.to_nat 2
         /\ length or = Z.to_nat 2.
Proof.
  do 2 eexists. split; [vm_compute; reflexivity|].
  apply (execute_permutation (F := binary32) Int32 true
           (join true 2 [[5; 1; 4]; [6; 2]] [[3; 1]]) [1; 0]%nat []).
  vm_compute. reflexivity.
Defined.


(** The range path with three clusters, chunks given unsorted. *)
Lemma execute_sorted_witness :
  1 <= 3 <= SIZE_MAX
  /\ (3 = 1 \/ false = false)
  /\ exists ol or,
       execute (F := binary32) Int32 true
         (join false 3 [[40; 10; 30; 20]; [35; 15; 25]] [[20; 40; 10; 30]])
         [0; 1]%nat [] = Ok (ol, or)
       /\ StronglySorted (fun a b => value a <= value b) (concat ol)
       /\ StronglySorted (fun a b => value a <= value b) (concat or).
Proof.
  split; [unfold SIZE_MAX; lia|]. split; [by right|].
  do 2 eexists. split; [vm_compute; reflexivity|].
  apply (execute_sorted (F := binary32) Int32 true
           (join false 3 [[40; 10; 30; 20]; [35; 15; 25]] [[20; 40; 10; 30]])
           [0; 1]%nat []);
    [unfold SIZE_MAX; simpl; lia|by right|vm_compute; reflexivity].
Defined.
End ExecuteWitnesses.

(* ===================================================================== *)
(** * The estimator: caches, ranges and order *)
(* ===================================================================== *)

Section LazyCache.
Import column_statistics.
Context {F : Float32} {O : Operators}.

(** X18.  A statistic that was delivered once is cached: asking again gives
    the same value and leaves the object as it is, whatever the table
    does meanwhile. *)
Theorem lazy_statistics_cached (self : ColumnStatistics) :
  (forall d s, distinct_count self = Ok (d, s) ->
     _distinct_count s = Some d /\ distinct_count s = Ok (d, s))
  /\ (forall lo s, min self = Ok (lo, s) -> _min s = Some lo /\ min s = Ok (lo, s))
  /\ (forall hi s, max self = Ok (hi, s) -> _max s = Some hi /\ max s = Ok (hi, s)).
Proof.
  split; [|split]; intros x s; unfold distinct_count, min, max, bind, gets, ret.
  - destruct (_distinct_count self) as [d|] eqn:Hd; cbn.
    + rewrite Hd. cbn. intros [= <- <-]. rewrite Hd. cbn. by rewrite Hd.
    + destruct (update_distinct_count self) as [[[] s']|]; [|done].
      destruct (_distinct_count s') as [d|] eqn:Hd'; cbn; [|done].
      intros [= <- <-]. rewrite Hd'. cbn. by rewrite Hd'.
  - destruct (_min self) as [d|] eqn:Hd; cbn.
    + rewrite Hd. cbn. intros [= <- <-]. rewrite Hd. cbn. by rewrite Hd.
    + destruct (update_min_max self) as [[[] s']|]; [|done].
      destruct (_min s') as [d|] eqn:Hd'; cbn; [|done].
      intros [= <- <-]. rewrite Hd'. cbn. by rewrite Hd'.
  - destruct (_max self) as [d|] eqn:Hd; cbn.
    + rewrite Hd. cbn. intros [= <- <-]. rewrite Hd. cbn. by rewrite Hd.
    + destruct (update_min_max self) as [[[] s']|]; [|done].
      destruct (_max s') as [d|] eqn:Hd'; cbn; [|done].
      intros [= <- <-]. rewrite Hd'. cbn. by rewrite Hd'.
Qed.

(** X19.  One query of the table serves both bounds: when [min()] had to ask
    the table, it stores what the aggregate gave as minimum and maximum,
    and [max()] is then answered from the cache, and the other way
    round. *)
Theorem min_max_filled_together (self : ColumnStatistics) :
  (forall lo s, _min self = None -> min self = Ok (lo, s) ->
     exists t hi,
       _table self = Some t
       /\ aggregate_min_max t (column_name t (_column_id self)) = Ok (lo, hi)
       /\ max s = Ok (hi, s))
  /\ (forall hi s, _max self = None -> max self = Ok (hi, s) ->
        exists t lo,
          _table self = Some t
          /\ aggregate_min_max t (column_name t (_column_id self)) = Ok (lo, hi)
          /\ min s = Ok (lo, s)).
Proof.
  split; intros x s Hnone; unfold min, max, bind, gets, ret; rewrite Hnone; cbn;
    unfold update_min_max;
    destruct (table_wrapper_execute (_table self)); cbn; try done;
    destruct (_table self) as [t|]; try done;
    destruct (aggregate_min_max t _) as [[lo hi]|] eqn:Ha; cbn; try done;
    intros [= <- <-]; exists t; eexists; (split; [done|]); (split; [done|]); done.
Qed.
End LazyCache.

Section RangeFacts.
Lemma in_range_false ty z :
  in_range ty z = false <-> z < int_min ty \/ int_max ty < z.
Proof. unfold in_range. rewrite andb_false_iff, !Z.leb_gt. done. Qed.

Lemma int_bounds_sign ty : int_min ty < 0 < int_max ty.
Proof. by destruct ty. Qed.
End RangeFacts.

(** Run a call on cached statistics, keeping what each overflow check
    found. *)
Ltac run_checked :=
  cbn;
  unfold column_statistics.two_column_body, column_statistics.less_than_equals_case,
         column_statistics.greater_than_equals_case;
  cbn;
  repeat (progress (unfold column_statistics.bind, column_statistics.lift,
                           column_statistics.orM, column_statistics.ret,
                           column_statistics.gets, column_statistics.range_width,
                           int_sub, int_add, int_checked, column_statistics.on_this,
                           column_statistics.on_value); cbn);
  repeat match goal with
    | |- context [if ?b then _ else _] => destruct b eqn:?; cbn
    end.

Ltac range_facts :=
  repeat match goal with
    | H : in_range _ _ = true |- _ => apply in_range_bounds in H
    | H : in_range _ _ = false |- _ => apply in_range_false in H
    end;
  order_facts.

Section Agreement.
Import column_statistics.
Context {F : Float32} {O : Operators}.

(** X21.  Strictly inside the range of an integer column, [<= v] is
    estimated as [< v + 1] and [>= v] as [> v - 1]: the same selectivity,
    the same derived statistics, and the same failure when a difference
    leaves the column type. *)
Theorem inclusive_as_strict ty id d lo hi v value2 value2' :
  in_range ty lo = true -> in_range ty hi = true ->
  (lo <= v < hi ->
   predicate_selectivity ty OpLessThanEquals v value2 (of_values id d lo hi)
   = predicate_selectivity ty OpLessThan (v + 1) value2' (of_values id d lo hi))
  /\ (lo < v <= hi ->
      predicate_selectivity ty OpGreaterThanEquals v value2 (of_values id d lo hi)
      = predicate_selectivity ty OpGreaterThan (v - 1) value2' (of_values id d lo hi)).
Proof.
  intros Hlo Hhi. pose proof (int_bounds_sign ty) as Hsign.
  split; intros Hv.
  - run_checked; range_facts; try lia; try done.
    replace (v + 1 - lo) with (v - lo + 1) by lia.
    replace (v + 1 - 1) with v by lia. done.
  - run_checked; range_facts; try lia; try done.
    replace (hi - (v - 1)) with (hi - v + 1) by lia.
    replace (v - 1 + 1) with v by lia. done.
Qed.
End Agreement.

Section Between.
Import column_statistics.
Context {F : Float32} {O : Operators}.

(** X22.  BETWEEN only sees the part of its interval inside the column's
    range: on cached statistics with [min <= max], bounds beyond the range
    give what the bounds cut to the range give. *)
Theorem between_clamps_to_range ty id d lo hi v v2 :
  lo <= hi ->
  predicate_selectivity ty OpBetween v (Some v2) (of_values id d lo hi)
  = predicate_selectivity ty OpBetween (Z.max v lo) (Some (Z.min v2 hi))
      (of_values id d lo hi).
Proof.
  intros Hlohi. run_checked; range_facts; try lia; try done.
  all: rewrite ?(Z.max_l (Z.max v lo) lo), ?(Z.min_l (Z.min v2 hi) hi) in * by lia.
  all: try done; try lia.
Qed.

(** X24.  Statistics derived by a constant predicate describe a part of the
    column's range. *)
Theorem derived_statistics_range ty id d lo hi scan_type v v2 c s derived :
  lo <= hi ->
  (scan_type = OpLessThan -> v <= hi + 1) ->
  (scan_type = OpGreaterThan -> lo - 1 <= v) ->
  predicate_selectivity ty scan_type v v2 (of_values id d lo hi) = Ok (c, s) ->
  column_statistics c = Some derived ->
  exists lo' hi',
    _min derived = Some lo' /\ _max derived = Some hi'
    /\ lo <= lo' /\ lo' <= hi' /\ hi' <= hi
    /\ _column_id derived = id /\ _table derived = None.
Proof.
  intros Hlohi Hlt Hgt. destruct scan_type; try destruct v2 as [v2|];
    run_estimator; intros Hps Hd; simplify_eq; cbn in Hd; simplify_eq;
    try specialize (Hlt eq_refl); try specialize (Hgt eq_refl);
    cbn; order_facts;
    do 2 eexists; (split; [reflexivity|]); (split; [reflexivity|]);
    repeat split; lia.
Qed.
End Between.

Section RangePredicates.
Import column_statistics.
Context {F : Float32} {O : Operators}.

(** With a representable range width, [<=] and [>=] return for every
    constant. *)
Lemma inclusive_returns ty id d lo hi scan_type v value2 :
  in_range ty lo = true -> in_range ty hi = true ->
  lo <= hi -> in_range ty (hi - lo + 1) = true ->
  scan_type = OpLessThanEquals \/ scan_type = OpGreaterThanEquals ->
  exists c, predicate_selectivity ty scan_type v value2 (of_values id d lo hi)
            = Ok (c, of_values id d lo hi).
Proof.
  intros Hlo Hhi Hlohi Hw [-> | ->]; pose proof (int_bounds_sign ty) as Hsign;
    run_checked; range_facts; try lia; eauto.
Qed.

(** [> v] returns when [max - v] is representable. *)
Lemma greater_than_returns ty id d lo hi v value2 :
  in_range ty lo = true -> in_range ty hi = true -> in_range ty v = true ->
  lo <= hi -> in_range ty (hi - lo + 1) = true ->
  (v < hi -> in_range ty (hi - v) = true) ->
  exists c, predicate_selectivity ty OpGreaterThan v value2 (of_values id d lo hi)
            = Ok (c, of_values id d lo hi).
Proof.
  intros Hlo Hhi Hv Hlohi Hw Hn; pose proof (int_bounds_sign ty) as Hsign;
    run_checked; range_facts; try lia; eauto.
  all: try (specialize (Hn ltac:(lia)); range_facts; lia).
Qed.

Context {L : Float32Laws F}.

Ltac ratio_facts :=
  try apply fle_zero_zero; try apply fle_zero_one; try apply fle_one_one;
  try (apply ratio_nonneg; lia); try (apply ratio_unit; lia);
  try (apply ratio_mono; lia).

(** In any arithmetic obeying the order laws, the results of [<=] grow and
    those of [>] and [>=] shrink with the constant. *)
Lemma range_predicates_monotone_laws ty id d lo hi v1 v2 value2 value2' c1 c2 s1 s2 :
  lo <= hi -> in_range ty (hi - lo + 1) = true -> v1 <= v2 ->
  (predicate_selectivity ty OpLessThanEquals v1 value2 (of_values id d lo hi) = Ok (c1, s1) ->
   predicate_selectivity ty OpLessThanEquals v2 value2' (of_values id d lo hi) = Ok (c2, s2) ->
   fleb (selectivity c1) (selectivity c2) = true)
  /\ (predicate_selectivity ty OpGreaterThanEquals v1 value2 (of_values id d lo hi) = Ok (c1, s1) ->
      predicate_selectivity ty OpGreaterThanEquals v2 value2' (of_values id d lo hi) = Ok (c2, s2) ->
      fleb (selectivity c2) (selectivity c1) = true)
  /\ (predicate_selectivity ty OpGreaterThan v1 value2 (of_values id d lo hi) = Ok (c1, s1) ->
      predicate_selectivity ty OpGreaterThan v2 value2' (of_values id d lo hi) = Ok (c2, s2) ->
      fleb (selectivity c2) (selectivity c1) = true).
Proof.
  intros Hlohi Hw Hle.
  assert (0 < hi - lo + 1 <= 2 ^ 64) as Hwpos.
  { apply in_range_abs in Hw. lia. }
  split; [|split]; run_estimator; intros H1 H2; simplify_eq; cbn; order_facts;
    try lia; ratio_facts.
Qed.
End RangePredicates.

Section Caches.
Import column_statistics.
Context {F : Float32} {O : Operators}.

Lemma caches_extend_refl s : caches_extend s s.
Proof. by repeat split. Qed.

Lemma caches_extend_trans s1 s2 s3 :
  caches_extend s1 s2 -> caches_extend s2 s3 -> caches_extend s1 s3.
Proof.
  intros (A1 & A2 & A3 & A4 & A5) (B1 & B2 & B3 & B4 & B5).
  repeat split; [congruence|congruence|auto..].
Qed.

Lemma fills_ret {A} (a : A) : fills_caches (ret a).
Proof. intros s a' s' Hp [= <- <-]. split; [done|apply caches_extend_refl]. Qed.

Lemma fills_gets {A} (f : ColumnStatistics -> A) : fills_caches (gets f).
Proof. intros s a' s' Hp [= <- <-]. split; [done|apply caches_extend_refl]. Qed.

Lemma fills_lift {A} (r : result A) : fills_caches (lift r).
Proof.
  intros s a' s' Hp. unfold lift. destruct r; [|done].
  intros [= <- <-]. split; [done|apply caches_extend_refl].
Qed.

Lemma fills_bind {A B} (m : M ColumnStatistics A) (f : A -> M ColumnStatistics B) :
  fills_caches m -> (forall a, fills_caches (f a)) -> fills_caches (bind m f).
Proof.
  intros Hm Hf s b s' Hp. unfold bind.
  destruct (m s) as [[a s1]|] eqn:E; [|done]. intros Hb.
  destruct (Hm _ _ _ Hp E) as [Hp1 He1].
  destruct (Hf a _ _ _ Hp1 Hb) as [Hp2 He2].
  split; [done|by eapply caches_extend_trans].
Qed.

Lemma fills_deref {A} (o : option A) : fills_caches (deref o).
Proof. destruct o; [apply fills_ret|apply fills_lift]. Qed.

Lemma fills_distinct_count : fills_caches distinct_count.
Proof.
  intros s a s' Hp. unfold distinct_count, bind, gets.
  destruct (_distinct_count s) as [x|] eqn:Hd; cbn.
  - rewrite Hd. cbn. intros [= <- <-]. split; [done|apply caches_extend_refl].
  - unfold update_distinct_count.
    destruct (table_wrapper_execute (_table s)); [|done]. cbn.
    destruct (_table s) as [t|] eqn:Ht; [|done].
    destruct (aggregate_row_count t _); [|done]. cbn.
    intros [= <- <-]. split; [done|].
    repeat split; cbn; try done. by rewrite Hd.
Qed.

Lemma fills_min : fills_caches min.
Proof.
  intros s a s' Hp. unfold min, bind, gets.
  destruct (_min s) as [x|] eqn:Hd; cbn.
  - rewrite Hd. cbn. intros [= <- <-]. split; [done|apply caches_extend_refl].
  - unfold update_min_max.
    destruct (table_wrapper_execute (_table s)); [|done]. cbn.
    destruct (_table s) as [t|] eqn:Ht; [|done].
    destruct (aggregate_min_max t _); [|done]. cbn.
    intros [= <- <-]. split; [by split|].
    assert (_max s = None) as Hmax.
    { destruct (_max s) eqn:E; [|done]. unfold min_max_paired in Hp.
      rewrite Hd, E in Hp. destruct Hp as [_ Hp]. by destruct Hp. }
    repeat split; cbn; try done; by rewrite ?Hd, ?Hmax.
Qed.

Lemma fills_max : fills_caches max.
Proof.
  intros s a s' Hp. unfold max, bind, gets.
  destruct (_max s) as [x|] eqn:Hd; cbn.
  - rewrite Hd. cbn. intros [= <- <-]. split; [done|apply caches_extend_refl].
  - unfold update_min_max.
    destruct (table_wrapper_execute (_table s)); [|done]. cbn.
    destruct (_table s) as [t|] eqn:Ht; [|done].
    destruct (aggregate_min_max t _); [|done]. cbn.
    intros [= <- <-]. split; [by split|].
    assert (_min s = None) as Hmin.
    { destruct (_min s) eqn:E; [|done]. unfold min_max_paired in Hp.
      rewrite Hd, E in Hp. destruct Hp as [Hp _]. by destruct Hp. }
    repeat split; cbn; try done; by rewrite ?Hd, ?Hmin.
Qed.

Ltac fills :=
  repeat first
    [ apply fills_ret | apply fills_gets | apply fills_lift | apply fills_deref
    | apply fills_distinct_count | apply fills_min | apply fills_max
    | apply fills_bind; [|intros ?]
    | match goal with
      | |- fills_caches (if ?b then _ else _) => destruct b
      | |- fills_caches (match ?o with Some _ => _ | None => _ end) => destruct o
      end ].

Lemma fills_predicate_selectivity ty scan_type v v2 :
  fills_caches (predicate_selectivity ty scan_type v v2).
Proof.
  destruct scan_type; unfold predicate_selectivity, less_than_equals_case,
    greater_than_equals_case, orM, range_width; fills.
Qed.

Lemma fills_predicate_selectivity_placeholder scan_type :
  fills_caches (predicate_selectivity_placeholder scan_type).
Proof. destruct scan_type; unfold predicate_selectivity_placeholder; fills. Qed.

(** Both constructors make objects with [min] and [max] cached together. *)
Lemma constructors_paired id table d lo hi :
  min_max_paired (of_table id table) /\ min_max_paired (of_values id d lo hi).
Proof. split; unfold min_max_paired; cbn; split; intros [? ?]; done || eauto. Qed.

(** X20.  The estimators only fill caches.  On an object that has [min]
    cached exactly when [max] is, as both constructors make it, whatever
    the overload for a constant or for a placeholder returns, the object
    afterwards has the column id and the table it had, every statistic that
    was cached is cached with the value it had, and [min] is again cached
    exactly when [max] is. *)
Theorem estimators_only_fill_caches ty scan_type v v2 (self : ColumnStatistics) c s :
  min_max_paired self ->
  predicate_selectivity ty scan_type v v2 self = Ok (c, s)
  \/ predicate_selectivity_placeholder scan_type self = Ok (c, s) ->
  min_max_paired s /\ caches_extend self s.
Proof.
  intros Hp [Hrun|Hrun].
  - by eapply fills_predicate_selectivity.
  - by eapply fills_predicate_selectivity_placeholder.
Qed.
End Caches.

Section Placeholder.
Import column_statistics.
Context {F : Float32} {O : Operators}.

(** X25.  For a constant inside the column's range the placeholder overload
    estimates what the constant overload estimates: [=] with the same
    selectivity [1 / distinct_count] (the derived statistics keep the whole
    range instead of the one value), [<>] with the same result
    altogether.  For a constant outside the range the constant overload
    gives 0 for [=] and 1 for [<>], and no statistics. *)
Theorem placeholder_matches_constant ty id d lo hi v value2 :
  (lo <= v <= hi ->
   predicate_selectivity ty OpEquals v value2 (of_values id d lo hi)
   = Ok (container (fdiv fone d) (Some (of_values id fone v v)), of_values id d lo hi)
   /\ predicate_selectivity_placeholder OpEquals (of_values id d lo hi)
      = Ok (container (fdiv fone d) (Some (of_values id fone lo hi)), of_values id d lo hi)
   /\ predicate_selectivity ty OpNotEquals v value2 (of_values id d lo hi)
      = predicate_selectivity_placeholder OpNotEquals (of_values id d lo hi))
  /\ (v < lo \/ hi < v ->
      predicate_selectivity ty OpEquals v value2 (of_values id d lo hi)
      = Ok (container fzero None, of_values id d lo hi)
      /\ predicate_selectivity ty OpNotEquals v value2 (of_values id d lo hi)
         = Ok (container fone None, of_values id d lo hi)).
Proof.
  split; intros Hv; repeat split; run_checked; range_facts; try lia; done.
Qed.

(** X26.  The two-column estimate of [=] on cached statistics of the same
    integer type, in a release build: ranges that do not meet give
    selectivity 0 and no statistics; ranges that meet give both columns
    the common range [[max lo vlo, min hi vhi]], which lies in both, and
    one distinct count; the receiver is returned as it was. *)
Theorem two_column_equals_common_range ty id d lo hi vid vd vlo vhi c s :
  predicate_selectivity_columns ty false OpEquals
    (IntegerColumnStatistics ty (of_values vid vd vlo vhi)) (of_values id d lo hi)
  = Ok (c, s) ->
  s = of_values id d lo hi
  /\ (Z.min hi vhi < Z.max lo vlo ->
      c = {| selectivity2 := fzero; column_statistics2 := None;
             second_column_statistics := None |})
  /\ (Z.max lo vlo <= Z.min hi vhi ->
      exists count,
        column_statistics2 c
        = Some (of_values id count (Z.max lo vlo) (Z.min hi vhi))
        /\ second_column_statistics c
           = Some (of_values vid count (Z.max lo vlo) (Z.min hi vhi))
        /\ lo <= Z.max lo vlo /\ vlo <= Z.max lo vlo
        /\ Z.min hi vhi <= hi /\ Z.min hi vhi <= vhi).
Proof.
  unfold predicate_selectivity_columns, dynamic_pointer_cast.
  replace (int_type_eqb ty ty) with true by (by destruct ty). cbn.
  run_estimator; intros Hps; simplify_eq; order_facts;
    (split; [done|]); split; intros Hcmp; try lia; try done.
  eexists. cbn. repeat split; try done; lia.
Qed.
End Placeholder.

Section SinglePrecision.
Import column_statistics.
Context {O : Operators}.
#[local] Existing Instance binary32.

(** X27.  In single precision, on cached statistics of an integer column
    with [min <= max] and a representable range width, [<=] and [>=]
    return for every constant, and for constants [v1 <= v2] the
    selectivity of [<= v1] is at most that of [<= v2] and the selectivity
    of [>= v2] at most that of [>= v1]. *)
Theorem inclusive_predicates_monotone ty id (d : spec_float) lo hi v1 v2 value2 value2' :
  in_range ty lo = true -> in_range ty hi = true ->
  lo <= hi -> in_range ty (hi - lo + 1) = true ->
  v1 <= v2 ->
  (exists c1 c2,
      predicate_selectivity (F := binary32) ty OpLessThanEquals v1 value2
        (of_values id d lo hi) = Ok (c1, of_values id d lo hi)
      /\ predicate_selectivity (F := binary32) ty OpLessThanEquals v2 value2'
           (of_values id d lo hi) = Ok (c2, of_values id d lo hi)
      /\ SFleb (selectivity c1) (selectivity c2) = true)
  /\ (exists c1 c2,
        predicate_selectivity (F := binary32) ty OpGreaterThanEquals v1 value2
          (of_values id d lo hi) = Ok (c1, of_values id d lo hi)
        /\ predicate_selectivity (F := binary32) ty OpGreaterThanEquals v2 value2'
             (of_values id d lo hi) = Ok (c2, of_values id d lo hi)
        /\ SFleb (selectivity c2) (selectivity c1) = true).
Proof.
  intros Hlo Hhi Hlohi Hw Hle. split.
  - destruct (inclusive_returns (F := binary32) ty id d lo hi OpLessThanEquals v1 value2)
      as [c1 H1]; try done; [by left|].
    destruct (inclusive_returns (F := binary32) ty id d lo hi OpLessThanEquals v2 value2')
      as [c2 H2]; try done; [by left|].
    exists c1, c2. split; [done|]. split; [done|].
    destruct (range_predicates_monotone_laws (F := binary32) (L := binary32_laws)
                ty id d lo hi v1 v2 value2 value2' c1 c2 (of_values (F := binary32) id d lo hi)
       (of_values (F := binary32) id d lo hi) Hlohi Hw Hle)
      as (Hle_ & Hge_ & Hgt_).
    auto.
  - destruct (inclusive_returns (F := binary32) ty id d lo hi OpGreaterThanEquals v1 value2)
      as [c1 H1]; try done; [by right|].
    destruct (inclusive_returns (F := binary32) ty id d lo hi OpGreaterThanEquals v2 value2')
      as [c2 H2]; try done; [by right|].
    exists c1, c2. split; [done|]. split; [done|].
    destruct (range_predicates_monotone_laws (F := binary32) (L := binary32_laws)
                ty id d lo hi v1 v2 value2 value2' c1 c2 (of_values (F := binary32) id d lo hi)
       (of_values (F := binary32) id d lo hi) Hlohi Hw Hle)
      as (Hle_ & Hge_ & Hgt_).
    auto.
Qed.

(** X28.  In single precision, on cached statistics of an integer column
    with [min <= max] and a representable range width, for constants
    [v1 <= v2] of the column type ([max - v1] representable when
    [v1 < max]): both [> v1] and [> v2] return, and the selectivity of the
    second is at most that of the first. *)
Theorem greater_than_antitone ty id (d : spec_float) lo hi v1 v2 value2 value2' :
  in_range ty lo = true -> in_range ty hi = true ->
  in_range ty v1 = true -> in_range ty v2 = true ->
  lo <= hi -> in_range ty (hi - lo + 1) = true ->
  (v1 < hi -> in_range ty (hi - v1) = true) ->
  v1 <= v2 ->
  exists c1 c2,
    predicate_selectivity (F := binary32) ty OpGreaterThan v1 value2
      (of_values id d lo hi) = Ok (c1, of_values id d lo hi)
    /\ predicate_selectivity (F := binary32) ty OpGreaterThan v2 value2'
         (of_values id d lo hi) = Ok (c2, of_values id d lo hi)
    /\ SFleb (selectivity c2) (selectivity c1) = true.
Proof.
  intros Hlo Hhi Hv1 Hv2 Hlohi Hw Hn Hle.
  destruct (greater_than_returns (F := binary32) ty id d lo hi v1 value2) as [c1 H1]; try done.
  destruct (greater_than_returns (F := binary32) ty id d lo hi v2 value2') as [c2 H2]; try done.
  { intros Hlt. specialize (Hn ltac:(lia)).
    apply in_range_bounds. apply in_range_bounds in Hn, Hv2, Hhi.
    pose proof (int_bounds_sign ty). lia. }
  exists c1, c2. split; [done|]. split; [done|].
  destruct (range_predicates_monotone_laws (F := binary32) (L := binary32_laws)
              ty id d lo hi v1 v2 value2 value2' c1 c2 (of_values (F := binary32) id d lo hi)
       (of_values (F := binary32) id d lo hi) Hlohi Hw Hle)
    as (Hle_ & Hge_ & Hgt_).
  auto.
Qed.

(** X23.  In single precision, BETWEEN bounds that cover the whole range of
    the column give the selectivity 1 exactly, and derived statistics over
    the whole range. *)
Theorem between_whole_range ty id (d : spec_float) lo hi v v2 :
  in_range ty lo = true -> in_range ty hi = true ->
  lo <= hi -> in_range ty (hi - lo + 1) = true ->
  v <= lo -> hi <= v2 ->
  predicate_selectivity (F := binary32) ty OpBetween v (Some v2) (of_values id d lo hi)
  = Ok (container fone (Some (of_values id (fmul fone d) lo hi)), of_values id d lo hi).
Proof.
  intros Hlo Hhi Hlohi Hw Hv Hv2. pose proof (int_bounds_sign ty) as Hsign.
  assert (0 < hi - lo + 1 <= 2 ^ 64) as Hwpos.
  { apply in_range_abs in Hw. lia. }
  assert (fdiv (Float32 := binary32) (of_Z (hi - lo + 1)) (of_Z (hi - lo + 1)) = fone)
    as Hone.
  { destruct (positive_finite (of_Z (Float32 := binary32) (hi - lo + 1)))
      as (m & e & Hm).
    - apply binary32_of_Z_finite. lia.
    - apply binary32_of_Z_pos. lia.
    - rewrite Hm. apply SFdiv_self. }
  run_checked; range_facts; try lia.
  all: rewrite ?Z.max_r, ?Z.min_r in * by lia; try lia.
  cbn in Hone. by rewrite Hone.
Qed.
End SinglePrecision.

Section EstimatorWitnesses.
Import column_statistics inputs.
#[local] Existing Instance binary32.
#[local] Existing Instance no_operators.

(** Statistics on a live table: [<= 0] fills all three caches. *)
Lemma estimators_only_fill_caches_witness :
  let self := of_table (F := binary32) (O := no_operators) 3 (Some tt) in
  min_max_paired self
  /\ exists c s,
       predicate_selectivity (F := binary32) (O := no_operators) Int32
         OpLessThanEquals (-1) None self = Ok (c, s)
       /\ s <> self
       /\ min_max_paired s /\ caches_extend self s.
Proof.
  assert (min_max_paired (of_table (F := binary32) (O := no_operators) 3 (Some tt)))
    as Hp by apply (constructors_paired (F := binary32) (O := no_operators)
                      3 (Some tt) (of_Z 0) 0 0).
  split; [exact Hp|].
  do 2 eexists. split; [cbn; reflexivity|]. split; [discriminate|].
  eapply (estimators_only_fill_caches (F := binary32) (O := no_operators) Int32
            OpLessThanEquals (-1) None
            (of_table (F := binary32) (O := no_operators) 3 (Some tt)) _ _ Hp).
  left. cbn. reflexivity.
Defined.

(** The range [0, 10]: [<= 4] against [< 5], [>= 4] against [> 3]. *)
Lemma inclusive_as_strict_witness :
  in_range Int32 0 = true /\ in_range Int32 10 = true
  /\ 0 <= 4 < 10 /\ 0 < 4 <= 10
  /\ predicate_selectivity (F := binary32) (O := no_operators) Int32
       OpLessThanEquals 4 None (of_values 0 (of_Z 11) 0 10)
     = predicate_selectivity (F := binary32) (O := no_operators) Int32
         OpLessThan (4 + 1) None (of_values 0 (of_Z 11) 0 10)
  /\ predicate_selectivity (F := binary32) (O := no_operators) Int32
       OpGreaterThanEquals 4 None (of_values 0 (of_Z 11) 0 10)
     = predicate_selectivity (F := binary32) (O := no_operators) Int32
         OpGreaterThan (4 - 1) None (of_values 0 (of_Z 11) 0 10).
Proof.
  split; [reflexivity|]. split; [reflexivity|]. split; [lia|]. split; [lia|].
  destruct (inclusive_as_strict (F := binary32) (O := no_operators) Int32 0
              (of_Z 11) 0 10 4 None None eq_refl eq_refl) as [Hle Hge].
  split; [apply Hle; lia|apply Hge; lia].
Defined.

(** BETWEEN -5 AND 7 on the range [0, 10]. *)
Lemma between_clamps_to_range_witness :
  0 <= 10
  /\ predicate_selectivity (F := binary32) (O := no_operators) Int32
       OpBetween (-5) (Some 7) (of_values 0 (of_Z 11) 0 10)
     = predicate_selectivity (F := binary32) (O := no_operators) Int32
         OpBetween (Z.max (-5) 0) (Some (Z.min 7 10)) (of_values 0 (of_Z 11) 0 10).
Proof.
  split; [lia|].
  apply (between_clamps_to_range (F := binary32) (O := no_operators) Int32 0
           (of_Z 11) 0 10 (-5) 7).
  lia.
Defined.

(** BETWEEN -5 AND 20 on the range [0, 10]. *)
Lemma between_whole_range_witness :
  in_range Int32 0 = true /\ in_range Int32 10 = true
  /\ 0 <= 10 /\ in_range Int32 (10 - 0 + 1) = true /\ -5 <= 0 /\ 10 <= 20
  /\ predicate_selectivity (F := binary32) (O := no_operators) Int32
       OpBetween (-5) (Some 20) (of_values 0 (of_Z 11) 0 10)
     = Ok (container fone (Some (of_values 0 (fmul fone (of_Z 11)) 0 10)),
           of_values 0 (of_Z 11) 0 10).
Proof.
  split; [reflexivity|]. split; [reflexivity|]. split; [lia|].
  split; [reflexivity|]. split; [lia|]. split; [lia|].
  apply (between_whole_range (O := no_operators) Int32 0%nat
           (of_Z (Float32 := binary32) 11) 0 10 (-5) 20);
    try reflexivity; lia.
Defined.

(** [> 6] on the range [0, 10]. *)
Lemma derived_statistics_range_witness :
  0 <= 10
  /\ exists c s derived,
       predicate_selectivity (F := binary32) (O := no_operators) Int32
         OpGreaterThan 6 None (of_values 0 (of_Z 11) 0 10) = Ok (c, s)
       /\ column_statistics c = Some derived
       /\ exists lo' hi',
            _min derived = Some lo' /\ _max derived = Some hi'
            /\ 0 <= lo' /\ lo' <= hi' /\ hi' <= 10
            /\ _column_id derived = 0%nat /\ _table derived = None.
Proof.
  split; [lia|].
  do 3 eexists. split; [cbn; reflexivity|]. split; [reflexivity|].
  eapply (derived_statistics_range (F := binary32) (O := no_operators) Int32 0
            (of_Z 11) 0 10 OpGreaterThan 6 None).
  - lia.
  - discriminate.
  - lia.
  - cbn. reflexivity.
  - reflexivity.
Defined.

(** The ranges [0, 10] and [5, 15]. *)
Lemma two_column_equals_common_range_witness :
  exists c s,
    predicate_selectivity_columns (F := binary32) (O := no_operators) Int32 false
      OpEquals (IntegerColumnStatistics Int32 (of_values 1 (of_Z 11) 5 15))
      (of_values 0 (of_Z 11) 0 10) = Ok (c, s)
    /\ s = of_values 0 (of_Z 11) 0 10
    /\ (Z.min 10 15 < Z.max 0 5 ->
        c = {| selectivity2 := fzero; column_statistics2 := None;
               second_column_statistics := None |})
    /\ (Z.max 0 5 <= Z.min 10 15 ->
        exists count,
          column_statistics2 c = Some (of_values 0 count (Z.max 0 5) (Z.min 10 15))
          /\ second_column_statistics c
             = Some (of_values 1 count (Z.max 0 5) (Z.min 10 15))
          /\ 0 <= Z.max 0 5 /\ 5 <= Z.max 0 5
          /\ Z.min 10 15 <= 10 /\ Z.min 10 15 <= 15).
Proof.
  do 2 eexists. split; [cbn; reflexivity|].
  apply (two_column_equals_common_range (F := binary32) (O := no_operators) Int32
           0 (of_Z 11) 0 10 1 (of_Z 11) 5 15).
  cbn. reflexivity.
Defined.

(** The range [0, 10], the constants 3 and 7. *)
Lemma inclusive_predicates_monotone_witness :
  in_range Int32 0 = true /\ in_range Int32 10 = true
  /\ 0 <= 10 /\ in_range Int32 (10 - 0 + 1) = true /\ 3 <= 7
  /\ (exists c1 c2,
        predicate_selectivity (F := binary32) (O := no_operators) Int32
          OpLessThanEquals 3 None (of_values 0 (of_Z 11) 0 10)
        = Ok (c1, of_values 0 (of_Z 11) 0 10)
        /\ predicate_selectivity (F := binary32) (O := no_operators) Int32
             OpLessThanEquals 7 None (of_values 0 (of_Z 11) 0 10)
           = Ok (c2, of_values 0 (of_Z 11) 0 10)
        /\ SFleb (selectivity c1) (selectivity c2) = true)
  /\ (exists c1 c2,
        predicate_selectivity (F := binary32) (O := no_operators) Int32
          OpGreaterThanEquals 3 None (of_values 0 (of_Z 11) 0 10)
        = Ok (c1, of_values 0 (of_Z 11) 0 10)
        /\ predicate_selectivity (F := binary32) (O := no_operators) Int32
             OpGreaterThanEquals 7 None (of_values 0 (of_Z 11) 0 10)
           = Ok (c2, of_values 0 (of_Z 11) 0 10)
        /\ SFleb (selectivity c2) (selectivity c1) = true).
Proof.
  split; [reflexivity|]. split; [reflexivity|]. split; [lia|].
  split; [reflexivity|]. split; [lia|].
  apply (inclusive_predicates_monotone (O := no_operators) Int32 0%nat
           (of_Z (Float32 := binary32) 11) 0 10 3 7 None None); try reflexivity; lia.
Defined.

Lemma greater_than_antitone_witness :
  in_range Int32 0 = true /\ in_range Int32 10 = true
  /\ in_range Int32 3 = true /\ in_range Int32 7 = true
  /\ 0 <= 10 /\ in_range Int32 (10 - 0 + 1) = true
  /\ in_range Int32 (10 - 3) = true /\ 3 <= 7
  /\ exists c1 c2,
       predicate_selectivity (F := binary32) (O := no_operators) Int32
         OpGreaterThan 3 None (of_values 0 (of_Z 11) 0 10)
       = Ok (c1, of_values 0 (of_Z 11) 0 10)
       /\ predicate_selectivity (F := binary32) (O := no_operators) Int32
            OpGreaterThan 7 None (of_values 0 (of_Z 11) 0 10)
          = Ok (c2, of_values 0 (of_Z 11) 0 10)
       /\ SFleb (selectivity c2) (selectivity c1) = true.
Proof.
  split; [reflexivity|]. split; [reflexivity|]. split; [reflexivity|].
  split; [reflexivity|]. split; [lia|]. split; [reflexivity|].
  split; [reflexivity|]. split; [lia|].
  apply (greater_than_antitone (O := no_operators) Int32 0%nat
           (of_Z (Float32 := binary32) 11) 0 10 3 7 None None); try reflexivity; lia.
Defined.
End EstimatorWitnesses.

(* ===================================================================== *)
(** * Statistics cached or computed from the table *)
(* ===================================================================== *)

Section Simulation.
Import column_statistics.
Context {F : Float32} {O : Operators}.
Variables (id : nat) (d : f32) (lo hi : Z).

Lemma caches_extend_refl' s : caches_extend s s.
Proof. by repeat split. Qed.

Lemma as_cached_ret {A} (a : A) : as_on_cached id d lo hi (ret a).
Proof.
  intros s Hid Hs. cbn. split; [done|]. exists s.
  repeat split; try done; apply Hs.
Qed.

Lemma as_cached_lift {A} (r : result A) : as_on_cached id d lo hi (lift r).
Proof.
  intros s Hid Hs. unfold lift. destruct r; [|done]. split; [done|]. exists s.
  repeat split; try done; apply Hs.
Qed.

Lemma as_cached_column_id : as_on_cached id d lo hi (gets _column_id).
Proof.
  intros s Hid Hs. cbn. split; [done|]. exists s. unfold gets. rewrite Hid.
  repeat split; try done; apply Hs.
Qed.

Lemma as_cached_bind {A B} (m : M ColumnStatistics A) (f : A -> M ColumnStatistics B) :
  as_on_cached id d lo hi m -> (forall a, as_on_cached id d lo hi (f a)) ->
  as_on_cached id d lo hi (bind m f).
Proof.
  intros Hm Hf s Hid Hs. unfold bind. specialize (Hm s Hid Hs).
  destruct (m (of_values id d lo hi)) as [[a c]|e].
  - destruct Hm as (-> & s1 & -> & Hid1 & Hs1 & He1).
    specialize (Hf a s1 Hid1 Hs1).
    destruct (f a (of_values id d lo hi)) as [[b c]|e]; [|done].
    destruct Hf as (-> & s2 & -> & Hid2 & Hs2 & He2).
    split; [done|]. exists s2. split; [done|]. split; [done|]. split; [done|].
    destruct He1 as (A1 & A2 & A3 & A4 & A5), He2 as (B1 & B2 & B3 & B4 & B5).
    repeat split; [congruence|congruence|auto..].
  - by rewrite Hm.
Qed.

Lemma as_cached_distinct_count : as_on_cached id d lo hi distinct_count.
Proof.
  intros s Hid [Hd Hmm]. cbn. split; [done|].
  unfold distinct_count, bind, gets, holds_distinct_count in *.
  destruct (_distinct_count s) as [x|] eqn:E; cbn.
  - subst x. exists s. repeat split; try done;
      unfold holds_distinct_count; by rewrite E.
  - destruct Hd as (t & rows & Ht & Hw & Ha & ->).
    unfold update_distinct_count. rewrite Ht, Hw. cbn. rewrite Ha. cbn.
    eexists. split; [done|]. cbn. repeat split; try done.
    + unfold holds_min_max in *. cbn.
      destruct (_min s), (_max s); try done.
      destruct Hmm as (t' & Ht' & Hw' & Ha'). exists t'.
      split; [congruence|done].
    + intros x Hx. by rewrite E in Hx.
Qed.

Lemma as_cached_min : as_on_cached id d lo hi min.
Proof.
  intros s Hid [Hd Hmm]. cbn. split; [done|].
  unfold min, bind, gets, holds_min_max in *.
  destruct (_min s) as [x|] eqn:E, (_max s) as [y|] eqn:E'; try done; cbn.
  - destruct Hmm as [-> ->]. exists s. repeat split; try done;
      unfold holds_min_max; by rewrite ?E, ?E'.
  - destruct Hmm as (t & Ht & Hw & Ha).
    unfold update_min_max. rewrite Ht, Hw. cbn. rewrite Ha. cbn.
    eexists. split; [done|]. cbn. repeat split; try done.
    + unfold holds_distinct_count in *. cbn. destruct (_distinct_count s); [done|].
      destruct Hd as (t' & rows & Ht' & Hw' & Ha' & ->). exists t', rows.
      split; [congruence|done].
    + intros x Hx. by rewrite E in Hx.
    + intros x Hx. by rewrite E' in Hx.
Qed.

Lemma as_cached_max : as_on_cached id d lo hi max.
Proof.
  intros s Hid [Hd Hmm]. cbn. split; [done|].
  unfold max, bind, gets, holds_min_max in *.
  destruct (_min s) as [x|] eqn:E, (_max s) as [y|] eqn:E'; try done; cbn.
  - destruct Hmm as [-> ->]. exists s. repeat split; try done;
      unfold holds_min_max; by rewrite ?E, ?E'.
  - destruct Hmm as (t & Ht & Hw & Ha).
    unfold update_min_max. rewrite Ht, Hw. cbn. rewrite Ha. cbn.
    eexists. split; [done|]. cbn. repeat split; try done.
    + unfold holds_distinct_count in *. cbn. destruct (_distinct_count s); [done|].
      destruct Hd as (t' & rows & Ht' & Hw' & Ha' & ->). exists t', rows.
      split; [congruence|done].
    + intros x Hx. by rewrite E in Hx.
    + intros x Hx. by rewrite E' in Hx.
Qed.

Ltac as_cached :=
  repeat first
    [ apply as_cached_ret | apply as_cached_column_id | apply as_cached_lift
    | apply as_cached_distinct_count | apply as_cached_min | apply as_cached_max
    | apply as_cached_bind; [|intros ?]
    | match goal with
      | |- as_on_cached _ _ _ _ (if ?b then _ else _) => destruct b
      | |- as_on_cached _ _ _ _ (match ?o with Some _ => _ | None => _ end) => destruct o
      end ].

Lemma as_cached_predicate_selectivity ty scan_type v v2 :
  as_on_cached id d lo hi (predicate_selectivity ty scan_type v v2).
Proof.
  destruct scan_type; unfold predicate_selectivity, less_than_equals_case,
    greater_than_equals_case, orM, range_width; as_cached.
Qed.

Lemma as_cached_predicate_selectivity_placeholder scan_type :
  as_on_cached id d lo hi (predicate_selectivity_placeholder scan_type).
Proof. destruct scan_type; unfold predicate_selectivity_placeholder; as_cached. Qed.
End Simulation.

Section PairSimulation.
Import column_statistics.
Context {F : Float32} {O : Operators}.
Variables (id : nat) (d : f32) (lo hi : Z) (vid : nat) (vd : f32) (vlo vhi : Z).

#[local] Abbreviation sim := (as_on_cached_pair id d lo hi vid vd vlo vhi).

Lemma as_pair_ret {A} (a : A) : sim (ret a).
Proof.
  intros s v Hid Hs Hvid Hv. cbn. split; [done|]. exists s, v.
  split; [done|]. split; [done|]. split; [done|].
  split; [apply caches_extend_refl'|done].
Qed.

Lemma as_pair_lift {A} (r : result A) : sim (lift r).
Proof.
  intros s v Hid Hs Hvid Hv. unfold lift. destruct r; [|done]. split; [done|].
  exists s, v. split; [done|]. split; [done|]. split; [done|].
  split; [apply caches_extend_refl'|done].
Qed.

Lemma as_pair_bind {A B} (m : M (ColumnStatistics * ColumnStatistics) A)
    (f : A -> M (ColumnStatistics * ColumnStatistics) B) :
  sim m -> (forall a, sim (f a)) -> sim (bind m f).
Proof.
  intros Hm Hf s v Hid Hs Hvid Hv. unfold bind. specialize (Hm s v Hid Hs Hvid Hv).
  destruct (m (of_values id d lo hi, of_values vid vd vlo vhi)) as [[a c]|e].
  - destruct Hm as (-> & s1 & v1 & -> & Hid1 & Hs1 & He1 & Hvid1 & Hv1).
    specialize (Hf a s1 v1 Hid1 Hs1 Hvid1 Hv1).
    destruct (f a (of_values id d lo hi, of_values vid vd vlo vhi)) as [[b c]|e]; [|done].
    destruct Hf as (-> & s2 & v2 & -> & Hid2 & Hs2 & He2 & Hvid2 & Hv2).
    split; [done|]. exists s2, v2. split; [done|]. split; [done|]. split; [done|].
    split; [|done].
    destruct He1 as (A1 & A2 & A3 & A4 & A5), He2 as (B1 & B2 & B3 & B4 & B5).
    repeat split; [congruence|congruence|auto..].
  - by rewrite Hm.
Qed.

Lemma as_pair_on_this {A} (m : M ColumnStatistics A) :
  as_on_cached id d lo hi m -> sim (on_this m).
Proof.
  intros Hm s v Hid Hs Hvid Hv. unfold on_this. cbn. specialize (Hm s Hid Hs).
  destruct (m (of_values id d lo hi)) as [[a c]|e].
  - destruct Hm as (-> & s1 & -> & Hid1 & Hs1 & He1). split; [done|].
    exists s1, v. done.
  - by rewrite Hm.
Qed.

Lemma as_pair_on_value {A} (m : M ColumnStatistics A) :
  as_on_cached vid vd vlo vhi m -> sim (on_value m).
Proof.
  intros Hm s v Hid Hs Hvid Hv. unfold on_value. cbn. specialize (Hm v Hvid Hv).
  destruct (m (of_values vid vd vlo vhi)) as [[a c]|e].
  - destruct Hm as (-> & v1 & -> & Hvid1 & Hv1 & He1). split; [done|].
    exists s, v1. split; [done|]. split; [done|]. split; [done|].
    split; [apply caches_extend_refl'|done].
  - by rewrite Hm.
Qed.

Lemma as_cached_range_width ty i x a b :
  as_on_cached i x a b (range_width ty).
Proof.
  unfold range_width.
  repeat first
    [ apply as_cached_ret | apply as_cached_lift | apply as_cached_min
    | apply as_cached_max | apply as_cached_bind; [|intros ?] ].
Qed.

Ltac as_pair :=
  repeat first
    [ apply as_pair_ret | apply as_pair_lift
    | apply as_pair_on_this | apply as_pair_on_value
    | apply as_cached_min | apply as_cached_max | apply as_cached_distinct_count
    | apply as_cached_column_id | apply as_cached_range_width
    | apply as_pair_bind; [|intros ?]
    | match goal with
      | |- as_on_cached_pair _ _ _ _ _ _ _ _ (if ?b then _ else _) => destruct b
      end ].

Lemma as_pair_two_column_body ty scan_type : sim (two_column_body ty scan_type).
Proof. destruct scan_type; unfold two_column_body; as_pair. Qed.
End PairSimulation.

Section PairTransfer.
Import column_statistics.
Context {F : Float32} {O : Operators}.

(** The release build, the argument of the column type of the receiver. *)
Lemma columns_release ty scan_type (value self : ColumnStatistics) :
  predicate_selectivity_columns ty false scan_type (IntegerColumnStatistics ty value) self
  = match two_column_body ty scan_type (self, value) with
    | Ok (c, s) => Ok (c, s.1)
    | Err e => Err e
    end.
Proof.
  unfold predicate_selectivity_columns, dynamic_pointer_cast.
  by replace (int_type_eqb ty ty) with true by (by destruct ty).
Qed.

Lemma columns_on_statistics ty scan_type (self value : ColumnStatistics)
    d lo hi vd vlo vhi c cached :
  has_statistics self d lo hi -> has_statistics value vd vlo vhi ->
  predicate_selectivity_columns ty false scan_type
    (IntegerColumnStatistics ty (of_values (_column_id value) vd vlo vhi))
    (of_values (_column_id self) d lo hi) = Ok (c, cached) ->
  exists s,
    predicate_selectivity_columns ty false scan_type
      (IntegerColumnStatistics ty value) self = Ok (c, s)
    /\ has_statistics s d lo hi /\ caches_extend self s.
Proof.
  intros Hs Hv. rewrite !columns_release.
  pose proof (as_pair_two_column_body (_column_id self) d lo hi (_column_id value)
                vd vlo vhi ty scan_type self value eq_refl Hs eq_refl Hv) as H.
  destruct (two_column_body ty scan_type (of_values _ d lo hi, of_values _ vd vlo vhi))
    as [[c0 x]|e]; [|done].
  destruct H as (-> & s' & v' & -> & _ & Hs' & He & _).
  intros [= <- <-]. eauto.
Qed.
End PairTransfer.

Section Returns.
Import column_statistics.
Context {F : Float32} {O : Operators}.

(** With [min <= max] and a representable range width no difference the
    constant overload forms leaves the column type. *)
Lemma constant_returns ty id d lo hi scan_type v v2 :
  in_range ty lo = true -> in_range ty hi = true ->
  lo <= hi -> in_range ty (hi - lo + 1) = true ->
  (scan_type = OpLessThan -> v <= hi + 1) ->
  (scan_type = OpGreaterThan -> lo - 1 <= v) ->
  (scan_type = OpBetween -> v2 <> None) ->
  exists c, predicate_selectivity ty scan_type v v2 (of_values id d lo hi)
            = Ok (c, of_values id d lo hi).
Proof.
  intros Hlo Hhi Hlohi Hw Hlt Hgt Hbetween. pose proof (int_bounds_sign ty) as Hsign.
  destruct scan_type; try destruct v2 as [v2|];
    try specialize (Hlt eq_refl); try specialize (Hgt eq_refl);
    try (by destruct (Hbetween eq_refl));
    run_checked; range_facts; try lia; eauto.
Qed.

Lemma placeholder_returns id d lo hi scan_type :
  exists c, predicate_selectivity_placeholder scan_type (of_values id d lo hi)
            = Ok (c, of_values id d lo hi).
Proof. destruct scan_type; cbn; eauto. Qed.

Lemma columns_return ty id d lo hi vid vd vlo vhi scan_type :
  in_range ty lo = true -> in_range ty hi = true ->
  lo <= hi -> in_range ty (hi - lo + 1) = true ->
  in_range ty vlo = true -> in_range ty vhi = true ->
  vlo <= vhi -> in_range ty (vhi - vlo + 1) = true ->
  exists c,
    predicate_selectivity_columns ty false scan_type
      (IntegerColumnStatistics ty (of_values vid vd vlo vhi)) (of_values id d lo hi)
    = Ok (c, of_values id d lo hi).
Proof.
  intros Hlo Hhi Hlohi Hw Hvlo Hvhi Hvlohi Hvw. pose proof (int_bounds_sign ty) as Hsign.
  rewrite columns_release.
  destruct scan_type; run_checked; range_facts; try lia; eauto.
Qed.
End Returns.

Section Transfer.
Import column_statistics.
Context {F : Float32} {O : Operators}.

(** What the constant overload returns on [of_values id d lo hi] it
    returns on every column with these statistics. *)
Lemma constant_on_statistics ty scan_type v v2 (self : ColumnStatistics) d lo hi c cached :
  has_statistics self d lo hi ->
  predicate_selectivity ty scan_type v v2 (of_values (_column_id self) d lo hi)
  = Ok (c, cached) ->
  exists s, predicate_selectivity ty scan_type v v2 self = Ok (c, s)
            /\ has_statistics s d lo hi /\ caches_extend self s.
Proof.
  intros Hs Hc.
  pose proof (as_cached_predicate_selectivity (_column_id self) d lo hi ty scan_type
                v v2 self eq_refl Hs) as H.
  rewrite Hc in H. destruct H as (_ & s & Hrun & _ & Hs' & He). eauto.
Qed.

Lemma constant_fails_on_statistics ty scan_type v v2 (self : ColumnStatistics) d lo hi e :
  has_statistics self d lo hi ->
  predicate_selectivity ty scan_type v v2 (of_values (_column_id self) d lo hi) = Err e ->
  predicate_selectivity ty scan_type v v2 self = Err e.
Proof.
  intros Hs Hc.
  pose proof (as_cached_predicate_selectivity (_column_id self) d lo hi ty scan_type
                v v2 self eq_refl Hs) as H.
  by rewrite Hc in H.
Qed.

Lemma placeholder_on_statistics scan_type (self : ColumnStatistics) d lo hi c cached :
  has_statistics self d lo hi ->
  predicate_selectivity_placeholder scan_type (of_values (_column_id self) d lo hi)
  = Ok (c, cached) ->
  exists s, predicate_selectivity_placeholder scan_type self = Ok (c, s)
            /\ has_statistics s d lo hi /\ caches_extend self s.
Proof.
  intros Hs Hc.
  pose proof (as_cached_predicate_selectivity_placeholder (_column_id self) d lo hi
                scan_type self eq_refl Hs) as H.
  rewrite Hc in H. destruct H as (_ & s & Hrun & _ & Hs' & He). eauto.
Qed.

(** Both constructors make columns that have statistics: the values
    given, or what the table answers. *)
Lemma of_values_has_statistics id d lo hi :
  has_statistics (of_values id d lo hi) d lo hi.
Proof. by split. Qed.

Lemma of_table_has_statistics id t rows lo hi :
  table_wrapper_execute (Some t) = Ok tt ->
  aggregate_row_count t (column_name t id) = Ok rows ->
  aggregate_min_max t (column_name t id) = Ok (lo, hi) ->
  has_statistics (of_table id (Some t)) (of_Z rows) lo hi.
Proof. intros Hw Hr Hm. split; cbn; eauto 10. Qed.

(** Where one of the differences [< v] forms leaves the column type the
    call is undefined, whatever a build makes of it. *)
Lemma less_than_undefined ty (self : ColumnStatistics) d lo hi v value2 :
  has_statistics self d lo hi ->
  lo < v ->
  in_range ty (v - lo) && in_range ty (hi - lo) && in_range ty (hi - lo + 1) = false ->
  predicate_selectivity ty OpLessThan v value2 self
  = Err (UndefinedBehaviour "signed integer overflow").
Proof.
  intros Hs Hlt Hr. eapply constant_fails_on_statistics; [done|].
  cbn. destruct (Z.leb_spec v lo); [lia|].
  unfold bind, lift, range_width, bind, lift, int_sub, int_add, int_checked. cbn.
  destruct (in_range ty (v - lo)); cbn; [|done].
  destruct (in_range ty (hi - lo)); cbn; [|done].
  destruct (in_range ty (hi - lo + 1)); cbn; done.
Qed.

End Transfer.

Section TransferSinglePrecision.
Import column_statistics.
Context {O : Operators}.
#[local] Existing Instance binary32.

(** X30.  In single precision, for an integer column with statistics
    [min <= max], cached or computed from its table, whose range width
    [max - min + 1] is representable in the column type, and constants
    [v1 <= v2] of the column type ([v2 - min] representable when
    [v2 > min]): both [< v1] and [< v2] return, and the selectivity of the
    first is at most that of the second. *)
Theorem less_than_monotone ty (self : ColumnStatistics) (d : spec_float) lo hi
    v1 v2 value2 value2' :
  has_statistics self d lo hi ->
  in_range ty lo = true -> in_range ty v1 = true -> in_range ty v2 = true ->
  lo <= hi -> in_range ty (hi - lo + 1) = true ->
  (lo < v2 -> in_range ty (v2 - lo) = true) ->
  v1 <= v2 ->
  exists c1 c2 s1 s2,
    predicate_selectivity (F := binary32) ty OpLessThan v1 value2 self = Ok (c1, s1)
    /\ predicate_selectivity (F := binary32) ty OpLessThan v2 value2' self = Ok (c2, s2)
    /\ SFleb (selectivity c1) (selectivity c2) = true.
Proof.
  intros Hs Hlo Hv1 Hv2 Hlohi Hw Hn Hle.
  destruct (less_than_monotone_laws (F := binary32) (L := binary32_laws)
              ty (_column_id self) d lo hi v1 v2 value2 value2'
              Hlo Hv1 Hv2 Hlohi Hw Hn Hle) as (c1 & c2 & x1 & x2 & H1 & H2 & Hsel).
  destruct (constant_on_statistics (F := binary32) _ _ _ _ self d lo hi c1 x1 Hs H1)
    as (s1 & R1 & _).
  destruct (constant_on_statistics (F := binary32) _ _ _ _ self d lo hi c2 x2 Hs H2)
    as (s2 & R2 & _).
  exists c1, c2, s1, s2. done.
Qed.
End TransferSinglePrecision.

Section Bounds.
Import column_statistics.
Context {O : Operators}.
#[local] Existing Instance binary32.

End Bounds.

Section TableGone.
Import column_statistics.
Context {F : Float32} {O : Operators}.

End TableGone.

Section WidthOverflow.
Import column_statistics inputs.
#[local] Existing Instance binary32.

(** C7.  An [int32_t] column with [min = 0] and [max = 2147483647]
    (statistics given as values, or computed from the table) and the
    predicate [< 5]: the claim's selectivity is [5 / 2147483648].  The code
    forms [max() - min() + 1] in [int32_t] before it converts to [float]:
    the sum leaves the type, and the call is undefined.  So is [< v] where
    [v - min()] leaves the type: [min = -2000000000], [v = 2000000000]. *)
Theorem less_than_width_overflows :
  let overflow := UndefinedBehaviour "signed integer overflow" in
  in_range Int32 0 = true /\ in_range Int32 2147483647 = true
  /\ in_range Int32 5 = true
  /\ in_range Int32 (2147483647 - 0 + 1) = false
  /\ predicate_selectivity (O := no_operators) Int32 OpLessThan 5 None
       (of_values 0 (of_Z 5) 0 2147483647) = Err overflow
  /\ predicate_selectivity (O := table_full_range) Int32 OpLessThan 5 None
       (of_table (O := table_full_range) 0 (Some tt)) = Err overflow
  /\ predicate_selectivity (O := no_operators) Int32 OpLessThan 2000000000 None
       (of_values 0 (of_Z 5) (-2000000000) 0) = Err overflow.
Proof. repeat split; reflexivity. Qed.

(** C9.  The same column and the constants [5 <= 6]: neither [< 5] nor
    [< 6] has a defined result, for the width [max() - min() + 1] leaves
    [int32_t] in both calls. *)
Theorem less_than_monotone_overflows :
  let overflow := UndefinedBehaviour "signed integer overflow" in
  let self := of_values (O := no_operators) 0 (of_Z 5) 0 2147483647 in
  let bound := of_table (O := table_full_range) 0 (Some tt) in
  5 <= 6
  /\ predicate_selectivity Int32 OpLessThan 5 None self = Err overflow
  /\ predicate_selectivity Int32 OpLessThan 6 None self = Err overflow
  /\ predicate_selectivity Int32 OpLessThan 5 None bound = Err overflow
  /\ predicate_selectivity Int32 OpLessThan 6 None bound = Err overflow.
Proof. repeat split; try reflexivity. lia. Qed.
End WidthOverflow.

Section StatisticsWitnesses.
Import column_statistics inputs.
#[local] Existing Instance binary32.
#[local] Existing Instance table_10_20.

Lemma table_10_20_statistics id :
  has_statistics (of_table (O := table_10_20) id (Some tt)) (of_Z (Float32 := binary32) 5) 10 20.
Proof. by apply (of_table_has_statistics (O := table_10_20) id tt 5 10 20). Qed.


(** [< 12] against [< 15] on the column of the table. *)
Lemma less_than_monotone_witness :
  let self := of_table (O := table_10_20) 0 (Some tt) in
  has_statistics self (of_Z (Float32 := binary32) 5) 10 20
  /\ in_range Int32 10 = true /\ in_range Int32 12 = true /\ in_range Int32 15 = true
  /\ 10 <= 20 /\ in_range Int32 (20 - 10 + 1) = true
  /\ in_range Int32 (15 - 10) = true /\ 12 <= 15
  /\ exists c1 c2 s1 s2,
       predicate_selectivity Int32 OpLessThan 12 None self = Ok (c1, s1)
       /\ predicate_selectivity Int32 OpLessThan 15 None self = Ok (c2, s2)
       /\ SFleb (selectivity c1) (selectivity c2) = true.
Proof.
  split; [apply table_10_20_statistics|].
  split; [reflexivity|]. split; [reflexivity|]. split; [reflexivity|].
  split; [lia|]. split; [reflexivity|]. split; [reflexivity|]. split; [lia|].
  apply (less_than_monotone Int32 (of_table (O := table_10_20) 0 (Some tt))
           (of_Z (Float32 := binary32) 5) 10 20 12 15 None None
           (table_10_20_statistics 0)); try reflexivity; lia.
Defined.


End StatisticsWitnesses.

Section RadixColocationExamples.
Import radix_cluster_sort inputs.
#[local] Existing Instance roomy.

(** Four clusters, two chunks; the value 5 occurs in both. *)
Lemma radix_cluster_colocates_example :
  let input := [[record 5 0; record 2 1; record 9 2]; [record 5 0; record 4 1]] in
  0 < 4 <= SIZE_MAX /\ allocates 4 = true
  /\ exists out,
       _radix_cluster 4 [1; 0; 1]%nat input = Ok out
       /\ out = [[record 4 1]; [record 5 0; record 5 0; record 9 2]; [record 2 1]; []]
       /\ concat out ≡ₚ concat input.
Proof.
  split; [done|]. split; [reflexivity|].
  destruct (radix_cluster_colocates 4 [1; 0; 1]%nat
              [[record 5 0; record 2 1; record 9 2]; [record 5 0; record 4 1]])
    as (out & Hout & _ & Hperm & _); [done|reflexivity|].
  exists out. split; [done|]. split; [|done].
  vm_compute in Hout. by injection Hout as <-.
Defined.

(** ["abc"] whatever follows its terminator. *)
Lemma get_radix_string_long_example :
  let a := {| characters := [97; 98; 99]; behind_terminator := [7; 7] |} in
  let b := {| characters := [97; 98; 99]; behind_terminator := [] |} in
  characters a = characters b /\ (3 <= length (characters a))%nat
  /\ get_radix_string a 511 = get_radix_string b 511
  /\ get_radix_string a 511 = Ok 97.
Proof.
  split; [reflexivity|]. split; [simpl; lia|].
  split; [|reflexivity].
  by apply (get_radix_string_long
              {| characters := [97; 98; 99]; behind_terminator := [7; 7] |}
              {| characters := [97; 98; 99]; behind_terminator := [] |} 511);
    [reflexivity|simpl; lia].
Defined.
End RadixColocationExamples.
